(** * JWT Token Detective: the token index and its retention sweep

    A shallow embedding of the token-indexing engine of the browser
    extension (src/utils/jwt.ts, src/background/background.ts,
    src/popup/popup.ts) and the properties its specification states,
    followed by further properties of the listener, the codec, the index,
    the sweep, the loaders and the popup.

    Conventions of the embedding.
    - A JavaScript string is a [string]: its characters are the code units
      0..255 (header values and base64 text are in that range).
    - A time value (what [Date.prototype.getTime] and [Date.now] return) is
      an integer number of milliseconds, a [Z]; the not-a-number time value
      of an invalid [Date] is [None].  Inside the range of [Date]
      (8.64e15 ms on either side of the epoch) binary64 arithmetic on
      integers is exact, so the [Z] operations below are the host's.
    - A thrown exception is the [Throw] branch of [Result]; [try]/[catch]
      is a [match] on it.
    - [Date.now()] is the explicit argument [now]; the calls that one
      operation makes read the same instant.
    - An operation loads the snapshot, changes it and saves it; its model
      is a function from the snapshot loaded to the snapshot saved, and a run
      of operations hands each the snapshot the one before saved.  The runs
      of the last part ([run]) go through the storage area instead: each
      operation loads with [getStorage] what the one before saved there. *)

From Stdlib Require Import ZArith List String Ascii Bool Lia.
From Stdlib Require Import Permutation Sorted.
From stdpp Require Import base list strings finite sorting.

Import ListNotations.
Local Open Scope string_scope.
Local Open Scope list_scope.
Local Open Scope Z_scope.

(** ** Exceptions *)

Inductive Exn : Type :=
| Error (message : string)        (* [new Error(message)] *)
| InvalidCharacterError           (* DOMException raised by [atob] *)
| SyntaxError.                    (* raised by [JSON.parse] *)

Inductive Result (A : Type) : Type :=
| Ok (value : A)
| Throw (e : Exn).
Arguments Ok {A} value.
Arguments Throw {A} e.

#[global] Instance Result_ret : MRet Result := fun A v => Ok v.

#[global] Instance Result_bind : MBind Result := fun A B k r =>
  match r with
  | Ok v => k v
  | Throw e => Throw e
  end.

(** ** Strings *)

Definition chars (s : string) : list ascii := list_ascii_of_string s.
Definition text (l : list ascii) : string := string_of_list_ascii l.

Definition code (c : ascii) : Z := Z.of_N (N_of_ascii c).
Definition char_of (z : Z) : ascii := ascii_of_N (Z.to_N z).

(** [s.split(".")]: the segments between the dots; the empty string has
    one segment, itself. *)
Fixpoint split_dot (s : string) : list string :=
  match s with
  | EmptyString => [EmptyString]
  | String c rest =>
      if Ascii.eqb c "." then EmptyString :: split_dot rest
      else match split_dot rest with
           | seg :: segs => String c seg :: segs
           | [] => [String c EmptyString]
           end
  end.

(** [s.replace(/x/g, y)] for single characters. *)
Fixpoint replace_all (x y : ascii) (s : string) : string :=
  match s with
  | EmptyString => EmptyString
  | String c rest =>
      String (if Ascii.eqb c x then y else c) (replace_all x y rest)
  end.

(** [c.repeat(n)]. *)
Fixpoint repeat_char (c : ascii) (n : nat) : string :=
  match n with
  | O => EmptyString
  | S k => String c (repeat_char c k)
  end.

Definition strlen (s : string) : Z := Z.of_nat (String.length s).

(** ** [atob]: the forgiving-base64 decode of the HTML standard *)

Definition is_ascii_whitespace (c : ascii) : bool :=
  let n := code c in
  (n =? 9) || (n =? 10) || (n =? 12) || (n =? 13) || (n =? 32).

Definition b64_value (c : ascii) : option Z :=
  let n := code c in
  if (65 <=? n) && (n <=? 90) then Some (n - 65)
  else if (97 <=? n) && (n <=? 122) then Some (n - 71)
  else if (48 <=? n) && (n <=? 57) then Some (n + 4)
  else if n =? 43 then Some 62
  else if n =? 47 then Some 63
  else None.

Fixpoint b64_values (l : list ascii) : option (list Z) :=
  match l with
  | [] => Some []
  | c :: rest =>
      match b64_value c, b64_values rest with
      | Some v, Some vs => Some (v :: vs)
      | _, _ => None
      end
  end.

(** Four sextets give three bytes; a tail of two sextets gives one byte
    and a tail of three gives two, the spare bits being discarded. *)
Fixpoint b64_bytes (vs : list Z) : list ascii :=
  match vs with
  | a :: b :: c :: d :: rest =>
      let n := a * 262144 + b * 4096 + c * 64 + d in
      char_of (n / 65536) :: char_of ((n / 256) mod 256)
        :: char_of (n mod 256) :: b64_bytes rest
  | [a; b; c] =>
      let n := a * 4096 + b * 64 + c in
      [char_of (n / 1024); char_of ((n / 4) mod 256)]
  | [a; b] => [char_of ((a * 64 + b) / 16)]
  | _ => []
  end.

(** The text without its last character when that is the padding sign. *)
Definition strip_pad (l : list ascii) : option (list ascii) :=
  match rev l with
  | c :: r => if Ascii.eqb c "=" then Some (rev r) else None
  | [] => None
  end.

(** One or two padding signs at the end are removed. *)
Definition strip_padding (l : list ascii) : list ascii :=
  match strip_pad l with
  | Some l1 => match strip_pad l1 with Some l2 => l2 | None => l1 end
  | None => l
  end.

Definition atob (s : string) : Result string :=
  let data := List.filter (fun c => negb (is_ascii_whitespace c)) (chars s) in
  let data :=
    if Z.of_nat (length data) mod 4 =? 0 then strip_padding data else data in
  if Z.of_nat (length data) mod 4 =? 1 then Throw InvalidCharacterError
  else match b64_values data with
       | None => Throw InvalidCharacterError
       | Some vs => Ok (text (b64_bytes vs))
       end.

(** ** [TextEncoder.encode]: UTF-8 of code units below 256 *)

Definition utf8_char (c : ascii) : list Z :=
  let n := code c in
  if n <? 128 then [n]
  else [Z.lor 192 (Z.shiftr n 6); Z.lor 128 (Z.land n 63)].

Definition utf8_encode (s : string) : list Z :=
  concat (map utf8_char (chars s)).

(** ** [crypto.subtle.digest("SHA-256", data)] (FIPS 180-4) *)

Module SHA256.

Definition mask32 : Z := 4294967295.
Definition add32 (x y : Z) : Z := Z.land (x + y) mask32.
Definition rotr (n x : Z) : Z :=
  Z.lor (Z.shiftr x n) (Z.land (Z.shiftl x (32 - n)) mask32).
Definition not32 (x : Z) : Z := Z.lxor x mask32.

Definition Ch (x y z : Z) : Z := Z.lxor (Z.land x y) (Z.land (not32 x) z).
Definition Maj (x y z : Z) : Z :=
  Z.lxor (Z.lxor (Z.land x y) (Z.land x z)) (Z.land y z).
Definition bsig0 (x : Z) : Z :=
  Z.lxor (Z.lxor (rotr 2 x) (rotr 13 x)) (rotr 22 x).
Definition bsig1 (x : Z) : Z :=
  Z.lxor (Z.lxor (rotr 6 x) (rotr 11 x)) (rotr 25 x).
Definition ssig0 (x : Z) : Z :=
  Z.lxor (Z.lxor (rotr 7 x) (rotr 18 x)) (Z.shiftr x 3).
Definition ssig1 (x : Z) : Z :=
  Z.lxor (Z.lxor (rotr 17 x) (rotr 19 x)) (Z.shiftr x 10).

(** The first sixty-four primes. *)
Definition primes : list Z :=
  [2; 3; 5; 7; 11; 13; 17; 19; 23; 29; 31; 37; 41; 43; 47; 53; 59; 61; 67;
   71; 73; 79; 83; 89; 97; 101; 103; 107; 109; 113; 127; 131; 137; 139; 149;
   151; 157; 163; 167; 173; 179; 181; 191; 193; 197; 199; 211; 223; 227;
   229; 233; 239; 241; 251; 257; 263; 269; 271; 277; 281; 283; 293; 307;
   311].

(** The integer cube root, found bit by bit from bit [k] down. *)
Fixpoint cube_root_bits (k : nat) (n r : Z) : Z :=
  match k with
  | O => r
  | S k' =>
      let r' := r + 2 ^ Z.of_nat k' in
      cube_root_bits k' n (if r' * r' * r' <=? n then r' else r)
  end.

(** The round constants: the first 32 bits of the fractional parts of the
    cube roots of the primes. *)
Definition K : list Z :=
  Eval vm_compute in
    map (fun p => Z.land (cube_root_bits 40 (p * 2 ^ 96) 0) mask32) primes.

(** The initial hash value: the first 32 bits of the fractional parts of
    the square roots of the first eight primes. *)
Definition H0 : list Z :=
  Eval vm_compute in
    map (fun p => Z.land (Z.sqrt (p * 2 ^ 64)) mask32) (firstn 8 primes).

(** Big-endian bytes of a value, [n] of them. *)
Fixpoint be_bytes (n : nat) (x : Z) : list Z :=
  match n with
  | O => []
  | S k => Z.land (Z.shiftr x (8 * Z.of_nat k)) 255 :: be_bytes k x
  end.

(** The message, a one bit, zero bits up to 56 modulo 64 bytes, and the
    bit length on 64 bits. *)
Definition pad (msg : list Z) : list Z :=
  let len := Z.of_nat (length msg) in
  let zeros := Z.to_nat ((55 - len) mod 64) in
  msg ++ 128 :: List.repeat 0 zeros ++ be_bytes 8 (8 * len).

Fixpoint words (fuel : nat) (bs : list Z) : list Z :=
  match fuel, bs with
  | S k, a :: b :: c :: d :: rest =>
      (a * 16777216 + b * 65536 + c * 256 + d) :: words k rest
  | _, _ => []
  end.

(** The message schedule, newest word first: [ws] holds W(t-1) .. W(0). *)
Fixpoint schedule (n : nat) (ws : list Z) : list Z :=
  match n with
  | O => ws
  | S k =>
      let w := add32 (add32 (ssig1 (nth 1 ws 0)) (nth 6 ws 0))
                     (add32 (ssig0 (nth 14 ws 0)) (nth 15 ws 0)) in
      schedule k (w :: ws)
  end.

Definition round (st : list Z) (kw : Z * Z) : list Z :=
  match st with
  | [a; b; c; d; e; f; g; h] =>
      let t1 := add32 (add32 (add32 h (bsig1 e)) (Ch e f g))
                      (add32 (fst kw) (snd kw)) in
      let t2 := add32 (bsig0 a) (Maj a b c) in
      [add32 t1 t2; a; b; c; add32 d t1; e; f; g]
  | _ => st
  end.

Definition compress (hs : list Z) (block : list Z) : list Z :=
  let w := rev (schedule 48 (rev (words 16 block))) in
  let st := fold_left round (combine K w) hs in
  map (fun p => add32 (fst p) (snd p)) (combine hs st).

Fixpoint blocks (fuel : nat) (hs : list Z) (bs : list Z) : list Z :=
  match fuel with
  | O => hs
  | S k =>
      match bs with
      | [] => hs
      | _ => blocks k (compress hs (firstn 64 bs)) (skipn 64 bs)
      end
  end.

Definition digest (msg : list Z) : list Z :=
  let padded := pad msg in
  concat (map (be_bytes 4) (blocks (length padded) H0 padded)).

End SHA256.

(** [b.toString(16).padStart(2, "0")]: two lower-case hexadecimal digits. *)
Definition hex_digit (n : Z) : ascii :=
  if n <? 10 then char_of (48 + n) else char_of (87 + n).

Definition hex_byte (b : Z) : string :=
  String (hex_digit (b / 16)) (String (hex_digit (b mod 16)) EmptyString).

Definition hex_string (bs : list Z) : string :=
  fold_right String.append EmptyString (map hex_byte bs).

(** ** JavaScript values

    What [JSON.parse] returns and what the storage area hands back.  A
    number is an integer here (a NumericDate in seconds, a time value in
    milliseconds); fractional numbers are outside the model. *)

#[local] Unset Elimination Schemes.
Inductive JsValue : Type :=
| JUndefined
| JNull
| JBool (b : bool)
| JNum (n : Z)
| JStr (s : string)
| JArr (items : list JsValue)
| JObj (fields : list (string * JsValue)).
#[local] Set Elimination Schemes.

(** [!!v] *)
Definition truthy (v : JsValue) : bool :=
  match v with
  | JUndefined | JNull => false
  | JBool b => b
  | JNum n => negb (n =? 0)
  | JStr s => negb (String.eqb s EmptyString)
  | JArr _ | JObj _ => true
  end.

Fixpoint assoc (k : string) (fields : list (string * JsValue)) : JsValue :=
  match fields with
  | [] => JUndefined
  | (k', v) :: rest => if String.eqb k k' then v else assoc k rest
  end.

(** [v.k] on a value that is neither [null] nor [undefined]: an own
    property of an object, [undefined] on anything else. *)
Definition prop (v : JsValue) (k : string) : JsValue :=
  match v with
  | JObj fields => assoc k fields
  | _ => JUndefined
  end.

Definition is_number (v : JsValue) : bool :=
  match v with JNum _ => true | _ => false end.

Definition to_number (v : JsValue) : Z :=
  match v with JNum n => n | _ => 0 end.

(** ** Dates

    A [Date] holds a time value: milliseconds since the epoch, or NaN
    ([None]) when the date is invalid. *)

Record JsDate : Type := mkDate { getTime : option Z }.

Definition InvalidDate : JsDate := mkDate None.

Definition MAX_TIME : Z := 8640000000000000.

(** TimeClip of ECMA-262. *)
Definition TimeClip (ms : Z) : option Z :=
  if Z.abs ms <=? MAX_TIME then Some ms else None.

(** [new Date(ms)] for a number. *)
Definition Date_of_number (ms : Z) : JsDate := mkDate (TimeClip ms).

(** [isNaN(x)] on a time value. *)
Definition isNaN (t : option Z) : bool :=
  match t with Some _ => false | None => true end.

(** [a < b], [a > b] and [a - b] on numbers that may be NaN. *)
Definition num_lt (a b : option Z) : bool :=
  match a, b with
  | Some x, Some y => x <? y
  | _, _ => false
  end.

Definition num_gt (a b : option Z) : bool := num_lt b a.

Definition num_sub (a b : option Z) : option Z :=
  match a, b with
  | Some x, Some y => Some (x - y)
  | _, _ => None
  end.

(** ** The host: [JSON.parse] and [Date.parse]

    Both belong to the JavaScript engine, not to the extension; the
    development is parametric in them.  [Date_parse] returns NaN ([None])
    on text it does not recognise. *)

Class Host : Type := {
  JSON_parse : string -> Result JsValue;
  Date_parse : string -> option Z;
}.

(** ** Arrays *)

(** [l.length] *)
Definition len {A} (l : list A) : Z := Z.of_nat (length l).

(** [l.findIndex(p)]: the first index whose element satisfies [p], or -1. *)
Fixpoint findIndex {A} (p : A -> bool) (l : list A) : Z :=
  match l with
  | [] => -1
  | x :: rest =>
      if p x then 0
      else let i := findIndex p rest in if i <? 0 then -1 else i + 1
  end.

(** [l.slice(0, n)] *)
Definition slice0 {A} (n : Z) (l : list A) : list A := take (Z.to_nat n) l.

(** [l.sort(cmp)].  The sort is stable, and a comparator result of NaN
    counts as 0.  For a comparator that orders its arguments consistently
    (here: whenever the timestamps are valid) the outcome is fixed by
    stability, and this insertion sort computes it. *)
Definition SortCompare {A} (cmp : A -> A -> option Z) (x y : A) : Z :=
  match cmp x y with Some v => v | None => 0 end.

Fixpoint sort_insert {A} (cmp : A -> A -> option Z) (x : A) (l : list A)
  : list A :=
  match l with
  | [] => [x]
  | y :: rest =>
      if SortCompare cmp x y <=? 0 then x :: y :: rest
      else y :: sort_insert cmp x rest
  end.

Definition Array_sort {A} (cmp : A -> A -> option Z) (l : list A) : list A :=
  fold_right (sort_insert cmp) [] l.

(** ** src/types/jwt.ts

    The records are parametric in the representation of instants, so that
    the same shapes describe the groups in memory ([Date] objects) and the
    groups as the storage area returns them (serialized instants).  The
    optional [parseError] field, never written by the code, is omitted. *)

Record RequestInfoT (D : Type) : Type := mkRequestInfo {
  reqId : string;
  url : string;
  method : string;
  abbreviatedPath : string;
  timestamp : D;
}.
Arguments mkRequestInfo {D}.
Arguments reqId {D}.
Arguments url {D}.
Arguments method {D}.
Arguments abbreviatedPath {D}.
Arguments timestamp {D}.

Record TokenGroupT (X D : Type) : Type := mkTokenGroup {
  tokenId : string;
  raw : string;
  header : JsValue;
  payload : JsValue;
  signature : string;
  expiryDate : X;
  isExpired : bool;
  requests : list (RequestInfoT D);
  firstSeen : D;
  lastSeen : D;
  isValid : bool;
}.
Arguments mkTokenGroup {X D}.
Arguments tokenId {X D}.
Arguments raw {X D}.
Arguments header {X D}.
Arguments payload {X D}.
Arguments signature {X D}.
Arguments expiryDate {X D}.
Arguments isExpired {X D}.
Arguments requests {X D}.
Arguments firstSeen {X D}.
Arguments lastSeen {X D}.
Arguments isValid {X D}.

Record StorageT (X D : Type) : Type := mkStorage {
  tokenGroups : list (TokenGroupT X D);
  maxTokenGroups : option Z;
  retentionHours : option Z;
}.
Arguments mkStorage {X D}.
Arguments tokenGroups {X D}.
Arguments maxTokenGroups {X D}.
Arguments retentionHours {X D}.

Abbreviation RequestInfo := (RequestInfoT JsDate).
Abbreviation JWTTokenGroup := (TokenGroupT (option JsDate) JsDate).
Abbreviation ExtensionStorage := (StorageT (option JsDate) JsDate).

(** Field assignments and object spreads. *)
Definition with_requests {X D} (rs : list (RequestInfoT D))
  (g : TokenGroupT X D) : TokenGroupT X D :=
  mkTokenGroup (tokenId g) (raw g) (header g) (payload g) (signature g)
    (expiryDate g) (isExpired g) rs (firstSeen g) (lastSeen g) (isValid g).

Definition with_lastSeen {X D} (d : D) (g : TokenGroupT X D)
  : TokenGroupT X D :=
  mkTokenGroup (tokenId g) (raw g) (header g) (payload g) (signature g)
    (expiryDate g) (isExpired g) (requests g) (firstSeen g) d (isValid g).

Definition with_isExpired {X D} (b : bool) (g : TokenGroupT X D)
  : TokenGroupT X D :=
  mkTokenGroup (tokenId g) (raw g) (header g) (payload g) (signature g)
    (expiryDate g) b (requests g) (firstSeen g) (lastSeen g) (isValid g).

Definition with_tokenGroups {X D X' D'} (gs : list (TokenGroupT X' D'))
  (st : StorageT X D) : StorageT X' D' :=
  mkStorage gs (maxTokenGroups st) (retentionHours st).

(** ** src/utils/jwt.ts *)

Module JWTUtils.

Record ParsedJWT : Type := mkParsed {
  p_header : JsValue;
  p_payload : JsValue;
  p_signature : string;
}.

(** Pad to a multiple of four, translate the URL-safe alphabet, decode. *)
Definition base64UrlDecode (str : string) : Result string :=
  let str :=
    str +:+ repeat_char "=" (Z.to_nat ((4 - strlen str mod 4) mod 4)) in
  let str := replace_all "_" "/" (replace_all "-" "+" str) in
  atob str.

Definition getExpiryDate (payload : JsValue) : option JsDate :=
  if negb (truthy payload) || negb (is_number (prop payload "exp"))
  then None
  else
    let expiryDate := Date_of_number (to_number (prop payload "exp") * 1000) in
    if isNaN (getTime expiryDate) then None else Some expiryDate.

Definition isTokenExpired (now : Z) (payload : JsValue) : bool :=
  match getExpiryDate payload with
  | None => false
  | Some expiryDate => num_lt (getTime expiryDate) (Some now)
  end.

Definition generateTokenId (token : string) : string :=
  let parts := split_dot token in
  if negb (len parts =? 3) then token
  else
    let payloadAndSignature :=
      nth 1 parts EmptyString +:+ "." +:+ nth 2 parts EmptyString in
    let hashHex :=
      hex_string (SHA256.digest (utf8_encode payloadAndSignature)) in
    substring 0 16 hashHex.

Section WithHost.
Context `{Host}.

(** The body of the [try] block of [parseJWT]. *)
Definition parseJWT_try (token : string) : Result ParsedJWT :=
  let parts := split_dot token in
  if negb (len parts =? 3) then Throw (Error "Invalid JWT format")
  else
    header ← base64UrlDecode (nth 0 parts EmptyString) ≫= JSON_parse;
    payload ← base64UrlDecode (nth 1 parts EmptyString) ≫= JSON_parse;
    let signature := nth 2 parts EmptyString in
    Ok (mkParsed header payload signature).

Definition parseJWT (token : string) : option ParsedJWT :=
  match parseJWT_try token with
  | Ok parsed => Some parsed
  | Throw _ => None
  end.

Definition createTokenGroup (now : Z) (token : string)
  (requestInfo : RequestInfo) : option JWTTokenGroup :=
  match parseJWT token with
  | None => None
  | Some parsed =>
      let tokenId := generateTokenId token in
      let expiryDate := getExpiryDate (p_payload parsed) in
      let isExpired := isTokenExpired now (p_payload parsed) in
      Some (mkTokenGroup tokenId token (p_header parsed)
              (p_payload parsed) (p_signature parsed) expiryDate
              isExpired [requestInfo] (timestamp requestInfo)
              (timestamp requestInfo) true)
  end.

End WithHost.

End JWTUtils.

(** ** Instants as the storage area returns them

    A persisted instant comes back as whatever the serialization left:
    nothing, [null], a number of milliseconds, a string, or (when the area
    keeps objects) a [Date]. *)

Inductive RawTime : Type :=
| RawUndefined
| RawNull
| RawNumber (n : Z)
| RawString (s : string)
| RawDate (d : JsDate).

Definition raw_truthy (v : RawTime) : bool :=
  match v with
  | RawUndefined | RawNull => false
  | RawNumber n => negb (n =? 0)
  | RawString s => negb (String.eqb s EmptyString)
  | RawDate _ => true
  end.

Abbreviation RawRequest := (RequestInfoT RawTime).
Abbreviation RawGroup := (TokenGroupT RawTime RawTime).
Abbreviation RawStorage := (StorageT RawTime RawTime).

(** [new Date(v)] *)
Definition new_Date `{Host} (v : RawTime) : JsDate :=
  match v with
  | RawUndefined => InvalidDate
  | RawNull => Date_of_number 0
  | RawNumber n => Date_of_number n
  | RawString s => mkDate (Date_parse s)
  | RawDate d => d
  end.

Definition with_timestamp {D D'} (d : D') (r : RequestInfoT D)
  : RequestInfoT D' :=
  mkRequestInfo (reqId r) (url r) (method r) (abbreviatedPath r) d.

(** [(a, b) => b.timestamp.getTime() - a.timestamp.getTime()] *)
Definition newest_first (a b : RequestInfo) : option Z :=
  num_sub (getTime (timestamp b)) (getTime (timestamp a)).

(** ** src/background/background.ts *)

Module Background.

Definition MAX_TOKEN_GROUPS : Z := 100.
Definition RETENTION_HOURS : Z := 24.

Section WithHost.
Context `{Host}.

Definition getStorage (data : option RawStorage) : ExtensionStorage :=
  match data with
  | Some data =>
      with_tokenGroups
        (map (fun group : RawGroup =>
           mkTokenGroup (tokenId group) (raw group) (header group)
             (payload group) (signature group)
             (if raw_truthy (expiryDate group)
              then Some (new_Date (expiryDate group)) else None)
             (isExpired group)
             (map (fun req : RawRequest =>
                     with_timestamp (new_Date (timestamp req)) req)
                  (requests group))
             (new_Date (firstSeen group))
             (new_Date (lastSeen group))
             (isValid group))
           (tokenGroups data))
        data
  | None =>
      mkStorage [] (Some MAX_TOKEN_GROUPS) (Some RETENTION_HOURS)
  end.

(** The branch of [storeTokenData] that updates the group found. *)
Definition updateExistingGroup (now : Z) (token : string)
  (requestInfo : RequestInfo) (existingGroup : JWTTokenGroup)
  : JWTTokenGroup :=
  let g := with_requests (requests existingGroup ++ [requestInfo])
             existingGroup in
  let g := with_lastSeen (timestamp requestInfo) g in
  let g :=
    match JWTUtils.parseJWT token with
    | Some parsed =>
        with_isExpired
          (JWTUtils.isTokenExpired now (JWTUtils.p_payload parsed)) g
    | None => g
    end in
  if 50 <? len (requests g)
  then with_requests (slice0 50 (Array_sort newest_first (requests g))) g
  else g.

(** [storeTokenData], from the storage it loads to the storage it saves. *)
Definition storeTokenData (now : Z) (token : string)
  (requestInfo : RequestInfo) (storage : ExtensionStorage)
  : ExtensionStorage :=
  let tokenId' := JWTUtils.generateTokenId token in
  let existingGroupIndex :=
    findIndex (fun group : JWTTokenGroup =>
                 String.eqb (tokenId group) tokenId')
              (tokenGroups storage) in
  let groups :=
    if 0 <=? existingGroupIndex then
      alter (updateExistingGroup now token requestInfo)
            (Z.to_nat existingGroupIndex) (tokenGroups storage)
    else
      match JWTUtils.createTokenGroup now token requestInfo with
      | Some newGroup => newGroup :: tokenGroups storage
      | None => tokenGroups storage
      end in
  let groups :=
    if MAX_TOKEN_GROUPS <? len groups
    then slice0 MAX_TOKEN_GROUPS groups else groups in
  with_tokenGroups groups storage.

End WithHost.

(** The map step of [cleanupOldData]. *)
Definition refreshGroup (now cutoffTime : Z) (group : JWTTokenGroup)
  : JWTTokenGroup :=
  with_requests
    (List.filter
       (fun req : RequestInfo =>
          num_gt (getTime (timestamp req)) (Some cutoffTime))
       (requests group))
    (with_isExpired (JWTUtils.isTokenExpired now (payload group)) group).

(** The filter step of [cleanupOldData]. *)
Definition keepGroup (cutoffTime : Z) (group : JWTTokenGroup) : bool :=
  let hasRecentRequests := 0 <? len (requests group) in
  let groupIsVeryOld :=
    num_lt (getTime (lastSeen group)) (Some cutoffTime) in
  hasRecentRequests || negb groupIsVeryOld.

Definition cleanupOldData (now : Z) (storage : ExtensionStorage)
  : ExtensionStorage :=
  let cutoffTime := now - RETENTION_HOURS * 60 * 60 * 1000 in
  with_tokenGroups
    (List.filter (keepGroup cutoffTime)
       (map (refreshGroup now cutoffTime) (tokenGroups storage)))
    storage.

End Background.

(** ** The second background script

    The sources hold a second version of the background script (the
    document that follows src/utils/jwt.ts).  It differs from the first in
    its retention constant and in the filter step of [cleanupOldData]. *)

Module BackgroundAggressive.

Definition MAX_TOKEN_GROUPS : Z := 100.
Definition RETENTION_HOURS : Z := 2.
Definition CLEAN_UP_INTERVAL_MINUTES : Z := 15.

(** [!!x] for [x] a number or [null]. *)
Definition time_truthy (t : option Z) : bool :=
  match t with Some n => negb (n =? 0) | None => false end.

(** [expiryTime] after the two attempts to find it: the [expiryDate]
    of the group when it is a valid [Date], then [payload.exp].  (The
    branch for an [expiryDate] that is a string or a number is dead once
    [getStorage] has rebuilt the dates.) *)
Definition expiryTimeOf (group : JWTTokenGroup) : option Z :=
  let expiryTime :=
    match expiryDate group with
    | Some d => if negb (isNaN (getTime d)) then getTime d else None
    | None => None
    end in
  if negb (time_truthy expiryTime) && truthy (payload group)
     && is_number (prop (payload group) "exp")
  then Some (to_number (prop (payload group) "exp") * 1000)
  else expiryTime.

(** [hoursExpired > 1], where [hoursExpired] is the quotient of
    [now - expiryTime] by the milliseconds of an hour. *)
Definition expiredMoreThanAnHour (now : Z) (group : JWTTokenGroup) : bool :=
  let expiryTime := expiryTimeOf group in
  if time_truthy expiryTime
  then 60 * 60 * 1000 <? now - default 0 expiryTime
  else false.

Definition shouldKeep (now : Z) (group : JWTTokenGroup) : bool :=
  let isCurrentlyExpired := JWTUtils.isTokenExpired now (payload group) in
  negb isCurrentlyExpired || negb (expiredMoreThanAnHour now group).

Definition cleanupOldData (now : Z) (storage : ExtensionStorage)
  : ExtensionStorage :=
  let cutoffTime := now - RETENTION_HOURS * 60 * 60 * 1000 in
  with_tokenGroups
    (List.filter (shouldKeep now)
       (map (Background.refreshGroup now cutoffTime) (tokenGroups storage)))
    storage.

End BackgroundAggressive.

(** ** src/popup/popup.ts *)

Module Popup.

Section WithHost.
Context `{Host}.

Definition parseDate (dateValue : RawTime) : option JsDate :=
  if negb (raw_truthy dateValue) then None
  else match dateValue with
       | RawDate d => if isNaN (getTime d) then None else Some d
       | _ =>
           let parsed := new_Date dateValue in
           if isNaN (getTime parsed) then None else Some parsed
       end.

(** [x || new Date()] *)
Definition or_now (now : Z) (x : option JsDate) : JsDate :=
  match x with Some d => d | None => Date_of_number now end.

(** The function mapped over the stored groups by [getStorage].  (The
    filter on the rebuilt requests keeps them all: each has a timestamp
    that is a [Date].) *)
Definition loadGroup (now : Z) (group : RawGroup) : JWTTokenGroup :=
  let parsedExpiryDate := parseDate (expiryDate group) in
  let isExpired' :=
    match parsedExpiryDate with
    | Some d => num_lt (getTime d) (Some now)
    | None =>
        if truthy (payload group)
           && is_number (prop (payload group) "exp")
        then to_number (prop (payload group) "exp") * 1000 <? now
        else isExpired group
    end in
  mkTokenGroup (tokenId group) (raw group) (header group)
    (payload group) (signature group) parsedExpiryDate isExpired'
    (map (fun req : RawRequest =>
            with_timestamp (or_now now (parseDate (timestamp req))) req)
         (requests group))
    (or_now now (parseDate (firstSeen group)))
    (or_now now (parseDate (lastSeen group)))
    (isValid group).

Definition getStorage (now : Z) (data : option RawStorage)
  : ExtensionStorage :=
  match data with
  | Some data => with_tokenGroups (map (loadGroup now) (tokenGroups data)) data
  | None => mkStorage [] None None
  end.

End WithHost.

End Popup.

(** ** A reference host

    An implementation of the two host functions, used to run the code on
    concrete tokens and snapshots: JSON with integer numbers and strings
    of code units below 256, and the simplified ISO 8601 format of
    [Date.prototype.toISOString].  Text outside these fragments is
    reported as unparseable. *)

Module Reference.

Definition is_json_ws (c : ascii) : bool :=
  let n := code c in (n =? 32) || (n =? 9) || (n =? 10) || (n =? 13).

Fixpoint skip_ws (l : list ascii) : list ascii :=
  match l with
  | c :: rest => if is_json_ws c then skip_ws rest else l
  | [] => []
  end.

Definition digit (c : ascii) : option Z :=
  let n := code c in
  if (48 <=? n) && (n <=? 57) then Some (n - 48) else None.

Definition hex_value (c : ascii) : option Z :=
  let n := code c in
  if (48 <=? n) && (n <=? 57) then Some (n - 48)
  else if (97 <=? n) && (n <=? 102) then Some (n - 87)
  else if (65 <=? n) && (n <=? 70) then Some (n - 55)
  else None.

(** The digits at the head of [l], read to the left of [acc]. *)
Fixpoint digits (acc : Z) (l : list ascii) : Z * list ascii :=
  match l with
  | c :: rest =>
      match digit c with
      | Some d => digits (acc * 10 + d) rest
      | None => (acc, l)
      end
  | [] => (acc, [])
  end.

Definition ends_number (l : list ascii) : bool :=
  match l with
  | c :: _ => negb ((code c =? 46) || (code c =? 101) || (code c =? 69))
  | [] => true
  end.

(** An integer literal: no leading zero, no fraction, no exponent. *)
Definition number (l : list ascii) : option (Z * list ascii) :=
  match l with
  | c :: rest =>
      match digit c with
      | Some 0 =>
          match rest with
          | c' :: _ => match digit c' with
                       | Some _ => None
                       | None => if ends_number rest then Some (0, rest)
                                 else None
                       end
          | [] => Some (0, [])
          end
      | Some d =>
          let '(n, rest') := digits d rest in
          if ends_number rest' then Some (n, rest') else None
      | None => None
      end
  | [] => None
  end.

(** The characters of a string literal after its opening quote. *)
Fixpoint string_body (acc : list ascii) (l : list ascii)
  : option (string * list ascii) :=
  match l with
  | [] => None
  | c :: rest =>
      if code c =? 34 then Some (text (rev acc), rest)
      else if code c =? 92 then
        match rest with
        | e :: rest' =>
            let n := code e in
            if (n =? 34) || (n =? 92) || (n =? 47)
            then string_body (e :: acc) rest'
            else if n =? 98 then string_body (char_of 8 :: acc) rest'
            else if n =? 102 then string_body (char_of 12 :: acc) rest'
            else if n =? 110 then string_body (char_of 10 :: acc) rest'
            else if n =? 114 then string_body (char_of 13 :: acc) rest'
            else if n =? 116 then string_body (char_of 9 :: acc) rest'
            else if n =? 117 then
              match rest' with
              | a :: b :: c' :: d :: rest'' =>
                  match hex_value a, hex_value b,
                        hex_value c', hex_value d with
                  | Some 0, Some 0, Some x, Some y =>
                      string_body (char_of (x * 16 + y) :: acc) rest''
                  | _, _, _, _ => None
                  end
              | _ => None
              end
            else None
        | [] => None
        end
      else if code c <? 32 then None
      else string_body (c :: acc) rest
  end.

Fixpoint prefix_of (p l : list ascii) : option (list ascii) :=
  match p, l with
  | [], _ => Some l
  | a :: p', b :: l' => if Ascii.eqb a b then prefix_of p' l' else None
  | _ :: _, [] => None
  end.

(** [obj[k] = v]: a later member replaces an earlier one of the same
    name, in the place of the earlier one. *)
Fixpoint set_field (k : string) (v : JsValue)
  (fields : list (string * JsValue)) : list (string * JsValue) :=
  match fields with
  | [] => [(k, v)]
  | (k', v') :: rest =>
      if String.eqb k k' then (k, v) :: rest
      else (k', v') :: set_field k v rest
  end.

Fixpoint value (fuel : nat) (l : list ascii)
  : option (JsValue * list ascii) :=
  match fuel with
  | O => None
  | S fuel' =>
      let elements :=
        fix elements (n : nat) (acc : list JsValue) (l : list ascii)
          : option (JsValue * list ascii) :=
          match n with
          | O => None
          | S n' =>
              match value fuel' l with
              | Some (v, rest) =>
                  match skip_ws rest with
                  | c :: rest' =>
                      if code c =? 44 then elements n' (v :: acc) rest'
                      else if code c =? 93
                      then Some (JArr (rev (v :: acc)), rest')
                      else None
                  | [] => None
                  end
              | None => None
              end
          end in
      let members :=
        fix members (n : nat) (acc : list (string * JsValue))
          (l : list ascii) : option (JsValue * list ascii) :=
          match n with
          | O => None
          | S n' =>
              match skip_ws l with
              | q :: rest =>
                  if code q =? 34 then
                    match string_body [] rest with
                    | Some (k, rest1) =>
                        match skip_ws rest1 with
                        | colon :: rest2 =>
                            if code colon =? 58 then
                              match value fuel' rest2 with
                              | Some (v, rest3) =>
                                  match skip_ws rest3 with
                                  | c :: rest4 =>
                                      if code c =? 44
                                      then members n' (set_field k v acc)
                                             rest4
                                      else if code c =? 125
                                      then Some (JObj (set_field k v acc),
                                                 rest4)
                                      else None
                                  | [] => None
                                  end
                              | None => None
                              end
                            else None
                        | [] => None
                        end
                    | None => None
                    end
                  else None
              | [] => None
              end
          end in
      match skip_ws l with
      | [] => None
      | c :: rest =>
          let n := code c in
          if n =? 123 then
            match skip_ws rest with
            | c' :: rest' =>
                if code c' =? 125 then Some (JObj [], rest')
                else members fuel' [] rest
            | [] => None
            end
          else if n =? 91 then
            match skip_ws rest with
            | c' :: rest' =>
                if code c' =? 93 then Some (JArr [], rest')
                else elements fuel' [] rest
            | [] => None
            end
          else if n =? 34 then
            match string_body [] rest with
            | Some (str, rest') => Some (JStr str, rest')
            | None => None
            end
          else if n =? 45 then
            match number rest with
            | Some (k, rest') => Some (JNum (- k), rest')
            | None => None
            end
          else if n =? 116 then
            match prefix_of (chars "rue") rest with
            | Some rest' => Some (JBool true, rest')
            | None => None
            end
          else if n =? 102 then
            match prefix_of (chars "alse") rest with
            | Some rest' => Some (JBool false, rest')
            | None => None
            end
          else if n =? 110 then
            match prefix_of (chars "ull") rest with
            | Some rest' => Some (JNull, rest')
            | None => None
            end
          else
            match number (c :: rest) with
            | Some (k, rest') => Some (JNum k, rest')
            | None => None
            end
      end
  end.

Definition JSON_parse (s : string) : Result JsValue :=
  match value (S (String.length s)) (chars s) with
  | Some (v, rest) =>
      match skip_ws rest with
      | [] => Ok v
      | _ :: _ => Throw SyntaxError
      end
  | None => Throw SyntaxError
  end.

(** Days from the epoch to a civil date. *)
Definition days_from_civil (y m d : Z) : Z :=
  let y' := if m <=? 2 then y - 1 else y in
  let era := y' / 400 in
  let yoe := y' - era * 400 in
  let doy := (153 * (if 2 <? m then m - 3 else m + 9) + 2) / 5 + d - 1 in
  let doe := yoe * 365 + yoe / 4 - yoe / 100 + doy in
  era * 146097 + doe - 719468.

Definition days_in_month (y m : Z) : Z :=
  if m =? 2 then
    if ((y mod 4 =? 0) && negb (y mod 100 =? 0)) || (y mod 400 =? 0)
    then 29 else 28
  else if (m =? 4) || (m =? 6) || (m =? 9) || (m =? 11) then 30 else 31.

(** Exactly [n] digits at the head of [l]. *)
Fixpoint fixed_digits (n : nat) (acc : Z) (l : list ascii)
  : option (Z * list ascii) :=
  match n with
  | O => Some (acc, l)
  | S k =>
      match l with
      | c :: rest =>
          match digit c with
          | Some d => fixed_digits k (acc * 10 + d) rest
          | None => None
          end
      | [] => None
      end
  end.

Definition expect (n : Z) (l : list ascii) : option (list ascii) :=
  match l with
  | c :: rest => if code c =? n then Some rest else None
  | [] => None
  end.

(** YYYY-MM-DDTHH:mm:ss.sssZ *)
Definition Date_parse (s : string) : option Z :=
  '(y, l) ← fixed_digits 4 0 (chars s);
  l ← expect 45 l;
  '(mo, l) ← fixed_digits 2 0 l;
  l ← expect 45 l;
  '(d, l) ← fixed_digits 2 0 l;
  l ← expect 84 l;
  '(h, l) ← fixed_digits 2 0 l;
  l ← expect 58 l;
  '(mi, l) ← fixed_digits 2 0 l;
  l ← expect 58 l;
  '(sec, l) ← fixed_digits 2 0 l;
  l ← expect 46 l;
  '(ms, l) ← fixed_digits 3 0 l;
  l ← expect 90 l;
  match l with
  | [] =>
      if (1 <=? mo) && (mo <=? 12) && (1 <=? d)
         && (d <=? days_in_month y mo)
         && (h <=? 23) && (mi <=? 59) && (sec <=? 59)
      then Some ((((days_from_civil y mo d * 24 + h) * 60 + mi) * 60
                  + sec) * 1000 + ms)
      else None
  | _ :: _ => None
  end.

End Reference.

Definition ReferenceHost : Host :=
  {| JSON_parse := Reference.JSON_parse; Date_parse := Reference.Date_parse |}.

(** ** src/utils/jwt.ts: the Authorization header, paths, request ids

    The three remaining functions of [JWTUtils], which [handleRequest]
    calls on every intercepted request. *)

(** [new URL(url)] belongs to the host.  It raises on text that is no URL
    ([None]); of the URL it builds the code reads two fields. *)
Record URL : Type := mkURL {
  pathname : string;
  hostname : string;
}.

Class UrlHost : Type := {
  URL_parse : string -> option URL;
}.

(** [s.startsWith(p)], [s.endsWith(p)] and [s.substring(n)]. *)
Definition startsWith (s p : string) : bool := String.prefix p s.

Definition endsWith (s p : string) : bool :=
  String.prefix (text (rev (chars p))) (text (rev (chars s))).

Definition substring_from (n : nat) (s : string) : string :=
  substring n (String.length s - n) s.

(** The decimal digits of [n], most significant first, before [acc]. *)
Fixpoint decimal_digits (fuel : nat) (n : Z) (acc : string) : string :=
  match fuel with
  | O => acc
  | S k =>
      let acc := String (char_of (48 + n mod 10)) acc in
      if n <? 10 then acc else decimal_digits k (n / 10) acc
  end.

(** The text of an integer in a template literal (below 10^21 in
    magnitude, where the text has no exponent). *)
Definition Number_toString (n : Z) : string :=
  let digits m := decimal_digits (S (Z.to_nat (Z.log2 m))) m EmptyString in
  if n <? 0 then String "-" (digits (- n)) else digits n.

Module Requests.

(** *** The pattern [/^Bearer\s+(.+)$/i]

    Among the code units below 256, [\s] holds the white space and the
    line terminators listed here, and [.] everything but the two line
    terminators. *)
Definition is_regex_space (c : ascii) : bool :=
  let n := code c in
  (n =? 9) || (n =? 10) || (n =? 11) || (n =? 12) || (n =? 13) || (n =? 32)
  || (n =? 160).

Definition is_line_terminator (c : ascii) : bool :=
  let n := code c in (n =? 10) || (n =? 13).

(** Canonicalize of ECMA-262 for the flag [i] without the flag [u]: the
    code unit of the upper-case form of the character, when that form is
    one code unit.  (The micro sign and the y with diaeresis have their
    upper-case forms above 255; the sharp s has one of two code units and
    stays.) *)
Definition Canonicalize (c : ascii) : Z :=
  let n := code c in
  if (97 <=? n) && (n <=? 122) then n - 32
  else if (224 <=? n) && (n <=? 254) && negb (n =? 247) then n - 32
  else if n =? 255 then 376
  else if n =? 181 then 924
  else n.

(** [(.+)$]: what is left of the input, when it is not empty and holds no
    line terminator. *)
Definition match_capture (input : list ascii) : option (list ascii) :=
  match input with
  | [] => None
  | _ :: _ =>
      if forallb (fun c => negb (is_line_terminator c)) input
      then Some input else None
  end.

(** [\s+(.+)$]: the quantifier is greedy, so after one space the matcher
    first tries to take another, and falls back to the capture when that
    fails. *)
Fixpoint match_spaces (input : list ascii) : option (list ascii) :=
  match input with
  | c :: rest =>
      if is_regex_space c
      then match match_spaces rest with
           | Some capture => Some capture
           | None => match_capture rest
           end
      else None
  | [] => None
  end.

(** [^Bearer] under the flag [i]: what follows the word in the input. *)
Fixpoint match_literal (pattern input : list ascii) : option (list ascii) :=
  match pattern, input with
  | [], _ => Some input
  | p :: pattern', c :: input' =>
      if Canonicalize c =? Canonicalize p
      then match_literal pattern' input' else None
  | _ :: _, [] => None
  end.

Definition extractBearerToken (authHeader : string) : option string :=
  match match_literal (chars "Bearer") (chars authHeader) with
  | Some rest =>
      match match_spaces rest with
      | Some capture => Some (text capture)
      | None => None
      end
  | None => None
  end.

Definition getAbbreviatedPath `{UrlHost} (url : string) : string :=
  match URL_parse url with
  | Some urlObj =>
      let path := pathname urlObj in
      let path := if startsWith path "/" then substring_from 1 path
                  else path in
      let path :=
        if endsWith path "/"
        then substring 0 (String.length path - 1) path else path in
      if negb (String.eqb path EmptyString) then path else hostname urlObj
  | None => url
  end.

(** [random36] is the text that [Math.random().toString(36)] returned. *)
Definition generateRequestId (now : Z) (random36 : string) : string :=
  "req_" +:+ Number_toString now +:+ "_" +:+ substring 2 7 random36.

End Requests.

(** ** src/background/background.ts: the listener

    [handleRequest] runs on every request the browser is about to send.
    [details] is what the browser passes: the URL, the method and, when
    the listener asked for them, the request headers, each a name and a
    value that may be missing. *)

Record HttpHeader : Type := mkHeader {
  header_name : string;
  header_value : option string;
}.

Record WebRequestHeadersDetails : Type := mkDetails {
  details_url : string;
  details_method : string;
  requestHeaders : option (list HttpHeader);
}.

(** [s.toLowerCase()] on code units below 256: the letters of ASCII and
    of Latin-1 (the multiplication sign lies between the latter). *)
Definition toLowerCase_char (c : ascii) : ascii :=
  let n := code c in
  if ((65 <=? n) && (n <=? 90))
     || ((192 <=? n) && (n <=? 222) && negb (n =? 215))
  then char_of (n + 32) else c.

Fixpoint toLowerCase (s : string) : string :=
  match s with
  | EmptyString => EmptyString
  | String c rest => String (toLowerCase_char c) (toLowerCase rest)
  end.

Module Listener.

Section WithHost.
Context `{Host} `{UrlHost}.

(** [details.requestHeaders?.find(...)] *)
Definition authorizationHeader (details : WebRequestHeadersDetails)
  : option HttpHeader :=
  match requestHeaders details with
  | Some headers =>
      List.find (fun header =>
                   String.eqb (toLowerCase (header_name header))
                     "authorization")
                headers
  | None => None
  end.

(** [handleRequest], from the storage it finds to the storage it leaves:
    when it returns early it does not touch the storage. *)
Definition handleRequest (now : Z) (random36 : string)
  (details : WebRequestHeadersDetails) (storage : ExtensionStorage)
  : ExtensionStorage :=
  match authorizationHeader details with
  | Some authHeader =>
      match header_value authHeader with
      | Some value =>
          if String.eqb value EmptyString then storage
          else
            match Requests.extractBearerToken value with
            | Some bearerToken =>
                if String.eqb bearerToken EmptyString then storage
                else
                  let requestInfo :=
                    mkRequestInfo (Requests.generateRequestId now random36)
                      (details_url details) (details_method details)
                      (Requests.getAbbreviatedPath (details_url details))
                      (Date_of_number now) in
                  Background.storeTokenData now bearerToken requestInfo
                    storage
            | None => storage
            end
      | None => storage
      end
  | None => storage
  end.

End WithHost.

End Listener.

(** ** src/popup/popup.ts: what the popup shows

    [renderTokens], [createTokenElement] and [renderRequests] build
    markup; their models return what the markup holds, in its order: for
    each group its identity, its badge, the text after "Expires:", the
    credential behind the copy button and a row for each request.  The
    formatting of a valid date into text belongs to the host
    ([Intl.DateTimeFormat]); the models return the date. *)

Module PopupView.

Inductive ExpiryText : Type :=
| NoExpiry                        (* "No expiry" *)
| FormattedDate (d : JsDate).     (* [this.formatDate(d)], [d] valid *)

Record RequestRow : Type := mkRow {
  row_method : string;
  row_path : string;
  row_time : JsDate;
}.

Inductive RequestsView : Type :=
| NoRequests
| RequestRows (rows : list RequestRow).

Record TokenView : Type := mkTokenView {
  view_tokenId : string;
  statusText : string;
  expiryText : ExpiryText;
  copyToken : string;
  requestsView : RequestsView;
}.

Inductive TokensView : Type :=
| EmptyState
| TokenElements (elements : list TokenView).

(** [a || b] on strings. *)
Definition or_string (a b : string) : string :=
  if negb (String.eqb a EmptyString) then a else b.

Section WithHost.
Context `{Host}.

(** [(a, b) => new Date(b.timestamp).getTime()
               - new Date(a.timestamp).getTime()] *)
Definition by_timestamp (a b : RequestInfo) : option Z :=
  num_sub (getTime (new_Date (RawDate (timestamp b))))
          (getTime (new_Date (RawDate (timestamp a)))).

Definition renderRequests (requests : list RequestInfo) : RequestsView :=
  if len requests =? 0 then NoRequests
  else
    let sortedRequests := Array_sort by_timestamp requests in
    RequestRows
      (map (fun request : RequestInfo =>
              mkRow (method request)
                (or_string (abbreviatedPath request) (url request))
                (timestamp request))
           sortedRequests).

Definition createTokenElement (group : JWTTokenGroup) : TokenView :=
  let expiryText :=
    match expiryDate group with
    | Some d =>
        if negb (isNaN (getTime d)) then Some (FormattedDate d) else None
    | None => None
    end in
  let expiryText :=
    match expiryText with
    | Some shown => shown
    | None =>
        if truthy (payload group) && is_number (prop (payload group) "exp")
        then
          let expDate :=
            Date_of_number (to_number (prop (payload group) "exp") * 1000) in
          if negb (isNaN (getTime expDate)) then FormattedDate expDate
          else NoExpiry
        else NoExpiry
    end in
  let statusText := if isExpired group then "Expired" else "Valid" in
  let tokenId := or_string (tokenId group) "unknown" in
  mkTokenView tokenId statusText expiryText
    (or_string (raw group) EmptyString) (renderRequests (requests group)).

(** [(a, b) => new Date(b.lastSeen).getTime()
               - new Date(a.lastSeen).getTime()] *)
Definition by_lastSeen (a b : JWTTokenGroup) : option Z :=
  num_sub (getTime (new_Date (RawDate (lastSeen b))))
          (getTime (new_Date (RawDate (lastSeen a)))).

Definition renderTokens (tokenGroups : list JWTTokenGroup) : TokensView :=
  if len tokenGroups =? 0 then EmptyState
  else
    let sortedGroups := Array_sort by_lastSeen tokenGroups in
    TokenElements (map createTokenElement sortedGroups).

(** [loadTokens]: the snapshot loaded, then rendered. *)
Definition loadTokens (now : Z) (data : option RawStorage) : TokensView :=
  let storage := Popup.getStorage now data in
  renderTokens (tokenGroups storage).

End WithHost.

End PopupView.

(** ** A reference URL parser

    An implementation of [new URL] for URLs of the form
    scheme://host[:port][/path][?query][#fragment], used to run the
    listener on concrete requests. *)

Module ReferenceURL.

Definition is_path_end (c : ascii) : bool :=
  (code c =? 63) || (code c =? 35).

Definition is_host_end (c : ascii) : bool :=
  (code c =? 47) || (code c =? 58) || is_path_end c.

Definition is_scheme_char (c : ascii) : bool :=
  let n := code c in
  ((97 <=? n) && (n <=? 122)) || ((65 <=? n) && (n <=? 90))
  || ((48 <=? n) && (n <=? 57)) || (n =? 43) || (n =? 45) || (n =? 46).

(** The longest prefix of characters outside [stop], and the rest. *)
Fixpoint span_until (stop : ascii -> bool) (l : list ascii)
  : list ascii * list ascii :=
  match l with
  | c :: rest =>
      if stop c then ([], l)
      else let '(a, b) := span_until stop rest in (c :: a, b)
  | [] => ([], [])
  end.

Definition URL_parse (url : string) : option URL :=
  let '(scheme, rest) :=
    span_until (fun c => negb (is_scheme_char c)) (chars url) in
  match scheme, rest with
  | _ :: _, c1 :: c2 :: c3 :: rest =>
      if (code c1 =? 58) && (code c2 =? 47) && (code c3 =? 47) then
        let '(host, rest) := span_until is_host_end rest in
        let '(_, rest) := span_until (fun c => (code c =? 47) || is_path_end c)
                            rest in
        let '(path, _) := span_until is_path_end rest in
        match host with
        | [] => None
        | _ :: _ =>
            Some (mkURL (match path with [] => "/" | _ :: _ => text path end)
                    (toLowerCase (text host)))
        end
      else None
  | _, _ => None
  end.

End ReferenceURL.

Definition ReferenceUrlHost : UrlHost :=
  {| URL_parse := ReferenceURL.URL_parse |}.

(** ** Vocabulary of the statements *)

(** The identity digest: the first sixteen hexadecimal digits of the
    SHA-256 of a text. *)
Definition digest16 (s : string) : string :=
  substring 0 16 (hex_string (SHA256.digest (utf8_encode s))).

(** Every character. *)
Definition all_chars : list ascii := map ascii_of_nat (seq 0 256).

(** The first character of a UTF-8 text of code units below 256, and the
    rest of the text. *)
Definition utf8_first (bytes : list Z) : option (ascii * list Z) :=
  match bytes with
  | b :: rest =>
      if b <? 128 then Some (char_of b, rest)
      else match rest with
           | b' :: rest' =>
               Some (char_of ((b - 192) * 64 + (b' - 128)), rest')
           | [] => None
           end
  | [] => None
  end.

(** The two hexadecimal digits of a byte. *)
Definition hex_pair (b : Z) : list ascii :=
  [hex_digit (b / 16); hex_digit (b mod 16)].

(** Two credentials, found by search, that differ in their signature
    segments only and have one identity. *)
Definition collision_token_1 : string := "e30.e30.4f4bde452bfe07aa".
Definition collision_token_2 : string := "e30.e30.8a524b7fc21d53ea".

(** A credential with header [h], payload segment [p] and signature [s]. *)
Definition credential (h p s : string) : string :=
  h +:+ "." +:+ p +:+ "." +:+ s.

Definition no_dot (s : string) : Prop := ~ In "."%char (chars s).

(** The instant at which a request was observed, the requests for which
    it is defined, and the order that puts the newer request first. *)
Definition observedAt (r : RequestInfo) : Z :=
  default 0 (getTime (timestamp r)).

Definition valid_request (r : RequestInfo) : Prop :=
  getTime (timestamp r) = Some (observedAt r).

Definition newer_or_equal (a b : RequestInfo) : Prop :=
  observedAt b <= observedAt a.

(** The greatest instant of observation in a list of requests. *)
Definition max_observedAt (rs : list RequestInfo) : option Z :=
  foldr (fun r acc =>
           match acc with
           | Some m => Some (Z.max (observedAt r) m)
           | None => Some (observedAt r)
           end) None rs.

(** The request list of a group after one more request: what
    [updateExistingGroup] leaves in [requests]. *)
Definition appended (r : RequestInfo) (rs : list RequestInfo)
  : list RequestInfo :=
  let l := rs ++ [r] in
  if 50 <? len l then slice0 50 (Array_sort newest_first l) else l.

(** The index before anything was stored. *)
Definition emptyIndex : ExtensionStorage :=
  mkStorage [] (Some Background.MAX_TOKEN_GROUPS)
    (Some Background.RETENTION_HOURS).

(** An intercepted request that carries a credential, at the instant the
    index handles it; a run of upserts. *)
Record Event : Type := mkEvent {
  ev_now : Z;
  ev_token : string;
  ev_request : RequestInfo;
}.

Definition upsert `{Host} (st : ExtensionStorage) (e : Event)
  : ExtensionStorage :=
  Background.storeTokenData (ev_now e) (ev_token e) (ev_request e) st.

Definition upserts `{Host} (events : list Event) (st : ExtensionStorage)
  : ExtensionStorage :=
  fold_left upsert events st.

(** The position of the group of a credential in the index, as
    [storeTokenData] looks it up. *)
Definition groupIndex (token : string) (st : ExtensionStorage) : Z :=
  findIndex (fun group : JWTTokenGroup =>
               String.eqb (tokenId group) (JWTUtils.generateTokenId token))
            (tokenGroups st).

(** Sample data: a credential whose header and payload are the empty
    object, the same payload and signature under an undecodable (empty)
    header, and requests observed at given instants. *)
Definition sample_token : string := "e30.e30.s".
Definition sample_undecodable : string := ".e30.s".

Definition sample_request (t : Z) : RequestInfo :=
  mkRequestInfo "req" "https://api.example.com/v1/users/1" "GET"
    "v1/users/1" (mkDate (Some t)).

(** [n] requests with [token], observed at the instants 1 to [n]. *)
Definition sample_events (token : string) (n : nat) : list Event :=
  map (fun k : nat =>
         mkEvent (Z.of_nat k) token (sample_request (Z.of_nat k)))
      (seq 1 n).

(** The index after fifty requests with the sample credential. *)
Definition sample_index_50 : ExtensionStorage :=
  Eval vm_compute in
    upserts (H:=ReferenceHost) (sample_events sample_token 50) emptyIndex.

(** The index after one request with the sample credential, observed at
    the instant 2000. *)
Definition sample_index_1 : ExtensionStorage :=
  Eval vm_compute in
    Background.storeTokenData (H:=ReferenceHost) 2000 sample_token
      (sample_request 2000) emptyIndex.

(** The cut-off instants of the two sweeps: twenty-four hours and two
    hours before [now]. *)
Definition cutoff24 (now : Z) : Z :=
  now - Background.RETENTION_HOURS * 60 * 60 * 1000.

Definition cutoff2 (now : Z) : Z :=
  now - BackgroundAggressive.RETENTION_HOURS * 60 * 60 * 1000.

(** A group whose credential expired at the instant 1000 s and that was
    used one minute before the instant 10^12 ms. *)
Definition sample_expired_group : JWTTokenGroup :=
  mkTokenGroup "0123456789abcdef" "h.p.s" (JObj [])
    (JObj [("exp", JNum 1000)]) "s" (Some (mkDate (Some 1000000))) true
    [sample_request 999999940000] (mkDate (Some 999999000000))
    (mkDate (Some 999999940000)) true.

(** A group whose credential never expires and that has been idle for
    ten days at the instant 10^12 ms. *)
Definition sample_idle_group : JWTTokenGroup :=
  mkTokenGroup "fedcba9876543210" "h.q.s" (JObj []) (JObj []) "s" None false
    [sample_request 999136000000] (mkDate (Some 999136000000))
    (mkDate (Some 999136000000)) true.

(** The identities that a run of events carries, and the groups that the
    events create when each of them meets no group of its identity. *)
Definition identities (events : list Event) : list string :=
  map (fun e => JWTUtils.generateTokenId (ev_token e)) events.

Definition newGroups `{Host} (events : list Event) : list JWTTokenGroup :=
  omap (fun e => JWTUtils.createTokenGroup (ev_now e) (ev_token e)
                   (ev_request e)) events.

(** Credentials that differ in their signature segment: the [k]-th has a
    signature of [k] letters.  [n] events, the [k]-th with the [k]-th of
    these credentials. *)
Definition numbered_token (k : nat) : string :=
  credential "e30" "e30" (repeat_char "s" k).

Definition numbered_events (n : nat) : list Event :=
  map (fun k : nat =>
         mkEvent (Z.of_nat k) (numbered_token k) (sample_request (Z.of_nat k)))
      (seq 1 n).

(** The request list of a group after a run of further requests. *)
Definition appended_all (rs : list RequestInfo) (reqs : list RequestInfo)
  : list RequestInfo :=
  fold_left (fun rs r => appended r rs) reqs rs.

(** [kept] holds requests observed no earlier than any of [dropped]. *)
Definition most_recent (kept dropped : list RequestInfo) : Prop :=
  forall k d, In k kept -> In d dropped -> observedAt d <= observedAt k.

(** A persisted group, and the snapshot that holds it, whose instants are
    all the text "not-a-date". *)
Definition sample_corrupt_group : RawGroup :=
  mkTokenGroup "0123456789abcdef" sample_token (JObj []) (JObj []) "s"
    (RawString "not-a-date") false
    [mkRequestInfo "req" "https://api.example.com/v1/users/1" "GET"
       "v1/users/1" (RawString "not-a-date")]
    (RawString "not-a-date") (RawString "not-a-date") true.

Definition sample_corrupt_snapshot : RawStorage :=
  mkStorage [sample_corrupt_group] (Some 100) (Some 24).

(** A date that is valid. *)
Definition valid_date (d : JsDate) : Prop := exists t, getTime d = Some t.

(** A character that base64 text cannot hold: it is in neither alphabet,
    and it is neither white space nor the padding sign. *)
Definition foreign_char (c : ascii) : bool :=
  negb (is_ascii_whitespace c) && negb (Ascii.eqb c "=")
  && negb (Ascii.eqb c "-") && negb (Ascii.eqb c "_")
  && match b64_value c with Some _ => false | None => true end.

(** The credential of the scenarios of the specification: algorithm
    HS256, subject u1, expiry in the year 2286. *)
Definition scenario_token : string :=
  "eyJhbGciOiJIUzI1NiIsInR5cCI6IkpXVCJ9.eyJzdWIiOiJ1MSIsImV4cCI6OTk5OTk5OTk5OX0.sig".

(** A lower-case hexadecimal digit. *)
Definition is_hex_digit (c : ascii) : bool :=
  let n := code c in
  ((48 <=? n) && (n <=? 57)) || ((97 <=? n) && (n <=? 102)).

(** The characters of a text all satisfy [p]; a text that begins with a
    character of the class [\s]. *)
Definition all_of (p : ascii -> bool) (s : string) : bool :=
  forallb p (chars s).

Definition starts_with_space (s : string) : bool :=
  match s with
  | String c _ => Requests.is_regex_space c
  | EmptyString => false
  end.

Definition not_line_terminator (c : ascii) : bool :=
  negb (Requests.is_line_terminator c).

(** A header whose name is Authorization in some letter case, and the
    record that [handleRequest] builds for a request. *)
Definition is_authorization (h : HttpHeader) : bool :=
  String.eqb (toLowerCase (header_name h)) "authorization".

Definition requestInfoOf `{UrlHost} (now : Z) (random36 : string)
  (details : WebRequestHeadersDetails) : RequestInfo :=
  mkRequestInfo (Requests.generateRequestId now random36)
    (details_url details) (details_method details)
    (Requests.getAbbreviatedPath (details_url details))
    (Date_of_number now).

(** Sample requests: one that carries the credential of the scenarios
    after another header, and one with credentials of another scheme. *)
Definition sample_details : WebRequestHeadersDetails :=
  mkDetails "https://api.example.com/v1/users/1?expand=all" "GET"
    (Some [mkHeader "Accept" (Some "application/json");
           mkHeader "AUTHORIZATION" (Some ("Bearer " +:+ scenario_token))]).

Definition sample_details_basic : WebRequestHeadersDetails :=
  mkDetails "https://api.example.com/v1/users/1" "GET"
    (Some [mkHeader "Authorization" (Some "Basic dTE6cHc=")]).

(** The base64url encoding without padding, which a credential uses for
    its header and payload segments (RFC 7515, RFC 4648 section 5): the
    character of a sextet, the sextets of a byte string, the encoding of a
    text of bytes. *)
Definition base64url_char (v : Z) : ascii :=
  if v <? 26 then char_of (v + 65)
  else if v <? 52 then char_of (v + 71)
  else if v <? 62 then char_of (v - 4)
  else if v =? 62 then "-"%char
  else "_"%char.

Fixpoint sextets (bytes : list Z) : list Z :=
  match bytes with
  | a :: b :: c :: rest =>
      a / 4 :: a mod 4 * 16 + b / 16 :: b mod 16 * 4 + c / 64 :: c mod 64
        :: sextets rest
  | [a; b] => [a / 4; a mod 4 * 16 + b / 16; b mod 16 * 4]
  | [a] => [a / 4; a mod 4 * 16]
  | [] => []
  end.

Definition base64url_encode (s : string) : string :=
  text (map base64url_char (sextets (map code (chars s)))).

(** The same encoding with its padding signs. *)
Definition base64url_encode_padded (s : string) : string :=
  let encoded := base64url_encode s in
  encoded
  +:+ repeat_char "=" (Z.to_nat ((4 - strlen encoded mod 4) mod 4)).

(** The character of a sextet after the translation of the URL-safe
    alphabet: it is no white space and no padding sign, and its value is
    the sextet. *)
Definition translated (v : Z) : ascii :=
  let c := base64url_char v in
  let c := if Ascii.eqb c "-" then "+"%char else c in
  if Ascii.eqb c "_" then "/"%char else c.


(** The header and payload texts of the credential of the scenarios
    ([quoted s] is [s] between quotation marks). *)
Definition quoted (s : string) : string :=
  String (char_of 34) s +:+ String (char_of 34) EmptyString.

Definition scenario_header_text : string :=
  "{" +:+ quoted "alg" +:+ ":" +:+ quoted "HS256" +:+ ","
  +:+ quoted "typ" +:+ ":" +:+ quoted "JWT" +:+ "}".

Definition scenario_payload_text : string :=
  "{" +:+ quoted "sub" +:+ ":" +:+ quoted "u1" +:+ ","
  +:+ quoted "exp" +:+ ":9999999999}".

(** The retention sweep of either script, and its cut-off instant. *)
Inductive Script : Type := FirstScript | SecondScript.

Definition sweep (script : Script) (now : Z) (st : ExtensionStorage)
  : ExtensionStorage :=
  match script with
  | FirstScript => Background.cleanupOldData now st
  | SecondScript => BackgroundAggressive.cleanupOldData now st
  end.

Definition cutoff (script : Script) (now : Z) : Z :=
  match script with
  | FirstScript => cutoff24 now
  | SecondScript => cutoff2 now
  end.

(** [g'] is the group [g] but for its request list and its expiry flag. *)
Definition same_credential (g g' : JWTTokenGroup) : Prop :=
  tokenId g' = tokenId g /\ raw g' = raw g /\ header g' = header g
  /\ payload g' = payload g /\ signature g' = signature g
  /\ expiryDate g' = expiryDate g /\ firstSeen g' = firstSeen g
  /\ isValid g' = isValid g.

(** A request observed after the instant [t]. *)
Definition observed_after (t : Z) (r : RequestInfo) : Prop :=
  exists t', getTime (timestamp r) = Some t' /\ t < t'.

(** The snapshot of an index under a serialization [ser] of its instants
    (an absent expiry is saved as [null]), and the instants that an index
    holds. *)
Definition savedWith (ser : JsDate -> RawTime) (st : ExtensionStorage)
  : RawStorage :=
  with_tokenGroups
    (map (fun g : JWTTokenGroup =>
            mkTokenGroup (tokenId g) (raw g) (header g) (payload g)
              (signature g)
              (match expiryDate g with Some d => ser d | None => RawNull end)
              (isExpired g)
              (map (fun r : RequestInfo => with_timestamp (ser (timestamp r)) r)
                 (requests g))
              (ser (firstSeen g)) (ser (lastSeen g)) (isValid g))
         (tokenGroups st))
    st.

Definition group_instants (g : JWTTokenGroup) : list JsDate :=
  firstSeen g :: lastSeen g
    :: match expiryDate g with Some d => [d] | None => [] end
    ++ map timestamp (requests g).

(** The serialization of an instant as its number of milliseconds. *)
Definition milliseconds (d : JsDate) : RawTime :=
  match getTime d with Some t => RawNumber t | None => RawUndefined end.

(** A persisted instant that is present and parses, as a test. *)
Definition usable `{Host} (v : RawTime) : bool :=
  raw_truthy v && negb (isNaN (getTime (new_Date v))).

(** A persisted instant that is present and parses; a persisted group
    whose instants do, but for an expiry that may be absent. *)
Definition parses `{Host} (v : RawTime) : Prop :=
  raw_truthy v = true /\ valid_date (new_Date v).

Definition well_stored `{Host} (group : RawGroup) : Prop :=
  parses (firstSeen group) /\ parses (lastSeen group)
  /\ Forall (fun req : RawRequest => parses (timestamp req)) (requests group)
  /\ (raw_truthy (expiryDate group) = true ->
      valid_date (new_Date (expiryDate group))).

(** A persisted group with instants of three kinds: a number, a text and
    a [Date]. *)
Definition sample_stored_group : RawGroup :=
  mkTokenGroup "0123456789abcdef" sample_token (JObj []) (JObj []) "s"
    RawNull false
    [mkRequestInfo "req" "https://api.example.com/v1/users/1" "GET"
       "v1/users/1" (RawString "2026-11-03T10:41:00.123Z")]
    (RawNumber 1793668860123) (RawDate (mkDate (Some 1793668860123))) true.

(** The instant at which a group was last seen, and the row that the
    popup shows for a request. *)
Definition seenAt (g : JWTTokenGroup) : Z :=
  default 0 (getTime (lastSeen g)).

Definition requestRow (request : RequestInfo) : PopupView.RequestRow :=
  PopupView.mkRow (method request)
    (PopupView.or_string (abbreviatedPath request) (url request))
    (timestamp request).

(** A persisted group whose credential expired at the instant 1000 s, with
    two requests stored oldest first, and a snapshot that holds it after a
    group seen earlier. *)
Definition sample_stored_expired : RawGroup :=
  mkTokenGroup "fedcba9876543210" "h.p.s" (JObj [])
    (JObj [("exp", JNum 1000)]) "s" (RawNumber 1000000) false
    [mkRequestInfo "req1" "https://api.example.com/v1/users/1" "GET"
       "v1/users/1" (RawNumber 1793668860123);
     mkRequestInfo "req2" "https://api.example.com/" "POST"
       EmptyString (RawNumber 1793668865000)]
    (RawNumber 1793668860123) (RawNumber 1793668865000) true.

Definition sample_snapshot : RawStorage :=
  mkStorage [sample_stored_group; sample_stored_expired] (Some 100) (Some 24).

(** A decimal digit, and the number that a text of digits denotes. *)
Definition is_decimal_digit (c : ascii) : bool :=
  (48 <=? code c) && (code c <=? 57).

Definition decimal_value (ds : list ascii) : Z :=
  fold_left (fun acc c => 10 * acc + (code c - 48)) ds 0.

(** A request with two headers named Authorization, of which only the
    second carries a Bearer credential. *)
Definition sample_details_second_bearer : WebRequestHeadersDetails :=
  mkDetails "https://api.example.com/v1/users/1" "GET"
    (Some [mkHeader "Authorization" (Some "Basic dTE6cHc=");
           mkHeader "Authorization" (Some ("Bearer " +:+ scenario_token))]).

(** The identity of the sample credential: sixteen digits, a text that
    is no credential. *)
Definition sample_identity : string :=
  Eval vm_compute in JWTUtils.generateTokenId sample_token.

(** The credential that [handleRequest] extracts from a request, if
    any: without one it returns before it touches the storage area. *)
Definition bearerOf (details : WebRequestHeadersDetails) : option string :=
  match Listener.authorizationHeader details with
  | Some authHeader =>
      match header_value authHeader with
      | Some value =>
          if String.eqb value EmptyString then None
          else
            match Requests.extractBearerToken value with
            | Some bearerToken =>
                if String.eqb bearerToken EmptyString then None
                else Some bearerToken
            | None => None
            end
      | None => None
      end
  | None => None
  end.

(** What the extension does to the index: it handles a request that the
    browser is about to send, or it sweeps.  Each operation that changes
    the index loads it from the storage area with [getStorage] and saves
    it there; [ser] is what the storage area makes of an instant.  The
    state between operations is the snapshot in the storage area, [None]
    before the first save. *)
Inductive Operation : Type :=
| Intercept (now : Z) (random36 : string)
    (details : WebRequestHeadersDetails)
| Sweep (script : Script) (now : Z).

Definition step `{Host} `{UrlHost} (ser : JsDate -> RawTime)
  (data : option RawStorage) (op : Operation) : option RawStorage :=
  match op with
  | Intercept now random36 details =>
      match bearerOf details with
      | Some _ =>
          Some (savedWith ser
                  (Listener.handleRequest now random36 details
                     (Background.getStorage data)))
      | None => data
      end
  | Sweep script now =>
      Some (savedWith ser (sweep script now (Background.getStorage data)))
  end.

Definition run `{Host} `{UrlHost} (ser : JsDate -> RawTime)
  (ops : list Operation) (data : option RawStorage) : option RawStorage :=
  fold_left (step ser) ops data.

(** A group after it was saved and loaded again. *)
Definition reloaded `{Host} (ser : JsDate -> RawTime) (g : JWTTokenGroup)
  : JWTTokenGroup :=
  mkTokenGroup (tokenId g) (raw g) (header g) (payload g) (signature g)
    (match expiryDate g with
     | Some d => if raw_truthy (ser d) then Some (new_Date (ser d)) else None
     | None => None
     end)
    (isExpired g)
    (map (fun r : RequestInfo => with_timestamp (new_Date (ser (timestamp r))) r)
       (requests g))
    (new_Date (ser (firstSeen g))) (new_Date (ser (lastSeen g))) (isValid g).

(** A group that agrees with its credential: its identity is the one of
    the credential, and its header, payload and signature are what the
    credential decodes to; and it holds at most fifty requests. *)
Definition well_formed_group `{Host} (g : JWTTokenGroup) : Prop :=
  tokenId g = JWTUtils.generateTokenId (raw g)
  /\ JWTUtils.parseJWT (raw g)
     = Some (JWTUtils.mkParsed (header g) (payload g) (signature g))
  /\ isValid g = true
  /\ (length (requests g) <= 50)%nat.

Definition index_invariant `{Host} (st : ExtensionStorage) : Prop :=
  NoDup (map tokenId (tokenGroups st))
  /\ (length (tokenGroups st) <= 100)%nat
  /\ Forall well_formed_group (tokenGroups st).

(** The expiry of a group is the one of its payload, or it is absent
    because the storage area saved that expiry as a falsy value. *)
Definition expiry_kept (ser : JsDate -> RawTime) (g : JWTTokenGroup) : Prop :=
  expiryDate g = JWTUtils.getExpiryDate (payload g)
  \/ (expiryDate g = None
      /\ exists d, JWTUtils.getExpiryDate (payload g) = Some d
                   /\ raw_truthy (ser d) = false).

(** A credential whose payload says that it expired at the epoch, and a
    request that carries it. *)
Definition epoch_token : string := "e30.eyJleHAiOjB9.s".

Definition epoch_details : WebRequestHeadersDetails :=
  mkDetails "https://api.example.com/v1/users/1" "GET"
    (Some [mkHeader "Authorization" (Some ("Bearer " +:+ epoch_token))]).

(** * Sanity checks of the embedding *)

Example split_dot_three : split_dot "a.b." = ["a"; "b"; ""].
Proof. reflexivity. Qed.

Example atob_braces : atob "e30=" = Ok "{}".
Proof. vm_compute. reflexivity. Qed.

Example atob_bad : atob "a=" = Throw InvalidCharacterError.
Proof. vm_compute. reflexivity. Qed.

Example sha256_abc :
  hex_string (SHA256.digest (utf8_encode "abc"))
  = "ba7816bf8f01cfea414140de5dae2223b00361a396177a9cb410ff61f20015ad".
Proof. vm_compute. reflexivity. Qed.

Example sha256_empty :
  hex_string (SHA256.digest (utf8_encode ""))
  = "e3b0c44298fc1c149afbf4c8996fb92427ae41e4649b934ca495991b7852b855".
Proof. vm_compute. reflexivity. Qed.

Example sha256_two_blocks :
  hex_string (SHA256.digest (utf8_encode
    "abcdbcdecdefdefgefghfghighijhijkijkljklmklmnlmnomnopnopq"))
  = "248d6a61d20638b8e5c026930c3e6039a33ce45964ff2167f6ecedd419db06c1".
Proof. vm_compute. reflexivity. Qed.

Example date_parse_iso :
  Reference.Date_parse "2026-11-03T01:21:00.123Z" = Some 1793668860123.
Proof. vm_compute. reflexivity. Qed.

Example date_parse_epoch :
  Reference.Date_parse "1970-01-01T00:00:00.000Z" = Some 0.
Proof. vm_compute. reflexivity. Qed.

Example parse_scenario :
  JWTUtils.parseJWT (H:=ReferenceHost)
    scenario_token
  = Some (JWTUtils.mkParsed
            (JObj [("alg", JStr "HS256"); ("typ", JStr "JWT")])
            (JObj [("sub", JStr "u1"); ("exp", JNum 9999999999)])
            "sig").
Proof. vm_compute. reflexivity. Qed.

(** * Properties *)

(** ** The codec: expiry *)

Lemma getExpiryDate_valid payload d :
  JWTUtils.getExpiryDate payload = Some d -> exists t, d = mkDate (Some t).
Proof.
  unfold JWTUtils.getExpiryDate.
  destruct (negb (truthy payload) || negb (is_number (prop payload "exp")));
    [discriminate |].
  destruct (Date_of_number _) as [[t |]] eqn:E; simpl; [| discriminate].
  intros [= <-]. eauto.
Qed.

(** C6, as the claim states it, fails at a numeric [exp] beyond the range
    of [Date]: [exp] is a number, and yet no expiry instant is returned. *)
Lemma getExpiryDate_number_out_of_range :
  is_number (prop (JObj [("exp", JNum 10000000000000)]) "exp") = true
  /\ JWTUtils.getExpiryDate (JObj [("exp", JNum 10000000000000)]) = None.
Proof. split; reflexivity. Qed.

(** C6 (amended).  The expiry instant of a payload is absent when [exp] is
    missing or not a number, and also when [exp] is a number whose instant
    [exp * 1000] ms falls outside the range of [Date]; otherwise it is the
    instant [exp] seconds after the epoch.  A payload without expiry
    instant is never expired; one with expiry instant [t] is expired exactly
    when [t < now], so a credential that expires now is not expired. *)
Theorem expiry_of_payload (payload : JsValue) (now : Z) :
  (is_number (prop payload "exp") = false ->
     JWTUtils.getExpiryDate payload = None)
  /\ (forall exp, prop payload "exp" = JNum exp ->
        JWTUtils.getExpiryDate payload =
          if Z.abs (exp * 1000) <=? MAX_TIME
          then Some (mkDate (Some (exp * 1000))) else None)
  /\ (JWTUtils.getExpiryDate payload = None ->
        JWTUtils.isTokenExpired now payload = false)
  /\ (forall t, JWTUtils.getExpiryDate payload = Some (mkDate (Some t)) ->
        (JWTUtils.isTokenExpired now payload = true <-> t < now)
        /\ (t = now -> JWTUtils.isTokenExpired now payload = false)).
Proof.
  split; [| split; [| split]].
  - intros Hn. unfold JWTUtils.getExpiryDate. rewrite Hn.
    now rewrite orb_true_r.
  - intros exp Hexp. unfold JWTUtils.getExpiryDate. rewrite Hexp.
    destruct payload; try discriminate. simpl.
    unfold Date_of_number, TimeClip.
    now destruct (Z.abs (exp * 1000) <=? MAX_TIME).
  - intros Hd. unfold JWTUtils.isTokenExpired. now rewrite Hd.
  - intros t Ht. unfold JWTUtils.isTokenExpired. rewrite Ht. simpl. split.
    + apply Z.ltb_lt.
    + intros ->. apply Z.ltb_irrefl.
Qed.

(** The amended C6 at the payload of the scenario of section 8. *)
Lemma expiry_of_payload_witness :
  JWTUtils.getExpiryDate (JObj [("sub", JStr "u1"); ("exp", JNum 9999999999)])
  = Some (mkDate (Some 9999999999000))
  /\ JWTUtils.isTokenExpired 1793668860123
       (JObj [("sub", JStr "u1"); ("exp", JNum 9999999999)]) = false.
Proof.
  pose proof (expiry_of_payload
    (JObj [("sub", JStr "u1"); ("exp", JNum 9999999999)]) 1793668860123)
    as (_ & Hnum & _ & Hexp).
  specialize (Hnum 9999999999 eq_refl). split; [exact Hnum |].
  destruct (Hexp 9999999999000 Hnum) as [Hiff _].
  destruct (JWTUtils.isTokenExpired _ _); [| reflexivity].
  exfalso. assert (9999999999000 < 1793668860123) by now apply Hiff. lia.
Defined.

(** ** The codec: decoding *)

Lemma Result_bind_Throw {A B} (r : Result A) (k : A -> Result B) e :
  r ≫= k = Throw e <->
  r = Throw e \/ exists v, r = Ok v /\ k v = Throw e.
Proof.
  destruct r as [v | e']; simpl; split.
  - intros Hk. right. eauto.
  - intros [[=] | (v' & [= <-] & Hk)]. exact Hk.
  - intros [= ->]. now left.
  - intros [[= ->] | (v' & [=] & _)]. reflexivity.
Qed.

Lemma chars_append a b : chars (a +:+ b) = chars a ++ chars b.
Proof.
  unfold chars. induction a as [| c a IH]; [reflexivity |].
  change (String c a +:+ b) with (String c (a +:+ b)). simpl. now rewrite IH.
Qed.

Lemma chars_replace_all x y s :
  chars (replace_all x y s)
  = map (fun c => if Ascii.eqb c x then y else c) (chars s).
Proof.
  unfold chars. induction s as [| c s IH]; simpl; [reflexivity |].
  now rewrite IH.
Qed.

Lemma strip_pad_In l l' c :
  strip_pad l = Some l' -> In c l -> c <> "="%char -> In c l'.
Proof.
  unfold strip_pad. intros Hs Hin Hc.
  apply in_rev in Hin. destruct (rev l) as [| a r]; [discriminate |].
  destruct (Ascii.eqb_spec a "="%char) as [-> | _]; [| discriminate].
  injection Hs as <-. apply in_rev. rewrite rev_involutive.
  destruct Hin as [<- | Hin]; [contradiction | exact Hin].
Qed.

Lemma strip_padding_In l c :
  In c l -> c <> "="%char -> In c (strip_padding l).
Proof.
  intros Hin Hc. unfold strip_padding.
  destruct (strip_pad l) as [l1 |] eqn:E1; [| exact Hin].
  pose proof (strip_pad_In _ _ _ E1 Hin Hc) as Hin1.
  destruct (strip_pad l1) as [l2 |] eqn:E2; [| exact Hin1].
  exact (strip_pad_In _ _ _ E2 Hin1 Hc).
Qed.

Lemma b64_values_foreign l c :
  In c l -> b64_value c = None -> b64_values l = None.
Proof.
  induction l as [| a l IH]; intros Hin Hc; [destruct Hin |].
  simpl. destruct Hin as [-> | Hin].
  - now rewrite Hc.
  - rewrite (IH Hin Hc). now destruct (b64_value a).
Qed.

(** A segment that holds a character foreign to base64 does not decode. *)
Lemma base64UrlDecode_foreign seg c :
  In c (chars seg) -> foreign_char c = true ->
  JWTUtils.base64UrlDecode seg = Throw InvalidCharacterError.
Proof.
  unfold foreign_char. intros Hin Hc.
  apply andb_prop in Hc as [Hc Hval]. apply andb_prop in Hc as [Hc Hus].
  apply andb_prop in Hc as [Hc Hminus]. apply andb_prop in Hc as [Hws Hpad].
  apply negb_true_iff in Hws, Hpad, Hminus, Hus.
  assert (Hnone : b64_value c = None) by (destruct (b64_value c); congruence).
  unfold JWTUtils.base64UrlDecode, atob. cbv zeta.
  set (padded := seg +:+ repeat_char "=" _).
  set (data := List.filter _ _).
  assert (Hdata : In c data).
  { subst data. apply filter_In. split; [| now rewrite Hws].
    rewrite !chars_replace_all. apply in_map_iff. exists c. split.
    - now rewrite Hus.
    - apply in_map_iff. exists c. split; [now rewrite Hminus |].
      subst padded. rewrite chars_append. apply in_or_app. now left. }
  assert (Hkept : In c (if Z.of_nat (length data) mod 4 =? 0
                        then strip_padding data else data)).
  { destruct (Z.of_nat (length data) mod 4 =? 0); [| exact Hdata].
    apply strip_padding_In; [exact Hdata |].
    intros ->. discriminate. }
  destruct (Z.of_nat (length _) mod 4 =? 1); [reflexivity |].
  now rewrite (b64_values_foreign _ _ Hkept Hnone).
Qed.

(** C3, as the claim states it, fails twice over: a credential whose third
    segment is empty decodes, and so does one whose header and payload
    are JSON text that is not an object. *)
Lemma parseJWT_accepts_empty_signature_and_scalars :
  JWTUtils.parseJWT (H:=ReferenceHost) "e30.e30."
  = Some (JWTUtils.mkParsed (JObj []) (JObj []) EmptyString)
  /\ JWTUtils.parseJWT (H:=ReferenceHost) "MQ.MQ.sig"
     = Some (JWTUtils.mkParsed (JNum 1) (JNum 1) "sig").
Proof. split; vm_compute; reflexivity. Qed.

(** C3 (amended).  Decoding fails exactly when the credential does not
    split on the dot into three segments (which may be empty), or when the
    base64 decoding of the first or of the second segment raises, or when
    [JSON.parse] rejects the decoded text (it accepts any JSON value, an
    object or not); a first or second segment that holds a character
    foreign to base64 is among those that raise.  Each failure is the error
    value [None]: no exception escapes and no partial result is returned.
    On success the result holds the two parsed values and the third segment
    as it stands. *)
Theorem parseJWT_failure `{Host} (token : string) :
  let parts := split_dot token in
  let decoded i :=
    JWTUtils.base64UrlDecode (nth i parts EmptyString) ≫= JSON_parse in
  (JWTUtils.parseJWT token = None <->
     len parts <> 3
     \/ (exists e, decoded 0%nat = Throw e)
     \/ (exists e, decoded 1%nat = Throw e))
  /\ (forall i e, decoded i = Throw e <->
        JWTUtils.base64UrlDecode (nth i parts EmptyString) = Throw e
        \/ exists txt,
             JWTUtils.base64UrlDecode (nth i parts EmptyString) = Ok txt
             /\ JSON_parse txt = Throw e)
  /\ (forall i c, In c (chars (nth i parts EmptyString)) ->
        foreign_char c = true -> exists e, decoded i = Throw e)
  /\ (forall parsed, JWTUtils.parseJWT token = Some parsed ->
        len parts = 3
        /\ decoded 0%nat = Ok (JWTUtils.p_header parsed)
        /\ decoded 1%nat = Ok (JWTUtils.p_payload parsed)
        /\ JWTUtils.p_signature parsed = nth 2 parts EmptyString).
Proof.
  intros parts decoded.
  assert (Hdef : JWTUtils.parseJWT token =
            if negb (len parts =? 3) then None
            else match decoded 0%nat, decoded 1%nat with
                 | Ok h, Ok p =>
                     Some (JWTUtils.mkParsed h p (nth 2 parts EmptyString))
                 | _, _ => None
                 end).
  { unfold JWTUtils.parseJWT, JWTUtils.parseJWT_try.
    fold parts. destruct (negb (len parts =? 3)); [reflexivity |].
    subst decoded. cbv beta.
    destruct (JWTUtils.base64UrlDecode (nth 0 parts EmptyString) ≫= JSON_parse);
      [| reflexivity].
    simpl.
    destruct (JWTUtils.base64UrlDecode (nth 1 parts EmptyString) ≫= JSON_parse);
      reflexivity. }
  split; [| split; [| split]].
  - rewrite Hdef. destruct (len parts =? 3) eqn:Hlen; simpl.
    + apply Z.eqb_eq in Hlen.
      destruct (decoded 0%nat) as [h | e0] eqn:E0.
      * destruct (decoded 1%nat) as [p | e1] eqn:E1.
        -- split; [discriminate |].
           intros [Hne | [[e He] | [e He]]]; [lia | discriminate ..].
        -- split; [| reflexivity]. intros _. right. right. eauto.
      * split; [| reflexivity]. intros _. right. left. eauto.
    + apply Z.eqb_neq in Hlen. split; [| reflexivity]. intros _. now left.
  - intros i e. subst decoded. cbv beta. apply Result_bind_Throw.
  - intros i c Hin Hc. exists InvalidCharacterError. subst decoded. cbv beta.
    now rewrite (base64UrlDecode_foreign _ _ Hin Hc).
  - intros parsed. rewrite Hdef.
    destruct (len parts =? 3) eqn:Hlen; simpl; [| discriminate].
    apply Z.eqb_eq in Hlen.
    destruct (decoded 0%nat) as [h | e0]; [| discriminate].
    destruct (decoded 1%nat) as [p | e1]; [| discriminate].
    intros [= <-]. simpl. auto.
Qed.

(** ** The grouping identity *)

Lemma split_dot_no_dot s : no_dot s -> split_dot s = [s].
Proof.
  unfold no_dot, chars. induction s as [| c s IH]; simpl; [reflexivity |].
  intros Hs. destruct (Ascii.eqb_spec c "."%char) as [-> | Hc].
  - exfalso. apply Hs. now left.
  - rewrite IH; [reflexivity |]. intros Hin. apply Hs. now right.
Qed.

Lemma split_dot_app a rest :
  no_dot a -> split_dot (a +:+ "." +:+ rest) = a :: split_dot rest.
Proof.
  change ("." +:+ rest) with (String "." rest).
  unfold no_dot, chars. induction a as [| c a IH]; intros Ha.
  - reflexivity.
  - change (String c a +:+ String "." rest)
      with (String c (a +:+ String "." rest)).
    cbn [split_dot]. cbn in Ha.
    destruct (Ascii.eqb_spec c "."%char) as [-> | Hc].
    + exfalso. apply Ha. now left.
    + rewrite IH; [reflexivity |]. intros Hin. apply Ha. now right.
Qed.

Lemma split_dot_credential h p s :
  no_dot h -> no_dot p -> no_dot s -> split_dot (credential h p s) = [h; p; s].
Proof.
  intros Hh Hp Hs. unfold credential.
  rewrite (split_dot_app h), (split_dot_app p), (split_dot_no_dot s); auto.
Qed.

Lemma generateTokenId_three c h p s :
  split_dot c = [h; p; s] ->
  JWTUtils.generateTokenId c = digest16 (p +:+ "." +:+ s).
Proof. unfold JWTUtils.generateTokenId. now intros ->. Qed.

Lemma generateTokenId_not_three c :
  len (split_dot c) <> 3 -> JWTUtils.generateTokenId c = c.
Proof.
  unfold JWTUtils.generateTokenId. intros Hn.
  destruct (len (split_dot c) =? 3) eqn:E; [| reflexivity].
  apply Z.eqb_eq in E. contradiction.
Qed.

(** *** The digest has thirty-two bytes, sixty-four hexadecimal digits *)

Lemma round_length st kw : length (SHA256.round st kw) = length st.
Proof.
  destruct st as [| a [| b [| c [| d [| e [| f [| g [| h [| i t]]]]]]]]];
    reflexivity.
Qed.

Lemma rounds_length kws st :
  length (fold_left SHA256.round kws st) = length st.
Proof.
  revert st. induction kws as [| kw kws IH]; intros st; simpl;
    [reflexivity |].
  now rewrite IH, round_length.
Qed.

Lemma compress_length hs block :
  length (SHA256.compress hs block) = length hs.
Proof.
  unfold SHA256.compress.
  rewrite length_map, length_combine, rounds_length. apply Nat.min_id.
Qed.

Lemma blocks_length fuel hs bs :
  length (SHA256.blocks fuel hs bs) = length hs.
Proof.
  revert hs bs. induction fuel as [| fuel IH]; intros hs bs; simpl;
    [reflexivity |].
  destruct bs; [reflexivity |]. now rewrite IH, compress_length.
Qed.

Lemma be_bytes_length n x : length (SHA256.be_bytes n x) = n.
Proof. induction n; simpl; congruence. Qed.

Lemma digest_length msg : length (SHA256.digest msg) = 32%nat.
Proof.
  unfold SHA256.digest.
  assert (H : forall l : list Z,
             length (concat (map (SHA256.be_bytes 4) l)) = (4 * length l)%nat).
  { induction l as [| x l IH]; [reflexivity |].
    cbn [map concat]. rewrite length_app, IH, be_bytes_length. simpl. lia. }
  rewrite H, blocks_length. reflexivity.
Qed.

Lemma length_append (a b : string) :
  String.length (a +:+ b) = (String.length a + String.length b)%nat.
Proof.
  induction a as [| c a IH]; [reflexivity |].
  change (String c a +:+ b) with (String c (a +:+ b)).
  cbn [String.length]. now rewrite IH.
Qed.

Lemma hex_string_length bs :
  String.length (hex_string bs) = (2 * length bs)%nat.
Proof.
  induction bs as [| b bs IH]; [reflexivity |].
  unfold hex_string in *. cbn [map fold_right].
  rewrite length_append, IH. simpl. lia.
Qed.

Lemma substring_length_le n m s : (String.length (substring n m s) <= m)%nat.
Proof.
  revert n m. induction s as [| c s IH]; intros [| n] [| m]; simpl;
    try lia.
  - specialize (IH 0%nat m). lia.
  - apply (IH n 0%nat).
  - apply (IH n (S m)).
Qed.

Lemma substring_prefix_length m s :
  (m <= String.length s)%nat -> String.length (substring 0 m s) = m.
Proof.
  revert m. induction s as [| c s IH]; intros [| m]; simpl; try lia.
  intros Hm. rewrite IH; lia.
Qed.

Lemma digest16_length s : String.length (digest16 s) = 16%nat.
Proof.
  unfold digest16. apply substring_prefix_length.
  rewrite hex_string_length, digest_length. lia.
Qed.

(** *** The digits of the identity are hexadecimal *)

Lemma hex_digit_is_hex n : 0 <= n < 16 -> is_hex_digit (hex_digit n) = true.
Proof.
  intros Hn. replace n with (Z.of_nat (Z.to_nat n)) by lia.
  assert (Hk : (Z.to_nat n < 16)%nat) by lia.
  generalize dependent (Z.to_nat n). clear Hn n. intros k Hk.
  do 16 (destruct k as [| k]; [reflexivity |]). lia.
Qed.

Lemma digest_bytes msg :
  Forall (fun b => 0 <= b < 256) (SHA256.digest msg).
Proof.
  unfold SHA256.digest. apply Forall_concat, Forall_forall.
  intros bs Hbs. apply list_elem_of_fmap in Hbs as (x & -> & _).
  generalize 4%nat. intros n. induction n as [| n IH]; constructor; [| exact IH].
  change 255 with (Z.ones 8). rewrite Z.land_ones by lia.
  apply Z.mod_pos_bound. lia.
Qed.

Lemma hex_string_digits bs :
  Forall (fun b => 0 <= b < 256) bs ->
  Forall (fun c => is_hex_digit c = true) (chars (hex_string bs)).
Proof.
  induction 1 as [| b bs Hb _ IH]; [constructor |].
  unfold hex_string in *. cbn [map fold_right]. rewrite chars_append.
  apply Forall_app. split; [| exact IH].
  repeat constructor; apply hex_digit_is_hex.
  - split; [apply Z.div_pos; lia | apply Z.div_lt_upper_bound; lia].
  - apply Z.mod_pos_bound. lia.
Qed.

Lemma substring_prefix_chars m s : chars (substring 0 m s) = take m (chars s).
Proof.
  unfold chars. revert m. induction s as [| c s IH]; intros [| m]; simpl;
    try reflexivity.
  now rewrite IH.
Qed.

Lemma digest16_digits s :
  Forall (fun c => is_hex_digit c = true) (chars (digest16 s)).
Proof.
  unfold digest16. rewrite substring_prefix_chars.
  apply Forall_take, hex_string_digits, digest_bytes.
Qed.

(** *** Two credentials with one identity *)

Lemma in_all_chars c : In c all_chars.
Proof.
  unfold all_chars. apply in_map_iff. exists (nat_of_ascii c). split.
  - apply ascii_nat_embedding.
  - apply in_seq. pose proof (nat_ascii_bounded c). lia.
Qed.

Lemma repeat_char_length c n : String.length (repeat_char c n) = n.
Proof. induction n; simpl; congruence. Qed.

(** C5, as the claim states it, fails in the direction from equal
    identities to equal segments, at two credentials that both decode:
    they have the same header and payload segments and different
    signature segments, and their identities are the same sixteen digits;
    the index records the request that carries the second under the group
    of the first. *)
Lemma generateTokenId_collision :
  split_dot collision_token_1 = ["e30"; "e30"; "4f4bde452bfe07aa"]
  /\ split_dot collision_token_2 = ["e30"; "e30"; "8a524b7fc21d53ea"]
  /\ "4f4bde452bfe07aa" <> "8a524b7fc21d53ea"
  /\ JWTUtils.generateTokenId collision_token_1 = "a30baceba969fe32"
  /\ JWTUtils.generateTokenId collision_token_2 = "a30baceba969fe32"
  /\ JWTUtils.parseJWT (H:=ReferenceHost) collision_token_1
     = Some (JWTUtils.mkParsed (JObj []) (JObj []) "4f4bde452bfe07aa")
  /\ JWTUtils.parseJWT (H:=ReferenceHost) collision_token_2
     = Some (JWTUtils.mkParsed (JObj []) (JObj []) "8a524b7fc21d53ea")
  /\ exists g,
       tokenGroups
         (upserts (H:=ReferenceHost)
            [mkEvent 1000 collision_token_1 (sample_request 1000);
             mkEvent 2000 collision_token_2 (sample_request 2000)]
            emptyIndex) = [g]
       /\ raw g = collision_token_1
       /\ requests g = [sample_request 1000; sample_request 2000].
Proof.
  split; [reflexivity |]. split; [reflexivity |].
  split; [discriminate |].
  split; [vm_compute; reflexivity |]. split; [vm_compute; reflexivity |].
  split; [vm_compute; reflexivity |]. split; [vm_compute; reflexivity |].
  vm_compute. eexists. repeat split.
Qed.

(** *** Where identities can coincide *)

(** The segments of a credential hold no dot, so payload segment, dot,
    signature segment determines the two segments. *)
Lemma split_dot_segments s : Forall no_dot (split_dot s).
Proof.
  induction s as [| c s IH]; simpl.
  - repeat constructor. intros [].
  - destruct (Ascii.eqb_spec c "."%char) as [-> | Hc].
    + constructor; [intros [] | exact IH].
    + destruct (split_dot s) as [| seg segs].
      * repeat constructor. unfold no_dot. simpl. intros [-> | []].
        contradiction.
      * inversion IH as [| ? ? Hseg Hsegs]; subst.
        constructor; [| exact Hsegs].
        unfold no_dot in *. simpl. intros [-> | Hin]; [contradiction | auto].
Qed.

Lemma payload_signature_inj p1 s1 p2 s2 :
  no_dot p1 -> no_dot s1 -> no_dot p2 -> no_dot s2 ->
  p1 +:+ "." +:+ s1 = p2 +:+ "." +:+ s2 -> p1 = p2 /\ s1 = s2.
Proof.
  intros Hp1 Hs1 Hp2 Hs2 Heq. apply (f_equal split_dot) in Heq.
  rewrite !split_dot_app, !split_dot_no_dot in Heq by assumption.
  now injection Heq as -> ->.
Qed.

(** Every character is the first character of its UTF-8 form followed by
    anything. *)
Lemma utf8_char_table :
  forallb (fun c =>
    match utf8_char c with
    | [b] => (b <? 128) && Ascii.eqb (char_of b) c
    | [b; b'] =>
        negb (b <? 128)
        && Ascii.eqb (char_of ((b - 192) * 64 + (b' - 128))) c
    | _ => false
    end) all_chars = true.
Proof. vm_compute. reflexivity. Qed.

Lemma utf8_first_char c rest :
  utf8_first (utf8_char c ++ rest) = Some (c, rest).
Proof.
  pose proof utf8_char_table as Htable. rewrite forallb_forall in Htable.
  specialize (Htable c (in_all_chars c)).
  destruct (utf8_char c) as [| b [| b' [| b'' l]]]; try discriminate.
  - apply andb_prop in Htable as [Hb Hc]. apply Ascii.eqb_eq in Hc.
    simpl. now rewrite Hb, Hc.
  - apply andb_prop in Htable as [Hb Hc]. apply Ascii.eqb_eq in Hc.
    apply negb_true_iff in Hb. simpl. now rewrite Hb, Hc.
Qed.

Lemma utf8_encode_cons c s :
  utf8_encode (String c s) = utf8_char c ++ utf8_encode s.
Proof. reflexivity. Qed.

(** Texts with one UTF-8 form are one text. *)
Lemma utf8_encode_inj a b : utf8_encode a = utf8_encode b -> a = b.
Proof.
  revert b. induction a as [| c a IH]; intros [| c' b] Heq.
  - reflexivity.
  - apply (f_equal utf8_first) in Heq.
    rewrite utf8_encode_cons, utf8_first_char in Heq. discriminate.
  - apply (f_equal utf8_first) in Heq.
    rewrite utf8_encode_cons, utf8_first_char in Heq. discriminate.
  - apply (f_equal utf8_first) in Heq.
    rewrite !utf8_encode_cons, !utf8_first_char in Heq.
    injection Heq as -> Heq. f_equal. now apply IH.
Qed.

(** The hexadecimal digits of bytes, two by two. *)
Lemma hex_string_pairs bs : chars (hex_string bs) = flat_map hex_pair bs.
Proof.
  unfold hex_string. induction bs as [| b bs IH]; [reflexivity |].
  cbn [map fold_right flat_map]. rewrite chars_append, IH. reflexivity.
Qed.

Lemma take_hex_pairs n bs :
  take (2 * n) (flat_map hex_pair bs) = flat_map hex_pair (take n bs).
Proof.
  revert bs. induction n as [| n IH]; intros [| b bs]; try reflexivity.
  replace (2 * S n)%nat with (S (S (2 * n))) by lia.
  cbn [flat_map hex_pair take app]. now rewrite IH.
Qed.

Lemma hex_digit_table :
  forallb (fun a =>
    forallb (fun b => implb (Ascii.eqb (hex_digit a) (hex_digit b)) (a =? b))
      (map Z.of_nat (seq 0 16))) (map Z.of_nat (seq 0 16)) = true.
Proof. vm_compute. reflexivity. Qed.

Lemma hex_digit_inj a b :
  0 <= a < 16 -> 0 <= b < 16 -> hex_digit a = hex_digit b -> a = b.
Proof.
  intros Ha Hb Heq. pose proof hex_digit_table as Htable.
  assert (Hin : forall n, 0 <= n < 16 -> In n (map Z.of_nat (seq 0 16))).
  { intros n Hn. apply in_map_iff. exists (Z.to_nat n).
    split; [lia | apply in_seq; lia]. }
  rewrite forallb_forall in Htable. specialize (Htable a (Hin a Ha)).
  rewrite forallb_forall in Htable. specialize (Htable b (Hin b Hb)).
  rewrite Heq, Ascii.eqb_refl in Htable. simpl in Htable.
  now apply Z.eqb_eq.
Qed.

Lemma hex_pairs_inj bs1 bs2 :
  Forall (fun b => 0 <= b < 256) bs1 -> Forall (fun b => 0 <= b < 256) bs2 ->
  flat_map hex_pair bs1 = flat_map hex_pair bs2 -> bs1 = bs2.
Proof.
  intros H1. revert bs2.
  induction H1 as [| a bs1 Ha _ IH]; intros bs2 H2 Heq;
    destruct H2 as [| b bs2 Hb H2]; try discriminate; [reflexivity |].
  cbn [flat_map hex_pair app] in Heq. injection Heq as Hhi Hlo Heq.
  apply hex_digit_inj in Hhi;
    [| split; [apply Z.div_pos; lia | apply Z.div_lt_upper_bound; lia] ..].
  apply hex_digit_inj in Hlo; [| apply Z.mod_pos_bound; lia ..].
  f_equal; [| now apply IH].
  rewrite (Z.div_mod a 16), (Z.div_mod b 16) by lia. congruence.
Qed.

(** The identity digests of two texts are equal exactly when the first
    eight bytes of their SHA-256 digests are. *)
Lemma digest16_eq m1 m2 :
  digest16 m1 = digest16 m2 <->
  take 8 (SHA256.digest (utf8_encode m1))
  = take 8 (SHA256.digest (utf8_encode m2)).
Proof.
  assert (Hchars : forall m,
            chars (digest16 m)
            = flat_map hex_pair (take 8 (SHA256.digest (utf8_encode m)))).
  { intros m. unfold digest16.
    now rewrite substring_prefix_chars, hex_string_pairs,
      (take_hex_pairs 8). }
  split.
  - intros Heq. apply (f_equal chars) in Heq. rewrite !Hchars in Heq.
    apply hex_pairs_inj in Heq; [exact Heq | |];
      apply Forall_take, digest_bytes.
  - intros Heq. rewrite <- (string_of_list_ascii_of_string (digest16 m1)),
      <- (string_of_list_ascii_of_string (digest16 m2)).
    fold (chars (digest16 m1)). fold (chars (digest16 m2)).
    now rewrite !Hchars, Heq.
Qed.

(** C5 (amended).  For credentials of three segments the identity is the
    SHA-256 digest of payload segment, dot, signature segment, in
    hexadecimal, cut to its first sixteen digits.  Credentials with the same
    payload and signature segments have the same identity whatever their
    headers.  In the other direction: the text that is digested determines
    the payload and signature segments, and so does its UTF-8 form; and two
    identities are equal exactly when the first eight bytes of the two
    digests are.  So credentials with different payload or signature
    segments share an identity only where SHA-256 takes two different texts
    to digests with the same first eight bytes. *)
Theorem generateTokenId_spec (c1 c2 h1 p1 s1 h2 p2 s2 : string) :
  split_dot c1 = [h1; p1; s1] ->
  split_dot c2 = [h2; p2; s2] ->
  JWTUtils.generateTokenId c1
  = substring 0 16
      (hex_string (SHA256.digest (utf8_encode (p1 +:+ "." +:+ s1))))
  /\ String.length (JWTUtils.generateTokenId c1) = 16%nat
  /\ Forall (fun c => is_hex_digit c = true)
       (chars (JWTUtils.generateTokenId c1))
  /\ (p1 = p2 -> s1 = s2 ->
      JWTUtils.generateTokenId c1 = JWTUtils.generateTokenId c2)
  /\ (utf8_encode (p1 +:+ "." +:+ s1) = utf8_encode (p2 +:+ "." +:+ s2)
      <-> p1 = p2 /\ s1 = s2)
  /\ (JWTUtils.generateTokenId c1 = JWTUtils.generateTokenId c2 <->
      take 8 (SHA256.digest (utf8_encode (p1 +:+ "." +:+ s1)))
      = take 8 (SHA256.digest (utf8_encode (p2 +:+ "." +:+ s2)))).
Proof.
  intros Hc1 Hc2.
  pose proof (split_dot_segments c1) as Hseg1. rewrite Hc1 in Hseg1.
  pose proof (split_dot_segments c2) as Hseg2. rewrite Hc2 in Hseg2.
  inversion Hseg1 as [| ? ? _ Hseg1']; subst.
  inversion Hseg1' as [| ? ? Hp1 Hseg1'']; subst.
  inversion Hseg1'' as [| ? ? Hs1 _]; subst.
  inversion Hseg2 as [| ? ? _ Hseg2']; subst.
  inversion Hseg2' as [| ? ? Hp2 Hseg2'']; subst.
  inversion Hseg2'' as [| ? ? Hs2 _]; subst.
  rewrite (generateTokenId_three _ _ _ _ Hc1),
    (generateTokenId_three _ _ _ _ Hc2).
  split; [reflexivity |]. split; [apply digest16_length |].
  split; [apply digest16_digits |]. split; [now intros -> -> |].
  split; [| apply digest16_eq].
  split.
  - intros Heq. apply utf8_encode_inj in Heq.
    now apply payload_signature_inj in Heq.
  - now intros [-> ->].
Qed.

(** The amended C5 at the credential of the scenario of section 8 and at
    the same payload and signature under another header. *)
Lemma generateTokenId_spec_witness :
  JWTUtils.generateTokenId
    scenario_token
  = JWTUtils.generateTokenId
      "eyJhbGciOiJIUzI1NiJ9.eyJzdWIiOiJ1MSIsImV4cCI6OTk5OTk5OTk5OX0.sig".
Proof.
  refine (proj1 (proj2 (proj2 (proj2 (generateTokenId_spec _ _
    "eyJhbGciOiJIUzI1NiIsInR5cCI6IkpXVCJ9"
    "eyJzdWIiOiJ1MSIsImV4cCI6OTk5OTk5OTk5OX0" "sig"
    "eyJhbGciOiJIUzI1NiJ9"
    "eyJzdWIiOiJ1MSIsImV4cCI6OTk5OTk5OTk5OX0" "sig" _ _)))) eq_refl eq_refl);
    vm_compute; reflexivity.
Defined.

(** ** Arrays *)

Lemma findIndex_lower {A} (p : A -> bool) l : -1 <= findIndex p l.
Proof.
  induction l as [| x l IH]; simpl; [lia |].
  destruct (p x); [lia |]. destruct (findIndex p l <? 0) eqn:E; lia.
Qed.

Lemma findIndex_absent {A} (p : A -> bool) l :
  findIndex p l < 0 <-> Forall (fun x => p x = false) l.
Proof.
  induction l as [| x l IH]; simpl.
  - split; [constructor | lia].
  - pose proof (findIndex_lower p l).
    destruct (p x) eqn:Hx.
    + split; [lia |]. intros HF. inversion HF as [| ? ? Hpx _]; congruence.
    + destruct (findIndex p l <? 0) eqn:E.
      * apply Z.ltb_lt in E. split; [| lia].
        intros _. constructor; [exact Hx | now apply IH].
      * apply Z.ltb_ge in E. split; [lia |].
        intros HF. inversion HF as [| ? ? _ Hl]; subst. apply IH in Hl. lia.
Qed.

Lemma findIndex_present {A} (p : A -> bool) l :
  0 <= findIndex p l ->
  exists x, l !! Z.to_nat (findIndex p l) = Some x /\ p x = true.
Proof.
  induction l as [| x l IH]; simpl; [lia |].
  destruct (p x) eqn:Hx.
  - intros _. exists x. auto.
  - destruct (findIndex p l <? 0) eqn:E; [lia |].
    apply Z.ltb_ge in E. intros _. destruct (IH E) as (y & Hy & Hp).
    exists y. split; [| exact Hp].
    replace (Z.to_nat (findIndex p l + 1)) with (S (Z.to_nat (findIndex p l)))
      by lia.
    exact Hy.
Qed.

Lemma findIndex_alter {A} (p : A -> bool) (f : A -> A) i l :
  (forall x, p (f x) = p x) -> findIndex p (alter f i l) = findIndex p l.
Proof.
  intros Hf. revert i.
  induction l as [| x l IH]; intros [| i]; try reflexivity.
  - simpl. now rewrite Hf.
  - change (alter f (S i) (x :: l)) with (x :: alter f i l).
    simpl. now rewrite IH.
Qed.

Lemma sort_insert_Permutation {A} (cmp : A -> A -> option Z) x l :
  Permutation (sort_insert cmp x l) (x :: l).
Proof.
  induction l as [| y l IH]; simpl; [reflexivity |].
  destruct (SortCompare cmp x y <=? 0); [reflexivity |].
  rewrite IH. apply perm_swap.
Qed.

Lemma Array_sort_Permutation {A} (cmp : A -> A -> option Z) l :
  Permutation (Array_sort cmp l) l.
Proof.
  induction l as [| x l IH]; simpl; [reflexivity |].
  now rewrite sort_insert_Permutation, IH.
Qed.

Lemma Array_sort_length {A} (cmp : A -> A -> option Z) l :
  length (Array_sort cmp l) = length l.
Proof. apply Permutation_length, Array_sort_Permutation. Qed.

Lemma SortCompare_newest_first x y :
  valid_request x -> valid_request y ->
  SortCompare newest_first x y = observedAt y - observedAt x.
Proof.
  unfold valid_request, SortCompare, newest_first. now intros -> ->.
Qed.

Lemma sort_insert_sorted x l :
  valid_request x -> Forall valid_request l ->
  StronglySorted newer_or_equal l ->
  StronglySorted newer_or_equal (sort_insert newest_first x l).
Proof.
  intros Hx Hl Hs. induction Hs as [| y l Hs IH Hy]; simpl.
  - repeat constructor.
  - inversion Hl as [| ? ? Hvy Hvl]; subst.
    rewrite SortCompare_newest_first by assumption.
    destruct (observedAt y - observedAt x <=? 0) eqn:E.
    + apply Z.leb_le in E. constructor; [now constructor |].
      constructor; [unfold newer_or_equal; lia |].
      eapply Forall_impl; [exact Hy |].
      unfold newer_or_equal. intros z Hz. lia.
    + apply Z.leb_gt in E. constructor; [now apply IH |].
      rewrite sort_insert_Permutation.
      constructor; [unfold newer_or_equal; lia | exact Hy].
Qed.

Lemma Array_sort_sorted l :
  Forall valid_request l ->
  StronglySorted newer_or_equal (Array_sort newest_first l).
Proof.
  induction l as [| x l IH]; intros Hl; simpl; [constructor |].
  inversion Hl; subst. apply sort_insert_sorted; auto.
  now rewrite Array_sort_Permutation.
Qed.



(** ** The index: one upsert *)

Section Upsert.
Context `{Host}.

Lemma updateExistingGroup_requests now token r g :
  requests (Background.updateExistingGroup now token r g)
  = appended r (requests g).
Proof.
  unfold Background.updateExistingGroup, appended. cbv zeta.
  destruct (JWTUtils.parseJWT token); simpl;
    destruct (50 <? len (requests g ++ [r])); reflexivity.
Qed.

Lemma updateExistingGroup_fields now token r g :
  let g' := Background.updateExistingGroup now token r g in
  tokenId g' = tokenId g /\ raw g' = raw g /\ payload g' = payload g
  /\ firstSeen g' = firstSeen g /\ lastSeen g' = timestamp r
  /\ isExpired g' =
       match JWTUtils.parseJWT token with
       | Some parsed =>
           JWTUtils.isTokenExpired now (JWTUtils.p_payload parsed)
       | None => isExpired g
       end.
Proof.
  unfold Background.updateExistingGroup. cbv zeta.
  destruct (JWTUtils.parseJWT token); simpl;
    destruct (50 <? len (requests g ++ [r])); simpl; auto 10.
Qed.

Lemma truncate_take (gs : list JWTTokenGroup) :
  (if Background.MAX_TOKEN_GROUPS <? len gs
   then slice0 Background.MAX_TOKEN_GROUPS gs else gs) = take 100 gs.
Proof.
  unfold Background.MAX_TOKEN_GROUPS, slice0, len.
  destruct (100 <? Z.of_nat (length gs)) eqn:E; [reflexivity |].
  apply Z.ltb_ge in E. symmetry. apply take_ge. lia.
Qed.

Lemma storeTokenData_present now token r st :
  0 <= groupIndex token st ->
  tokenGroups (Background.storeTokenData now token r st)
  = take 100 (alter (Background.updateExistingGroup now token r)
                (Z.to_nat (groupIndex token st)) (tokenGroups st)).
Proof.
  intros Hi. unfold Background.storeTokenData. fold (groupIndex token st).
  cbn [tokenGroups with_tokenGroups].
  destruct (0 <=? groupIndex token st) eqn:E; [| apply Z.leb_gt in E; lia].
  apply truncate_take.
Qed.

Lemma storeTokenData_absent now token r st :
  groupIndex token st < 0 ->
  tokenGroups (Background.storeTokenData now token r st)
  = take 100
      match JWTUtils.createTokenGroup now token r with
      | Some newGroup => newGroup :: tokenGroups st
      | None => tokenGroups st
      end.
Proof.
  intros Hi. unfold Background.storeTokenData. fold (groupIndex token st).
  cbn [tokenGroups with_tokenGroups].
  destruct (0 <=? groupIndex token st) eqn:E; [apply Z.leb_le in E; lia |].
  apply truncate_take.
Qed.

Lemma storeTokenData_settings now token r st :
  maxTokenGroups (Background.storeTokenData now token r st) = maxTokenGroups st
  /\ retentionHours (Background.storeTokenData now token r st)
     = retentionHours st.
Proof. split; reflexivity. Qed.

(** The group found is rewritten in place. *)
Lemma storeTokenData_group now token r st i g :
  groupIndex token st = Z.of_nat i -> (i < 100)%nat ->
  tokenGroups st !! i = Some g ->
  tokenGroups (Background.storeTokenData now token r st) !! i
  = Some (Background.updateExistingGroup now token r g).
Proof.
  intros Hi Hlt Hg. rewrite storeTokenData_present by lia.
  rewrite Hi, Nat2Z.id, lookup_take_lt by exact Hlt.
  rewrite list_lookup_alter_eq, Hg. reflexivity.
Qed.

Lemma createTokenGroup_fields now token r g :
  JWTUtils.createTokenGroup now token r = Some g ->
  tokenId g = JWTUtils.generateTokenId token /\ raw g = token
  /\ requests g = [r] /\ firstSeen g = timestamp r
  /\ lastSeen g = timestamp r
  /\ exists parsed, JWTUtils.parseJWT token = Some parsed
       /\ payload g = JWTUtils.p_payload parsed
       /\ expiryDate g = JWTUtils.getExpiryDate (JWTUtils.p_payload parsed)
       /\ isExpired g
          = JWTUtils.isTokenExpired now (JWTUtils.p_payload parsed).
Proof.
  unfold JWTUtils.createTokenGroup.
  destruct (JWTUtils.parseJWT token) as [parsed |]; [| discriminate].
  intros [= <-]. simpl. eauto 10.
Qed.

Lemma createTokenGroup_None now token r :
  JWTUtils.createTokenGroup now token r = None <->
  JWTUtils.parseJWT token = None.
Proof.
  unfold JWTUtils.createTokenGroup.
  destruct (JWTUtils.parseJWT token); split; congruence.
Qed.

End Upsert.

(** ** The index: the request list of a group *)

Lemma appended_below_cap r rs :
  len rs < 50 -> appended r rs = rs ++ [r].
Proof.
  unfold appended, len. cbv zeta. rewrite length_app. simpl. intros Hl.
  destruct (50 <? Z.of_nat (length rs + 1)) eqn:E; [| reflexivity].
  apply Z.ltb_lt in E. lia.
Qed.

Lemma appended_at_cap r rs :
  50 <= len rs ->
  appended r rs = slice0 50 (Array_sort newest_first (rs ++ [r]))
  /\ length (appended r rs) = 50%nat.
Proof.
  unfold appended, len. cbv zeta. rewrite length_app. simpl. intros Hl.
  destruct (50 <? Z.of_nat (length rs + 1)) eqn:E;
    [| apply Z.ltb_ge in E; lia].
  split; [reflexivity |]. unfold slice0.
  change (Z.to_nat 50) with 50%nat.
  rewrite length_take, Array_sort_length, length_app. cbn [length]. lia.
Qed.


Lemma max_observedAt_cons x l :
  max_observedAt (x :: l)
  = Some match max_observedAt l with
         | Some m => Z.max (observedAt x) m
         | None => observedAt x
         end.
Proof.
  unfold max_observedAt. simpl. now destruct (foldr _ None l).
Qed.

Lemma max_observedAt_None l : max_observedAt l = None -> l = [].
Proof.
  destruct l as [| x l]; [reflexivity |].
  rewrite max_observedAt_cons. discriminate.
Qed.

Lemma max_observedAt_Some l m :
  max_observedAt l = Some m ->
  (forall x, In x l -> observedAt x <= m)
  /\ exists x, In x l /\ observedAt x = m.
Proof.
  revert m. induction l as [| y l IH]; intros m; [discriminate |].
  rewrite max_observedAt_cons.
  destruct (max_observedAt l) as [m0 |] eqn:E0; intros [= <-].
  - destruct (IH m0 eq_refl) as (Hle & x & Hx & Hm). split.
    + intros z [<- | Hz]; [lia |]. specialize (Hle z Hz). lia.
    + destruct (Z.le_ge_cases m0 (observedAt y)).
      * exists y. split; [now left | lia].
      * exists x. split; [now right | lia].
  - apply max_observedAt_None in E0 as ->. split.
    + intros z [<- | []]. lia.
    + exists y. split; [now left | reflexivity].
Qed.

Lemma max_observedAt_eq l m :
  (exists x, In x l /\ observedAt x = m) ->
  (forall x, In x l -> observedAt x <= m) ->
  max_observedAt l = Some m.
Proof.
  intros (x & Hx & Hm) Hle.
  destruct (max_observedAt l) as [m' |] eqn:E.
  - destruct (max_observedAt_Some _ _ E) as (Hle' & x' & Hx' & Hm').
    f_equal. specialize (Hle x' Hx'). specialize (Hle' x Hx). lia.
  - apply max_observedAt_None in E as ->. destruct Hx.
Qed.

Lemma appended_max r rs :
  valid_request r ->
  Forall (fun x => valid_request x /\ observedAt x <= observedAt r) rs ->
  max_observedAt (appended r rs) = Some (observedAt r).
Proof.
  intros Hr Hrs.
  assert (Hall : forall x, In x (rs ++ [r]) -> observedAt x <= observedAt r).
  { intros x Hx. apply in_app_or in Hx as [Hx | [<- | []]]; [| lia].
    rewrite Forall_forall in Hrs.
    apply list_elem_of_In, Hrs in Hx. tauto. }
  assert (Hv : Forall valid_request (rs ++ [r])).
  { apply Forall_app. split; [| now constructor].
    eapply Forall_impl; [exact Hrs |]. now intros x [? _]. }
  destruct (Z.lt_ge_cases (len rs) 50) as [Hlt | Hge].
  - rewrite appended_below_cap by exact Hlt.
    apply max_observedAt_eq; [| exact Hall].
    exists r. split; [apply in_or_app; right; now left | reflexivity].
  - destruct (appended_at_cap r rs Hge) as [-> _]. unfold slice0.
    pose proof (Array_sort_sorted _ Hv) as Hs.
    pose proof (Array_sort_Permutation newest_first (rs ++ [r])) as Hp.
    destruct (Array_sort newest_first (rs ++ [r])) as [| y l] eqn:Es.
    { apply Permutation_nil in Hp. now destruct rs. }
    change (take (Z.to_nat 50) (y :: l)) with (y :: take 49 l).
    apply max_observedAt_eq.
    + exists y. split; [now left |].
      assert (Hy : observedAt y <= observedAt r).
      { apply Hall. apply (Permutation_in _ Hp). now left. }
      assert (Hr' : In r (y :: l)).
      { apply (Permutation_in _ (Permutation_sym Hp)).
        apply in_or_app. right. now left. }
      inversion Hs as [| ? ? _ Hy']; subst.
      destruct Hr' as [-> | Hr']; [reflexivity |].
      rewrite Forall_forall in Hy'.
      apply list_elem_of_In, Hy' in Hr'. unfold newer_or_equal in Hr'. lia.
    + intros x Hx. apply Hall. apply (Permutation_in _ Hp).
      destruct Hx as [-> | Hx]; [now left | right].
      apply list_elem_of_In. apply list_elem_of_In in Hx.
      eapply subseteq_take, Hx.
Qed.





(** ** The index: [lastSeen] *)

(** C8, as the claim states it, fails when a request is stored that was
    observed before one the group already holds: [lastSeen] becomes the
    instant of the request just stored, which is not the greatest in the
    list. *)
Lemma lastSeen_below_max_observedAt :
  exists g,
    tokenGroups (Background.storeTokenData (H:=ReferenceHost) 3000
                   sample_token (sample_request 1000) sample_index_1) = [g]
    /\ map observedAt (requests g) = [2000; 1000]
    /\ getTime (lastSeen g) = Some 1000
    /\ max_observedAt (requests g) = Some 2000.
Proof. vm_compute. eexists. repeat split. Qed.

(** C8 (amended).  After an upsert that touches a group, [lastSeen] of the
    group is the instant of observation of the request just stored, and
    [firstSeen] is unchanged; when that request is valid and no request of
    the group was observed after it, [lastSeen] is the greatest instant of
    observation in the request list.  A group created by an upsert holds
    the seeding request alone, and its [firstSeen] and [lastSeen] are both
    the instant of that request. *)
Theorem lastSeen_after_upsert `{Host} now token r st :
  (forall i g,
      groupIndex token st = Z.of_nat i -> (i < 100)%nat ->
      tokenGroups st !! i = Some g ->
      exists g',
        tokenGroups (Background.storeTokenData now token r st) !! i = Some g'
        /\ lastSeen g' = timestamp r
        /\ firstSeen g' = firstSeen g
        /\ (valid_request r ->
            Forall (fun x => valid_request x
                             /\ observedAt x <= observedAt r) (requests g) ->
            getTime (lastSeen g') = max_observedAt (requests g')))
  /\ (groupIndex token st < 0 ->
      forall g', JWTUtils.createTokenGroup now token r = Some g' ->
        tokenGroups (Background.storeTokenData now token r st) !! 0%nat
        = Some g'
        /\ requests g' = [r]
        /\ firstSeen g' = timestamp r
        /\ lastSeen g' = timestamp r).
Proof.
  split.
  - intros i g Hi Hlt Hg.
    exists (Background.updateExistingGroup now token r g).
    split; [now apply storeTokenData_group |].
    destruct (updateExistingGroup_fields now token r g)
      as (_ & _ & _ & Hfirst & Hlast & _).
    repeat split; [exact Hlast | exact Hfirst |].
    intros Hr Hrs.
    rewrite updateExistingGroup_requests, appended_max by assumption.
    rewrite Hlast. exact Hr.
  - intros Habsent g' Hg'.
    rewrite storeTokenData_absent, Hg' by exact Habsent.
    destruct (createTokenGroup_fields _ _ _ _ Hg')
      as (_ & _ & Hreq & Hfirst & Hlast & _).
    auto.
Qed.

(** The amended C8 at the index that holds one request, observed at 2000,
    and a second request, observed at 2500. *)
Lemma lastSeen_after_upsert_witness :
  exists g',
    tokenGroups (Background.storeTokenData (H:=ReferenceHost) 3000
                   sample_token (sample_request 2500) sample_index_1)
      !! 0%nat = Some g'
    /\ getTime (lastSeen g') = Some 2500
    /\ max_observedAt (requests g') = Some 2500.
Proof.
  destruct (tokenGroups sample_index_1 !! 0%nat) as [g |] eqn:Eg;
    [| discriminate].
  destruct (proj1 (lastSeen_after_upsert (H:=ReferenceHost) 3000 sample_token
                     (sample_request 2500) sample_index_1) 0%nat g)
    as (g' & Hg' & Hlast & _ & Hmax).
  - vm_compute. reflexivity.
  - lia.
  - exact Eg.
  - exists g'. split; [exact Hg' |].
    assert (Ht : getTime (lastSeen g') = Some 2500) by now rewrite Hlast.
    split; [exact Ht |]. rewrite <- Hmax; [exact Ht | reflexivity |].
    injection Eg as <-. repeat constructor. cbn. lia.
Defined.

(** ** The index: credentials that do not decode *)

(** A credential that does not decode and whose identity is new leaves the
    groups of an index within its cap as they are. *)
Lemma storeTokenData_undecodable_new `{Host} now token r st :
  JWTUtils.parseJWT token = None ->
  groupIndex token st < 0 ->
  (length (tokenGroups st) <= 100)%nat ->
  Background.storeTokenData now token r st = st.
Proof.
  intros Hparse Habsent Hlen.
  assert (Hgs : tokenGroups (Background.storeTokenData now token r st)
                = tokenGroups st).
  { rewrite storeTokenData_absent by exact Habsent.
    apply createTokenGroup_None with (now := now) (r := r) in Hparse.
    rewrite Hparse. now apply take_ge. }
  destruct st as [gs m h]. unfold Background.storeTokenData in *.
  cbn [tokenGroups with_tokenGroups maxTokenGroups retentionHours] in *.
  now rewrite Hgs.
Qed.

(** C4 fails at an undecodable credential that has the payload and
    signature segments of a stored one: its identity is that of the stored
    group, and the upsert appends the request to that group and moves its
    [lastSeen], although the credential does not decode. *)
Theorem undecodable_credential_updates_group :
  JWTUtils.parseJWT (H:=ReferenceHost) sample_undecodable = None
  /\ exists g g',
       tokenGroups sample_index_1 = [g]
       /\ tokenGroups
            (Background.storeTokenData (H:=ReferenceHost) 3000
               sample_undecodable (sample_request 2500) sample_index_1)
          = [g']
       /\ requests g = [sample_request 2000]
       /\ requests g' = [sample_request 2000; sample_request 2500]
       /\ lastSeen g = mkDate (Some 2000)
       /\ lastSeen g' = mkDate (Some 2500).
Proof.
  split; [vm_compute; reflexivity |].
  vm_compute. do 2 eexists. repeat split.
Qed.

(** ** The retention sweep *)

Lemma refreshGroup_fields now cutoff g :
  let g' := Background.refreshGroup now cutoff g in
  tokenId g' = tokenId g /\ payload g' = payload g
  /\ expiryDate g' = expiryDate g /\ lastSeen g' = lastSeen g
  /\ firstSeen g' = firstSeen g
  /\ isExpired g' = JWTUtils.isTokenExpired now (payload g)
  /\ requests g'
     = List.filter (fun req : RequestInfo =>
                      num_gt (getTime (timestamp req)) (Some cutoff))
         (requests g).
Proof. cbv zeta. unfold Background.refreshGroup. simpl. auto 10. Qed.

Lemma keepGroup_spec cutoff g :
  Background.keepGroup cutoff g = true <->
  ~ (requests g = []
     /\ exists t, getTime (lastSeen g) = Some t /\ t < cutoff).
Proof.
  unfold Background.keepGroup, len. cbv zeta.
  destruct (requests g) as [| r rs]; simpl.
  - destruct (getTime (lastSeen g)) as [t |]; simpl.
    + destruct (t <? cutoff) eqn:E; simpl.
      * apply Z.ltb_lt in E. split; [discriminate |].
        intros Hn. exfalso. apply Hn. eauto.
      * apply Z.ltb_ge in E. split; [| reflexivity].
        intros _ (_ & t' & [= <-] & Hlt). lia.
    + split; [| reflexivity]. intros _ (_ & t & [=] & _).
  - split; [| reflexivity]. intros _ ([=] & _).
Qed.

Lemma shouldKeep_spec now g :
  BackgroundAggressive.shouldKeep now g = true <->
  ~ (JWTUtils.isTokenExpired now (payload g) = true
     /\ BackgroundAggressive.expiredMoreThanAnHour now g = true).
Proof.
  unfold BackgroundAggressive.shouldKeep. cbv zeta.
  destruct (JWTUtils.isTokenExpired now (payload g));
    destruct (BackgroundAggressive.expiredMoreThanAnHour now g); simpl;
    intuition congruence.
Qed.

(** For a group whose stored expiry is the one of its payload, at an
    instant other than the epoch: expired for more than an hour. *)
Lemma expiredMoreThanAnHour_spec now g t :
  expiryDate g = JWTUtils.getExpiryDate (payload g) ->
  JWTUtils.getExpiryDate (payload g) = Some (mkDate (Some t)) ->
  t <> 0 ->
  (BackgroundAggressive.expiredMoreThanAnHour now g = true
   <-> 60 * 60 * 1000 < now - t)
  /\ (BackgroundAggressive.expiredMoreThanAnHour now g = true ->
      JWTUtils.isTokenExpired now (payload g) = true).
Proof.
  intros Hsame Hexp Ht.
  assert (Htime : BackgroundAggressive.expiryTimeOf g = Some t).
  { unfold BackgroundAggressive.expiryTimeOf. rewrite Hsame, Hexp. simpl.
    destruct (t =? 0) eqn:E; [apply Z.eqb_eq in E; contradiction |].
    reflexivity. }
  unfold BackgroundAggressive.expiredMoreThanAnHour,
    JWTUtils.isTokenExpired. cbv zeta. rewrite Htime, Hexp. simpl.
  destruct (t =? 0) eqn:E; [apply Z.eqb_eq in E; contradiction |]. simpl.
  rewrite !Z.ltb_lt. split; [reflexivity | lia].
Qed.

(** C1, as the claim states it, fails on the second background script:
    at the instant 10^12 ms its sweep evicts a group whose credential has
    expired although a request of the group, one minute old, survives the
    pruning, and it keeps a group without surviving request that has been
    idle for ten days. *)
Lemma aggressive_sweep_evicts_on_expiry :
  JWTUtils.isTokenExpired 1000000000000 (payload sample_expired_group) = true
  /\ requests (Background.refreshGroup 1000000000000
                 (cutoff2 1000000000000) sample_expired_group)
     = [sample_request 999999940000]
  /\ requests (Background.refreshGroup 1000000000000
                 (cutoff2 1000000000000) sample_idle_group) = []
  /\ getTime (lastSeen sample_idle_group) = Some 999136000000
  /\ 999136000000 < cutoff2 1000000000000
  /\ tokenGroups
       (BackgroundAggressive.cleanupOldData 1000000000000
          (mkStorage [sample_expired_group; sample_idle_group] None None))
     = [Background.refreshGroup 1000000000000 (cutoff2 1000000000000)
          sample_idle_group].
Proof. vm_compute. repeat split. Qed.

(** The expiry of a payload, spelled out. *)
Lemma getExpiryDate_Some payload d :
  JWTUtils.getExpiryDate payload = Some d <->
  truthy payload = true /\ is_number (prop payload "exp") = true
  /\ Z.abs (to_number (prop payload "exp") * 1000) <= MAX_TIME
  /\ d = mkDate (Some (to_number (prop payload "exp") * 1000)).
Proof.
  unfold JWTUtils.getExpiryDate, Date_of_number, TimeClip.
  destruct (truthy payload); simpl;
    [| split; [discriminate | intros ([=] & _)]].
  destruct (is_number (prop payload "exp")); simpl;
    [| split; [discriminate | intros (_ & [=] & _)]].
  destruct (Z.abs (to_number (prop payload "exp") * 1000) <=? MAX_TIME)
    eqn:E; simpl.
  - apply Z.leb_le in E. split.
    + intros [= <-]. auto.
    + intros (_ & _ & _ & ->). reflexivity.
  - apply Z.leb_gt in E. split; [discriminate |].
    intros (_ & _ & Hle & _). lia.
Qed.

Lemma isTokenExpired_spec now payload :
  JWTUtils.isTokenExpired now payload = true <->
  exists t, JWTUtils.getExpiryDate payload = Some (mkDate (Some t)) /\ t < now.
Proof.
  unfold JWTUtils.isTokenExpired.
  destruct (JWTUtils.getExpiryDate payload) as [d |] eqn:E.
  - destruct (getExpiryDate_valid _ _ E) as (t & ->). simpl.
    rewrite Z.ltb_lt. split.
    + intros Hlt. eauto.
    + now intros (t' & [= <-] & Hlt).
  - split; [discriminate | intros (t & [=] & _)].
Qed.

(** The condition on which the second script removes a group, in terms
    of the data of the group: the expiry [t] of its payload is before now,
    and the expiry instant [e] that the script measures from is not the
    epoch and lies more than an hour before now; [e] is the stored expiry
    when that is a valid date other than the epoch, and [t] otherwise. *)
Lemma shouldKeep_data now g :
  BackgroundAggressive.shouldKeep now g = true <->
  ~ exists t e,
      JWTUtils.getExpiryDate (payload g) = Some (mkDate (Some t))
      /\ t < now /\ e <> 0 /\ 60 * 60 * 1000 < now - e
      /\ ((exists d, expiryDate g = Some d /\ getTime d = Some e)
          \/ ((forall d s, expiryDate g = Some d -> getTime d = Some s ->
                           s = 0)
              /\ e = t)).
Proof.
  rewrite shouldKeep_spec, isTokenExpired_spec.
  apply not_iff_compat.
  unfold BackgroundAggressive.expiredMoreThanAnHour,
    BackgroundAggressive.expiryTimeOf. cbv zeta. split.
  - intros [(t & Hexp & Hlt) Hhour]. exists t.
    apply getExpiryDate_Some in Hexp as Hpay.
    destruct Hpay as (Htruthy & Hnum & _ & [= Ht]).
    rewrite Htruthy, Hnum, <- Ht in Hhour.
    destruct (expiryDate g) as [[[s |]] |] eqn:Ed;
      cbn [getTime isNaN negb BackgroundAggressive.time_truthy] in Hhour.
    + destruct (Z.eqb_spec s 0) as [-> | Hs];
        cbn [negb andb default BackgroundAggressive.time_truthy] in Hhour.
      * destruct (Z.eqb_spec t 0) as [-> | Hz];
          cbn [negb] in Hhour; [discriminate |].
        apply Z.ltb_lt in Hhour.
        exists t. repeat split; auto. right. split; [| reflexivity].
        now intros d' s' [= <-] [= <-].
      * destruct (Z.eqb_spec s 0) as [-> | _]; [contradiction |].
        cbn [negb] in Hhour. apply Z.ltb_lt in Hhour.
        exists s. repeat split; auto. left. eauto.
    + cbn [negb andb default BackgroundAggressive.time_truthy] in Hhour.
      destruct (Z.eqb_spec t 0) as [-> | Hz];
        cbn [negb] in Hhour; [discriminate |].
      apply Z.ltb_lt in Hhour.
      exists t. repeat split; auto. right. split; [| reflexivity].
      intros d' s' [= <-] [=].
    + cbn [negb andb default BackgroundAggressive.time_truthy] in Hhour.
      destruct (Z.eqb_spec t 0) as [-> | Hz];
        cbn [negb] in Hhour; [discriminate |].
      apply Z.ltb_lt in Hhour.
      exists t. repeat split; auto. right. split; [| reflexivity].
      intros d' s' [=].
  - intros (t & e & Hexp & Hlt & Hne & Hhour & Hsrc).
    split; [eauto |].
    apply getExpiryDate_Some in Hexp as Hpay.
    destruct Hpay as (Htruthy & Hnum & _ & [= Ht]).
    rewrite Htruthy, Hnum, <- Ht.
    apply Z.ltb_lt in Hhour as Hhour'.
    assert (Hfrom : forall stored,
              (stored = Some e \/ ((stored = None \/ stored = Some 0) /\ e = t)) ->
              (if BackgroundAggressive.time_truthy
                    (if negb (BackgroundAggressive.time_truthy stored)
                        && true && true
                     then Some t else stored)
               then 60 * 60 * 1000 <?
                    now - default 0
                            (if negb (BackgroundAggressive.time_truthy stored)
                                && true && true
                             then Some t else stored)
               else false) = true).
    { intros stored [-> | [[-> | ->] ->]];
        cbn [negb andb default BackgroundAggressive.time_truthy].
      - destruct (Z.eqb_spec e 0) as [-> | _]; [contradiction |].
        cbn [negb andb default BackgroundAggressive.time_truthy].
        destruct (Z.eqb_spec e 0) as [-> | _]; [contradiction |].
        exact Hhour'.
      - destruct (Z.eqb_spec t 0) as [-> | _]; [contradiction |].
        exact Hhour'.
      - change (0 =? 0) with true.
        cbn [negb andb default BackgroundAggressive.time_truthy].
        destruct (Z.eqb_spec t 0) as [-> | _]; [contradiction |].
        exact Hhour'. }
    destruct (expiryDate g) as [[[s |]] |] eqn:Ed; cbn [getTime isNaN negb].
    + apply Hfrom. destruct Hsrc as [(d & [= <-] & [= <-]) | (Hzero & ->)].
      * now left.
      * right. split; [| reflexivity]. right.
        now rewrite (Hzero _ s eq_refl eq_refl).
    + apply Hfrom. destruct Hsrc as [(d & [= <-] & [=]) | (_ & ->)].
      right. auto.
    + apply Hfrom. destruct Hsrc as [(d & [=] & _) | (_ & ->)].
      right. auto.
Qed.

(** The requests that the pruning leaves. *)
Lemma refreshGroup_request now c g r :
  In r (requests (Background.refreshGroup now c g))
  <-> In r (requests g)
      /\ exists t, getTime (timestamp r) = Some t /\ c < t.
Proof.
  unfold Background.refreshGroup. simpl.
  rewrite filter_In. unfold num_gt, num_lt.
  destruct (getTime (timestamp r)) as [t |].
  - rewrite Z.ltb_lt. split.
    + intros [Hin Hlt]. eauto.
    + intros (Hin & t' & [= <-] & Hlt). auto.
  - split; [intros [_ [=]] | intros (_ & t' & [=] & _)].
Qed.

(** C1 (amended).  Either sweep replaces every group by the group pruned:
    its requests are those of its requests that were observed after the
    cut-off, which is twenty-four hours before now in
    src/background/background.ts and two hours before now in the second
    background script.  The sweep of src/background/background.ts then
    evicts a group if and only if no request of the group survives and its
    [lastSeen] is before the cut-off; so a group whose credential has
    expired but that holds a request observed after the cut-off is kept.
    The sweep of the second background script evicts a group if and only
    if the expiry of its payload is before now and the expiry instant it
    measures from (the stored expiry when that is a valid date other than
    the epoch, the expiry of the payload otherwise) is not the epoch and is
    more than an hour before now, whatever requests the group holds; for a
    group whose stored expiry is the one of its payload that is: if and
    only if the expiry is not the epoch and is more than an hour before
    now. *)
Theorem sweep_eviction now st g :
  In g (tokenGroups st) ->
  (forall c r,
     In r (requests (Background.refreshGroup now c g))
     <-> In r (requests g)
         /\ exists t, getTime (timestamp r) = Some t /\ c < t)
  /\ (forall g',
        In g' (tokenGroups (Background.cleanupOldData now st)) ->
        exists g0, In g0 (tokenGroups st)
                   /\ g' = Background.refreshGroup now (cutoff24 now) g0)
  /\ (forall g',
        In g' (tokenGroups (BackgroundAggressive.cleanupOldData now st)) ->
        exists g0, In g0 (tokenGroups st)
                   /\ g' = Background.refreshGroup now (cutoff2 now) g0)
  /\ (In (Background.refreshGroup now (cutoff24 now) g)
         (tokenGroups (Background.cleanupOldData now st))
      <-> ~ (requests (Background.refreshGroup now (cutoff24 now) g) = []
             /\ exists t, getTime (lastSeen g) = Some t /\ t < cutoff24 now))
  /\ ((exists r t, In r (requests g) /\ getTime (timestamp r) = Some t
                   /\ cutoff24 now < t) ->
      In (Background.refreshGroup now (cutoff24 now) g)
         (tokenGroups (Background.cleanupOldData now st)))
  /\ (In (Background.refreshGroup now (cutoff2 now) g)
         (tokenGroups (BackgroundAggressive.cleanupOldData now st))
      <-> ~ exists t e,
              JWTUtils.getExpiryDate (payload g) = Some (mkDate (Some t))
              /\ t < now /\ e <> 0 /\ 60 * 60 * 1000 < now - e
              /\ ((exists d, expiryDate g = Some d /\ getTime d = Some e)
                  \/ ((forall d s, expiryDate g = Some d ->
                                   getTime d = Some s -> s = 0)
                      /\ e = t)))
  /\ (expiryDate g = JWTUtils.getExpiryDate (payload g) ->
      (In (Background.refreshGroup now (cutoff2 now) g)
          (tokenGroups (BackgroundAggressive.cleanupOldData now st))
       <-> ~ exists t,
               JWTUtils.getExpiryDate (payload g) = Some (mkDate (Some t))
               /\ t <> 0 /\ 60 * 60 * 1000 < now - t)).
Proof.
  intros Hg.
  assert (Hkeep :
    In (Background.refreshGroup now (cutoff24 now) g)
       (tokenGroups (Background.cleanupOldData now st))
    <-> ~ (requests (Background.refreshGroup now (cutoff24 now) g) = []
           /\ exists t, getTime (lastSeen g) = Some t /\ t < cutoff24 now)).
  { unfold Background.cleanupOldData. cbv zeta. fold (cutoff24 now).
    cbn [tokenGroups with_tokenGroups].
    rewrite filter_In, keepGroup_spec. split.
    - now intros [_ Hk].
    - intros Hk. split; [| exact Hk]. now apply in_map. }
  assert (Hkeep2 :
    In (Background.refreshGroup now (cutoff2 now) g)
       (tokenGroups (BackgroundAggressive.cleanupOldData now st))
    <-> ~ exists t e,
            JWTUtils.getExpiryDate (payload g) = Some (mkDate (Some t))
            /\ t < now /\ e <> 0 /\ 60 * 60 * 1000 < now - e
            /\ ((exists d, expiryDate g = Some d /\ getTime d = Some e)
                \/ ((forall d s, expiryDate g = Some d ->
                                 getTime d = Some s -> s = 0)
                    /\ e = t))).
  { unfold BackgroundAggressive.cleanupOldData. cbv zeta. fold (cutoff2 now).
    cbn [tokenGroups with_tokenGroups].
    rewrite filter_In, shouldKeep_data.
    change (expiryDate (Background.refreshGroup now (cutoff2 now) g))
      with (expiryDate g).
    change (payload (Background.refreshGroup now (cutoff2 now) g))
      with (payload g).
    split.
    - now intros [_ Hk].
    - intros Hk. split; [| exact Hk]. now apply in_map. }
  split; [intros c r; apply refreshGroup_request |].
  split.
  { intros g' Hg'. unfold Background.cleanupOldData in Hg'. cbv zeta in Hg'.
    cbn [tokenGroups with_tokenGroups] in Hg'.
    apply filter_In in Hg' as [Hg' _].
    apply in_map_iff in Hg' as (g0 & <- & Hg0). eauto. }
  split.
  { intros g' Hg'. unfold BackgroundAggressive.cleanupOldData in Hg'.
    cbv zeta in Hg'. cbn [tokenGroups with_tokenGroups] in Hg'.
    apply filter_In in Hg' as [Hg' _].
    apply in_map_iff in Hg' as (g0 & <- & Hg0). eauto. }
  split; [exact Hkeep |]. split.
  { intros (r & t & Hr & Ht & Hlt). apply Hkeep. intros [Hnil _].
    assert (Hin : In r (requests
                          (Background.refreshGroup now (cutoff24 now) g))).
    { apply refreshGroup_request. eauto. }
    rewrite Hnil in Hin. destruct Hin. }
  split; [exact Hkeep2 |].
  intros Hsame. rewrite Hkeep2. apply not_iff_compat. split.
  - intros (t & e & Hexp & Hlt & Hne & Hhour & Hsrc). exists t.
    split; [exact Hexp |].
    destruct Hsrc as [(d & Hd & He) | (_ & ->)]; [| auto].
    rewrite Hsame, Hexp in Hd. injection Hd as <-. simpl in He.
    injection He as <-. auto.
  - intros (t & Hexp & Hne & Hhour). exists t, t.
    split; [exact Hexp |]. split; [lia |]. split; [exact Hne |].
    split; [exact Hhour |]. left. exists (mkDate (Some t)).
    split; [congruence | reflexivity].
Qed.

(** The amended C1 at the expired group used a minute ago: the sweep of
    src/background/background.ts keeps it. *)
Lemma sweep_eviction_witness :
  In (Background.refreshGroup 1000000000000 (cutoff24 1000000000000)
        sample_expired_group)
     (tokenGroups
        (Background.cleanupOldData 1000000000000
           (mkStorage [sample_expired_group; sample_idle_group] None None))).
Proof.
  destruct (sweep_eviction 1000000000000
              (mkStorage [sample_expired_group; sample_idle_group] None None)
              sample_expired_group) as (_ & _ & _ & _ & Hrecent & _).
  - now left.
  - apply Hrecent.
    exists (sample_request 999999940000), 999999940000.
    split; [now left |]. split; [reflexivity |]. vm_compute. reflexivity.
Defined.

(** ** The index: the cap on the number of groups *)

Lemma take_app_take {A} n (l k : list A) :
  take n (l ++ take n k) = take n (l ++ k).
Proof.
  rewrite !take_app, take_take. f_equal. f_equal. lia.
Qed.

Lemma groupIndex_absent token st :
  groupIndex token st < 0 <->
  Forall (fun g : JWTTokenGroup =>
            tokenId g <> JWTUtils.generateTokenId token) (tokenGroups st).
Proof.
  unfold groupIndex. rewrite findIndex_absent.
  apply Forall_iff. intros g. apply String.eqb_neq.
Qed.

Section GroupCap.
Context `{Host}.

Lemma newGroups_cons e events g :
  JWTUtils.createTokenGroup (ev_now e) (ev_token e) (ev_request e) = Some g ->
  newGroups (e :: events) = g :: newGroups events.
Proof. unfold newGroups. simpl. now intros ->. Qed.

Lemma newGroups_identities events :
  Forall (fun e => is_Some (JWTUtils.parseJWT (ev_token e))) events ->
  map tokenId (newGroups events) = identities events.
Proof.
  induction 1 as [| e events [parsed Hp] _ IH]; [reflexivity |].
  destruct (JWTUtils.createTokenGroup (ev_now e) (ev_token e) (ev_request e))
    as [g |] eqn:Eg.
  - rewrite (newGroups_cons _ _ _ Eg). simpl. rewrite IH. f_equal.
    now apply createTokenGroup_fields in Eg as (-> & _).
  - apply createTokenGroup_None in Eg. congruence.
Qed.

(** Events with identities that are new to the index and differ from one
    another each put a group at the front; the sequence is cut to its first
    hundred groups. *)
Lemma upserts_new_identities events st :
  (length (tokenGroups st) <= 100)%nat ->
  NoDup (identities events) ->
  Forall (fun e => is_Some (JWTUtils.parseJWT (ev_token e))) events ->
  Forall (fun e => groupIndex (ev_token e) st < 0) events ->
  tokenGroups (upserts events st)
  = take 100 (rev (newGroups events) ++ tokenGroups st).
Proof.
  revert st.
  induction events as [| e events IH]; intros st Hcap Hnd Hparse Hnew.
  - simpl. now rewrite take_ge.
  - inversion Hparse as [| ? ? [parsed Hp] Hparse']; subst.
    inversion Hnew as [| ? ? Habsent Hnew']; subst.
    apply NoDup_cons in Hnd as [Hfresh Hnd].
    destruct (JWTUtils.createTokenGroup (ev_now e) (ev_token e)
                (ev_request e)) as [g |] eqn:Eg;
      [| apply createTokenGroup_None in Eg; congruence].
    assert (Hst' : tokenGroups (upsert st e) = take 100 (g :: tokenGroups st)).
    { unfold upsert. now rewrite storeTokenData_absent, Eg. }
    change (upserts (e :: events) st) with (upserts events (upsert st e)).
    rewrite IH, Hst'; [| rewrite Hst', length_take; lia | exact Hnd
                       | exact Hparse' |].
    + rewrite take_app_take, (newGroups_cons _ _ _ Eg). simpl.
      now rewrite <- app_assoc.
    + apply Forall_forall. intros e' He'.
      apply groupIndex_absent. rewrite Hst'. apply Forall_take.
      constructor.
      * apply createTokenGroup_fields in Eg as (-> & _).
        intros Heq. apply Hfresh. unfold identities.
        rewrite Heq. apply list_elem_of_fmap. eauto.
      * apply groupIndex_absent.
        rewrite Forall_forall in Hnew'. now apply Hnew'.
Qed.

(** C2.  When more than a hundred upserts carry credentials that decode,
    with identities that differ from one another and that the index does
    not hold, the index afterwards holds exactly a hundred groups: those of
    the hundred identities inserted last, the most recent first.  Each
    group is the one its upsert created and put at the front; the groups
    beyond the hundredth are cut off by position, whatever their expiry and
    their requests. *)
Theorem group_cap events st :
  (length (tokenGroups st) <= 100)%nat ->
  NoDup (identities events) ->
  Forall (fun e => is_Some (JWTUtils.parseJWT (ev_token e))) events ->
  Forall (fun e => groupIndex (ev_token e) st < 0) events ->
  (100 < length events)%nat ->
  length (tokenGroups (upserts events st)) = 100%nat
  /\ map tokenId (tokenGroups (upserts events st))
     = take 100 (rev (identities events))
  /\ tokenGroups (upserts events st) = take 100 (rev (newGroups events)).
Proof.
  intros Hcap Hnd Hparse Hnew Hlen.
  pose proof (newGroups_identities events Hparse) as Hids.
  assert (Hn : length (newGroups events) = length events).
  { rewrite <- (length_map tokenId), Hids. apply length_map. }
  assert (Heq : tokenGroups (upserts events st)
                = take 100 (rev (newGroups events))).
  { rewrite upserts_new_identities by assumption.
    apply take_app_le. rewrite length_rev. lia. }
  rewrite Heq. repeat split.
  - rewrite length_take, length_rev. lia.
  - rewrite <- Hids, <- map_rev. apply fmap_take.
Qed.

End GroupCap.

Lemma numbered_token_split k :
  split_dot (numbered_token k) = ["e30"; "e30"; repeat_char "s" k].
Proof.
  apply split_dot_credential.
  - unfold no_dot. simpl. intuition discriminate.
  - unfold no_dot. simpl. intuition discriminate.
  - unfold no_dot, chars. induction k as [| k IH]; simpl; [tauto |].
    intros [Hc | Hin]; [discriminate | auto].
Qed.

Lemma numbered_token_parses k :
  JWTUtils.parseJWT (H:=ReferenceHost) (numbered_token k)
  = Some (JWTUtils.mkParsed (JObj []) (JObj []) (repeat_char "s" k)).
Proof.
  unfold JWTUtils.parseJWT, JWTUtils.parseJWT_try.
  rewrite numbered_token_split. reflexivity.
Qed.

(** C2 at a hundred and one numbered credentials and the empty index. *)
Lemma group_cap_witness :
  length (tokenGroups (upserts (H:=ReferenceHost) (numbered_events 101)
                         emptyIndex)) = 100%nat
  /\ map tokenId (tokenGroups (upserts (H:=ReferenceHost)
                                 (numbered_events 101) emptyIndex))
     = take 100 (rev (identities (numbered_events 101))).
Proof.
  destruct (group_cap (H:=ReferenceHost) (numbered_events 101) emptyIndex)
    as (Hlen & Hids & _).
  - simpl. lia.
  - apply (bool_decide_unpack _). vm_compute. exact I.
  - apply Forall_forall. intros e He.
    apply list_elem_of_fmap in He as (k & -> & _). simpl.
    rewrite numbered_token_parses. eauto.
  - apply Forall_forall. intros e _. apply groupIndex_absent. constructor.
  - unfold numbered_events. rewrite length_map, length_seq. lia.
  - split; assumption.
Defined.

(** ** The index: the cap on the requests of a group *)

Lemma findIndex_take {A} (p : A -> bool) l i n :
  findIndex p l = Z.of_nat i -> (i < n)%nat ->
  findIndex p (take n l) = Z.of_nat i.
Proof.
  revert i n. induction l as [| x l IH]; intros i n Hi Hn; simpl in Hi;
    [lia |].
  destruct n as [| n]; [lia |]. simpl.
  destruct (p x); [exact Hi |].
  pose proof (findIndex_lower p l).
  destruct (findIndex p l <? 0) eqn:E; [lia |]. apply Z.ltb_ge in E.
  destruct i as [| i]; [lia |].
  rewrite (IH i n) by lia.
  destruct (Z.of_nat i <? 0) eqn:E'; [apply Z.ltb_lt in E'; lia | lia].
Qed.

(** One more request: what is kept and what is dropped. *)
Lemma appended_step r rs dropped :
  Forall valid_request (rs ++ [r]) ->
  most_recent rs dropped ->
  ((length rs < 50)%nat -> dropped = []) ->
  exists dropped',
    Permutation (rs ++ [r] ++ dropped) (appended r rs ++ dropped')
    /\ most_recent (appended r rs) dropped'
    /\ ((length (appended r rs) < 50)%nat -> dropped' = []).
Proof.
  intros Hv Htop Hsmall.
  destruct (Z.lt_ge_cases (len rs) 50) as [Hlt | Hge].
  - (* within the cap: appended at the end, nothing dropped so far *)
    rewrite appended_below_cap by exact Hlt.
    rewrite Hsmall by (unfold len in Hlt; lia).
    exists []. split; [now rewrite app_assoc |].
    split; [intros k d _ [] | reflexivity].
  - destruct (appended_at_cap r rs Hge) as [Heq Hlen].
    pose proof (Array_sort_sorted _ Hv) as Hs.
    pose proof (Array_sort_Permutation newest_first (rs ++ [r])) as Hp.
    set (S := Array_sort newest_first (rs ++ [r])) in *.
    assert (Hsplit : S = appended r rs ++ drop 50 S).
    { rewrite Heq. unfold slice0. symmetry. apply take_drop. }
    exists (drop 50 S ++ dropped). repeat split.
    + rewrite (app_assoc rs), <- Hp, Hsplit at 1. now rewrite <- app_assoc.
    + intros k d Hk Hd. apply in_app_or in Hd as [Hd | Hd].
      * (* dropped by this step: the list was sorted *)
        rewrite Hsplit in Hs.
        apply (StronglySorted_app_1_elem_of _ _ _ k d Hs);
          now apply list_elem_of_In.
      * (* dropped before *)
        assert (Hk' : In k (rs ++ [r])).
        { apply (Permutation_in _ Hp). rewrite Hsplit.
          apply in_or_app. now left. }
        apply in_app_or in Hk' as [Hk' | [Hkr | []]]; [now apply Htop |].
        subst k.
        (* the request just stored is kept: something older went *)
        destruct (drop 50 S) as [| x D] eqn:ED.
        { exfalso. apply (f_equal (@length _)) in Hsplit.
          rewrite app_nil_r, Hlen in Hsplit. unfold S in Hsplit.
          rewrite Array_sort_length, length_app in Hsplit.
          unfold len in Hge. simpl in Hsplit. lia. }
        assert (Hxr : observedAt x <= observedAt r).
        { rewrite Hsplit in Hs.
          apply (StronglySorted_app_1_elem_of _ _ _ r x Hs);
            [now apply list_elem_of_In | left]. }
        assert (Hx : In x (rs ++ [r])).
        { apply (Permutation_in _ Hp). rewrite Hsplit.
          apply in_or_app. right. now left. }
        apply in_app_or in Hx as [Hx | [Hxeq | []]].
        -- specialize (Htop x d Hx Hd). lia.
        -- subst x. apply Htop; [| exact Hd].
           apply in_split in Hk as (K1 & K2 & HK).
           rewrite HK in Hsplit.
           assert (Hp' : Permutation (r :: rs) (K1 ++ r :: K2 ++ r :: D)).
           { rewrite <- app_assoc in Hsplit. simpl in Hsplit.
             rewrite <- Hsplit, Hp. apply Permutation_cons_append. }
           apply Permutation_cons_app_inv in Hp'.
           apply (Permutation_in _ (Permutation_sym Hp')).
           apply in_or_app. right. apply in_or_app. right. now left.
    + rewrite Hlen. lia.
Qed.

Lemma appended_all_snoc rs reqs r :
  appended_all rs (reqs ++ [r]) = appended r (appended_all rs reqs).
Proof. unfold appended_all. now rewrite fold_left_app. Qed.

Lemma appended_all_in rs reqs x :
  In x (appended_all rs reqs) -> In x (rs ++ reqs).
Proof.
  revert rs. induction reqs as [| r reqs IH]; intros rs Hx; simpl in *.
  - now rewrite app_nil_r.
  - apply IH in Hx. apply in_app_or in Hx as [Hx | Hx].
    + assert (Hstep : In x (rs ++ [r])).
      { unfold appended in Hx. cbv zeta in Hx.
        destruct (50 <? len (rs ++ [r])); [| exact Hx].
        unfold slice0 in Hx. apply list_elem_of_In in Hx.
        apply list_elem_of_In.
        rewrite <- (Array_sort_Permutation newest_first (rs ++ [r])).
        eapply subseteq_take, Hx. }
      apply in_app_or in Hstep as [Hrs | [<- | []]];
        apply in_or_app; [now left | right; now left].
    + apply in_or_app. right. now right.
Qed.

(** A run of requests: what is kept is a selection of the most recent. *)
Lemma appended_all_spec rs reqs :
  Forall valid_request (rs ++ reqs) ->
  exists dropped,
    Permutation (rs ++ reqs) (appended_all rs reqs ++ dropped)
    /\ most_recent (appended_all rs reqs) dropped
    /\ ((length (appended_all rs reqs) < 50)%nat -> dropped = []).
Proof.
  induction reqs as [| r reqs IH] using rev_ind; intros Hv.
  - exists []. simpl. split; [reflexivity |].
    split; [intros k d _ [] | reflexivity].
  - rewrite app_assoc in Hv. apply Forall_app in Hv as [Hv Hr].
    destruct (IH Hv) as (dropped & Hp & Htop & Hsmall).
    rewrite appended_all_snoc.
    destruct (appended_step r (appended_all rs reqs) dropped)
      as (dropped' & Hp' & Htop' & Hsmall'); auto.
    { apply Forall_app. split; [| exact Hr].
      apply Forall_forall. intros x Hx.
      rewrite Forall_forall in Hv. apply Hv.
      apply list_elem_of_In. apply list_elem_of_In in Hx.
      now apply appended_all_in. }
    exists dropped'. split; [| now split].
    rewrite <- Hp'. rewrite (app_assoc rs reqs [r]), Hp.
    rewrite <- !app_assoc. apply Permutation_app_head, Permutation_app_comm.
Qed.

Lemma appended_all_length rs reqs :
  reqs <> [] ->
  length (appended_all rs reqs) = Nat.min 50 (length rs + length reqs).
Proof.
  induction reqs as [| r reqs IH] using rev_ind; [congruence |].
  intros _. rewrite appended_all_snoc, length_app. cbn [length].
  assert (Hstep : forall l, length (appended r l) = Nat.min 50 (length l + 1)).
  { intros l. destruct (Z.lt_ge_cases (len l) 50) as [Hlt | Hge].
    - rewrite appended_below_cap, length_app by exact Hlt.
      unfold len in Hlt. cbn [length]. lia.
    - destruct (appended_at_cap r l Hge) as [_ ->]. unfold len in Hge. lia. }
  rewrite Hstep. destruct reqs as [| r' reqs'].
  - cbn [appended_all fold_left length]. lia.
  - rewrite IH by discriminate. lia.
Qed.

Section RequestCap.
Context `{Host}.

Lemma groupIndex_same_identity token token' st :
  JWTUtils.generateTokenId token' = JWTUtils.generateTokenId token ->
  groupIndex token' st = groupIndex token st.
Proof. unfold groupIndex. now intros ->. Qed.

(** Upserts with the identity of a group rewrite that group in place. *)
Lemma upserts_same_identity events token st i g :
  groupIndex token st = Z.of_nat i -> (i < 100)%nat ->
  tokenGroups st !! i = Some g ->
  Forall (fun e => JWTUtils.generateTokenId (ev_token e)
                   = JWTUtils.generateTokenId token) events ->
  exists g',
    tokenGroups (upserts events st) !! i = Some g'
    /\ requests g' = appended_all (requests g) (map ev_request events)
    /\ tokenId g' = tokenId g
    /\ firstSeen g' = firstSeen g.
Proof.
  intros Hi Hlt. revert st g Hi.
  induction events as [| e events IH]; intros st g Hi Hg Hid.
  - exists g. auto.
  - inversion Hid as [| ? ? He Hid']; subst.
    change (upserts (e :: events) st) with (upserts events (upsert st e)).
    assert (Hi' : groupIndex (ev_token e) st = Z.of_nat i)
      by now rewrite (groupIndex_same_identity _ _ _ He).
    pose proof (storeTokenData_group (ev_now e) (ev_token e) (ev_request e)
                  st i g Hi' Hlt Hg) as Hg'.
    destruct (updateExistingGroup_fields (ev_now e) (ev_token e)
                (ev_request e) g) as (Hid1 & _ & _ & Hfirst & _).
    destruct (IH (upsert st e)
                (Background.updateExistingGroup (ev_now e) (ev_token e)
                   (ev_request e) g)) as (g' & Hl & Hreq & Htid & Hfs).
    + unfold upsert, groupIndex.
      rewrite storeTokenData_present by (rewrite Hi'; lia).
      rewrite Hi', Nat2Z.id. apply findIndex_take; [| exact Hlt].
      rewrite findIndex_alter; [exact Hi |].
      intros x.
      now destruct (updateExistingGroup_fields (ev_now e) (ev_token e)
                      (ev_request e) x) as (-> & _).
    + exact Hg'.
    + exact Hid'.
    + exists g'. split; [exact Hl |].
      rewrite Hreq, updateExistingGroup_requests, Htid, Hfs.
      repeat split; congruence.
Qed.

(** C7.  After sixty requests are appended to a group by upserts with its
    identity, the request list of the group holds exactly fifty records,
    and they are the most recent by instant of observation among the
    records the group held and the sixty appended: every record that was
    dropped was observed no later than any record that is kept. *)
Theorem per_group_request_cap events token st i g :
  groupIndex token st = Z.of_nat i -> (i < 100)%nat ->
  tokenGroups st !! i = Some g ->
  Forall (fun e => JWTUtils.generateTokenId (ev_token e)
                   = JWTUtils.generateTokenId token) events ->
  Forall valid_request (requests g ++ map ev_request events) ->
  length events = 60%nat ->
  exists g' dropped,
    tokenGroups (upserts events st) !! i = Some g'
    /\ length (requests g') = 50%nat
    /\ Permutation (requests g ++ map ev_request events)
         (requests g' ++ dropped)
    /\ most_recent (requests g') dropped.
Proof.
  intros Hi Hlt Hg Hid Hv Hlen.
  destruct (upserts_same_identity events token st i g Hi Hlt Hg Hid)
    as (g' & Hl & Hreq & _).
  destruct (appended_all_spec _ _ Hv) as (dropped & Hp & Htop & _).
  exists g', dropped. rewrite Hreq. repeat split; auto.
  rewrite appended_all_length, length_map, Hlen; [lia |].
  destruct events; [discriminate | discriminate].
Qed.

End RequestCap.

(** C7 at the index that holds one request, observed at 2000, and sixty
    further requests, observed at the instants 1 to 60: what is dropped
    (eleven records) was observed before what is kept. *)
Lemma per_group_request_cap_witness :
  exists g' dropped,
    tokenGroups (upserts (H:=ReferenceHost) (sample_events sample_token 60)
                   sample_index_1) !! 0%nat = Some g'
    /\ length (requests g') = 50%nat
    /\ length dropped = 11%nat
    /\ most_recent (requests g') dropped.
Proof.
  destruct (tokenGroups sample_index_1 !! 0%nat) as [g |] eqn:Eg;
    [| discriminate].
  destruct (per_group_request_cap (H:=ReferenceHost)
              (sample_events sample_token 60) sample_token sample_index_1
              0%nat g)
    as (g' & dropped & Hl & Hlen & Hp & Htop).
  - vm_compute. reflexivity.
  - lia.
  - exact Eg.
  - apply Forall_forall. intros e He.
    now apply list_elem_of_fmap in He as (k & -> & _).
  - injection Eg as <-. apply Forall_app. split.
    + repeat constructor.
    + unfold sample_events. rewrite map_map. cbn [ev_request].
      apply Forall_forall. intros x Hx.
      now apply list_elem_of_fmap in Hx as (k & -> & _).
  - unfold sample_events. now rewrite length_map, length_seq.
  - exists g', dropped. repeat split; auto.
    apply Permutation_length in Hp.
    injection Eg as <-.
    rewrite !length_app, Hlen, length_map in Hp.
    unfold sample_events in Hp. rewrite length_map, length_seq in Hp.
    cbn [length requests] in Hp. lia.
Defined.

(** ** Loading a snapshot *)

Section Load.
Context `{Host}.

(** [parseDate] returns a valid date or nothing. *)
Lemma parseDate_valid v d : Popup.parseDate v = Some d -> valid_date d.
Proof.
  unfold Popup.parseDate, valid_date.
  destruct (negb (raw_truthy v)); [discriminate |].
  destruct v as [| | n | s | d0]; simpl.
  - discriminate.
  - intros [= <-]. simpl. eauto.
  - destruct (TimeClip n) as [t |] eqn:E; simpl; [| discriminate].
    intros [= <-]. unfold Date_of_number. rewrite E. simpl. eauto.
  - destruct (Date_parse s) as [t |]; simpl; [| discriminate].
    intros [= <-]. simpl. eauto.
  - destruct (getTime d0) as [t |] eqn:E; simpl; [| discriminate].
    intros [= <-]. eauto.
Qed.

Lemma parseDate_unparseable s :
  Date_parse s = None -> Popup.parseDate (RawString s) = None.
Proof.
  intros Hs. unfold Popup.parseDate.
  destruct (negb (raw_truthy (RawString s))); [reflexivity |].
  simpl. now rewrite Hs.
Qed.

Lemma parseDate_usable v :
  Popup.parseDate v = if usable v then Some (new_Date v) else None.
Proof.
  unfold Popup.parseDate, usable.
  destruct (raw_truthy v); simpl; [| reflexivity].
  destruct v as [| | n | s | d]; simpl; try reflexivity.
  - now destruct (isNaN (TimeClip n)).
  - now destruct (isNaN (Date_parse s)).
  - now destruct (isNaN (getTime d)).
Qed.

(** The loader of the popup, instant by instant.  A stored instant that
    is present and parses is loaded as the date it denotes.  Any other
    stored expiry (a missing one, [null], the number 0, the empty text, a
    text that does not parse, an invalid date) is loaded as absent, and
    any other [firstSeen], [lastSeen] or instant of a request is loaded as
    the current instant; the other fields of a request stay.  So every
    instant of a loaded group is valid. *)
Lemma Popup_loadGroup_defensive now (group : RawGroup) :
  Z.abs now <= MAX_TIME ->
  let g := Popup.loadGroup now group in
  let loaded v := if usable v then new_Date v else Date_of_number now in
  expiryDate g
  = (if usable (expiryDate group)
     then Some (new_Date (expiryDate group)) else None)
  /\ firstSeen g = loaded (firstSeen group)
  /\ lastSeen g = loaded (lastSeen group)
  /\ requests g
     = map (fun req : RawRequest => with_timestamp (loaded (timestamp req)) req)
         (requests group)
  /\ (forall d, expiryDate g = Some d -> valid_date d)
  /\ valid_date (firstSeen g) /\ valid_date (lastSeen g)
  /\ Forall (fun r : RequestInfo => valid_date (timestamp r)) (requests g)
  /\ (forall s, Date_parse s = None ->
        usable (RawString s) = false
        /\ (expiryDate group = RawString s -> expiryDate g = None)
        /\ (firstSeen group = RawString s ->
            firstSeen g = Date_of_number now)
        /\ (lastSeen group = RawString s ->
            lastSeen g = Date_of_number now)
        /\ (forall req, In req (requests group) ->
              timestamp req = RawString s ->
              In (with_timestamp (Date_of_number now) req) (requests g))).
Proof.
  intros Hnow. cbv zeta.
  assert (Hor : forall v, valid_date (Popup.or_now now (Popup.parseDate v))).
  { intros v. destruct (Popup.parseDate v) as [d |] eqn:E; simpl.
    - now apply parseDate_valid in E.
    - exists now. unfold Date_of_number, TimeClip. simpl.
      destruct (Z.abs now <=? MAX_TIME) eqn:E'; [reflexivity |].
      apply Z.leb_gt in E'. lia. }
  assert (Hloaded : forall v,
            Popup.or_now now (Popup.parseDate v)
            = if usable v then new_Date v else Date_of_number now).
  { intros v. rewrite parseDate_usable. now destruct (usable v). }
  assert (Hreqs :
    requests (Popup.loadGroup now group)
    = map (fun req : RawRequest =>
             with_timestamp
               (if usable (timestamp req) then new_Date (timestamp req)
                else Date_of_number now) req) (requests group)).
  { unfold Popup.loadGroup. cbn [requests]. apply map_ext. intros req.
    now rewrite Hloaded. }
  assert (Hstring : forall s, Date_parse s = None ->
                              usable (RawString s) = false).
  { intros s Hs. unfold usable. simpl. rewrite Hs. simpl.
    apply andb_false_r. }
  split; [apply parseDate_usable |].
  split; [apply Hloaded |]. split; [apply Hloaded |].
  split; [exact Hreqs |].
  unfold Popup.loadGroup at 1 2 3. cbn [expiryDate firstSeen lastSeen].
  split; [intros d Hd; now apply parseDate_valid in Hd |].
  split; [apply Hor |]. split; [apply Hor |]. split.
  - unfold Popup.loadGroup. cbn [requests].
    apply List.Forall_forall. intros r Hr.
    apply in_map_iff in Hr as (req & <- & _). apply Hor.
  - intros s Hs. split; [now apply Hstring |].
    unfold Popup.loadGroup at 1 2 3. cbn [expiryDate firstSeen lastSeen].
    split; [intros ->; now apply parseDate_unparseable |].
    split; [intros ->; now rewrite parseDate_unparseable |].
    split; [intros ->; now rewrite parseDate_unparseable |].
    intros req Hreq Hts. rewrite Hreqs. apply in_map_iff. exists req.
    split; [| exact Hreq]. now rewrite Hts, (Hstring s Hs).
Qed.

(** The loader of the background script hands an instant that does not
    parse on as an invalid date. *)
Lemma Background_getStorage_unparseable s (group : RawGroup) data :
  Date_parse s = None -> s <> EmptyString ->
  expiryDate group = RawString s -> lastSeen group = RawString s ->
  In group (tokenGroups data) ->
  exists g,
    In g (tokenGroups (Background.getStorage (Some data)))
    /\ tokenId g = tokenId group
    /\ expiryDate g = Some InvalidDate
    /\ lastSeen g = InvalidDate.
Proof.
  intros Hs Hne He Hl Hin.
  unfold Background.getStorage. cbn [tokenGroups with_tokenGroups].
  eexists. split; [apply in_map, Hin |].
  cbn [tokenId expiryDate lastSeen]. rewrite He, Hl. simpl.
  apply String.eqb_neq in Hne. rewrite Hne. simpl.
  unfold InvalidDate. now rewrite Hs.
Qed.

End Load.

(** C9 fails on the loader of the background script at a snapshot whose
    instants are the text "not-a-date": nothing is raised, but the expiry
    comes back as an invalid date, not as absent, and [firstSeen],
    [lastSeen] and the instant of the request come back as invalid dates,
    not as the current instant; the next sweep then prunes the request,
    which a request observed at the current instant would survive.  The
    loader of the popup treats the same snapshot as the claim says. *)
Theorem getStorage_keeps_unparseable_instants :
  Reference.Date_parse "not-a-date" = None
  /\ exists g r,
       tokenGroups (Background.getStorage (H:=ReferenceHost)
                      (Some sample_corrupt_snapshot)) = [g]
       /\ requests g = [r]
       /\ expiryDate g = Some InvalidDate
       /\ firstSeen g = InvalidDate
       /\ lastSeen g = InvalidDate
       /\ timestamp r = InvalidDate
       /\ map requests
            (tokenGroups
               (Background.cleanupOldData 1000000000000
                  (Background.getStorage (H:=ReferenceHost)
                     (Some sample_corrupt_snapshot)))) = [[]]
       /\ exists g' r',
            tokenGroups (Popup.getStorage (H:=ReferenceHost) 1000000000000
                           (Some sample_corrupt_snapshot)) = [g']
            /\ requests g' = [r']
            /\ expiryDate g' = None
            /\ firstSeen g' = mkDate (Some 1000000000000)
            /\ lastSeen g' = mkDate (Some 1000000000000)
            /\ timestamp r' = mkDate (Some 1000000000000).
Proof.
  split; [vm_compute; reflexivity |].
  vm_compute. do 2 eexists. repeat split. do 2 eexists. repeat split.
Qed.

(** ** Further properties of the index *)

(** The index unchanged by an undecodable credential of a new identity, at
    a credential without dots and the index that holds one group. *)
Lemma storeTokenData_undecodable_new_witness :
  Background.storeTokenData (H:=ReferenceHost) 3000 "garbage"
    (sample_request 2500) sample_index_1 = sample_index_1.
Proof.
  apply (storeTokenData_undecodable_new (H:=ReferenceHost)).
  - vm_compute. reflexivity.
  - vm_compute. reflexivity.
  - vm_compute. lia.
Defined.

(** The loader of the popup at the group of the corrupt snapshot, all of
    whose instants are a text that does not parse. *)
Lemma Popup_loadGroup_defensive_witness :
  expiryDate (Popup.loadGroup (H:=ReferenceHost) 1000000000000
                sample_corrupt_group) = None
  /\ lastSeen (Popup.loadGroup (H:=ReferenceHost) 1000000000000
                 sample_corrupt_group)
     = Date_of_number 1000000000000
  /\ map timestamp
       (requests (Popup.loadGroup (H:=ReferenceHost) 1000000000000
                    sample_corrupt_group))
     = [Date_of_number 1000000000000].
Proof.
  destruct (Popup_loadGroup_defensive (H:=ReferenceHost) 1000000000000
              sample_corrupt_group)
    as (_ & _ & _ & Hreqs & _ & _ & _ & _ & Hs).
  - vm_compute. discriminate.
  - destruct (Hs "not-a-date" eq_refl) as (_ & He & _ & Hl & _).
    split; [auto |]. split; [auto |]. rewrite Hreqs. reflexivity.
Defined.

Section Invariants.
Context `{Host}.

(** An upsert keeps the identities of the index distinct and the index
    within its cap. *)
Theorem upsert_keeps_index_invariants now token r st :
  NoDup (map tokenId (tokenGroups st)) ->
  NoDup (map tokenId (tokenGroups (Background.storeTokenData now token r st)))
  /\ (length (tokenGroups (Background.storeTokenData now token r st))
      <= 100)%nat.
Proof.
  intros Hnd.
  assert (Htake : forall gs : list JWTTokenGroup,
            NoDup (map tokenId gs) ->
            NoDup (map tokenId (take 100 gs))
            /\ (length (take 100 gs) <= 100)%nat).
  { intros gs Hgs. split; [| rewrite length_take; lia].
    change (map tokenId (take 100 gs)) with (tokenId <$> take 100 gs).
    rewrite fmap_take. eapply sublist_NoDup; [exact Hgs | apply sublist_take]. }
  destruct (Z.lt_ge_cases (groupIndex token st) 0) as [Habsent | Hpresent].
  - rewrite storeTokenData_absent by exact Habsent. apply Htake.
    destruct (JWTUtils.createTokenGroup now token r) as [g |] eqn:Eg;
      [| exact Hnd].
    simpl. apply NoDup_cons. split; [| exact Hnd].
    apply createTokenGroup_fields in Eg as (-> & _).
    apply groupIndex_absent in Habsent. rewrite Forall_forall in Habsent.
    intros Hin. apply list_elem_of_fmap in Hin as (g' & Heq & Hg').
    now apply (Habsent g' Hg').
  - rewrite storeTokenData_present by exact Hpresent. apply Htake.
    replace (map tokenId (alter (Background.updateExistingGroup now token r)
                            (Z.to_nat (groupIndex token st)) (tokenGroups st)))
      with (map tokenId (tokenGroups st)); [exact Hnd |].
    generalize (Z.to_nat (groupIndex token st)). generalize (tokenGroups st).
    induction l as [| g l IH]; intros [| n]; try reflexivity.
    + change (alter ?f 0%nat (g :: l)) with (f g :: l). simpl. f_equal.
      now destruct (updateExistingGroup_fields now token r g) as (-> & _).
    + change (alter ?f (S n) (g :: l)) with (g :: alter f n l). simpl.
      f_equal. apply IH.
Qed.

End Invariants.

(** The invariants at the index that holds one group and a request with a
    new credential. *)
Lemma upsert_keeps_index_invariants_witness :
  NoDup (map tokenId
           (tokenGroups (Background.storeTokenData (H:=ReferenceHost) 3000
                           scenario_token (sample_request 2500)
                           sample_index_1))).
Proof.
  apply (upsert_keeps_index_invariants (H:=ReferenceHost)).
  vm_compute. repeat constructor. intros Hin. inversion Hin.
Defined.

(** The scenarios of the specification: the first request with the
    credential creates one group, not expired, that holds the request; a
    second request with the same credential goes to the same group, whose
    [lastSeen] moves, and creates none. *)
Theorem scenario_first_and_second_sighting :
  exists g g',
    tokenGroups (upsert (H:=ReferenceHost) emptyIndex
                   (mkEvent 1793668860123 scenario_token
                      (sample_request 1793668860123))) = [g]
    /\ isExpired g = false
    /\ expiryDate g = Some (mkDate (Some 9999999999000))
    /\ requests g = [sample_request 1793668860123]
    /\ lastSeen g = mkDate (Some 1793668860123)
    /\ tokenGroups
         (upserts (H:=ReferenceHost)
            [mkEvent 1793668860123 scenario_token
               (sample_request 1793668860123);
             mkEvent 1793668869000 scenario_token
               (sample_request 1793668869000)] emptyIndex) = [g']
    /\ tokenId g' = tokenId g
    /\ requests g'
       = [sample_request 1793668860123; sample_request 1793668869000]
    /\ firstSeen g' = mkDate (Some 1793668860123)
    /\ lastSeen g' = mkDate (Some 1793668869000).
Proof. vm_compute. do 2 eexists. repeat split. Qed.

(** * Further properties *)

(** ** Sanity checks of the listener and the popup *)

Example extract_plain :
  Requests.extractBearerToken "Bearer abc.def.ghi" = Some "abc.def.ghi".
Proof. reflexivity. Qed.

Example extract_any_case :
  Requests.extractBearerToken "bEARER   abc" = Some "abc".
Proof. reflexivity. Qed.

Example extract_backtracks :
  Requests.extractBearerToken "Bearer  " = Some " ".
Proof. reflexivity. Qed.

Example extract_other_scheme :
  Requests.extractBearerToken "Basic dTE6cHc=" = None.
Proof. reflexivity. Qed.

Example extract_no_space :
  Requests.extractBearerToken "Bearerabc" = None.
Proof. reflexivity. Qed.

Example abbreviated_path :
  Requests.getAbbreviatedPath (H:=ReferenceUrlHost)
    "https://www.example.com/v1/foo/bar?test=1" = "v1/foo/bar".
Proof. reflexivity. Qed.

Example abbreviated_path_root :
  Requests.getAbbreviatedPath (H:=ReferenceUrlHost)
    "https://www.Example.com:8443/#top" = "www.example.com".
Proof. reflexivity. Qed.

Example abbreviated_path_no_url :
  Requests.getAbbreviatedPath (H:=ReferenceUrlHost) "not a url"
  = "not a url".
Proof. reflexivity. Qed.

Example request_id :
  Requests.generateRequestId 1793668860123 "0.4fzyo82mvyr"
  = "req_1793668860123_4fzyo82".
Proof. reflexivity. Qed.

Example encode_braces : base64url_encode "{}" = "e30".
Proof. reflexivity. Qed.

Example popup_nothing_stored :
  PopupView.loadTokens (H:=ReferenceHost) 1793668869000 None
  = PopupView.EmptyState.
Proof. reflexivity. Qed.

Example popup_sample_snapshot :
  match PopupView.loadTokens (H:=ReferenceHost) 1793668869000
          (Some sample_snapshot) with
  | PopupView.TokenElements elements =>
      map PopupView.view_tokenId elements
      = ["fedcba9876543210"; "0123456789abcdef"]
      /\ map PopupView.statusText elements = ["Expired"; "Valid"]
  | PopupView.EmptyState => False
  end.
Proof. vm_compute. split; reflexivity. Qed.

(** ** The Authorization header *)

Lemma text_chars s : text (chars s) = s.
Proof. apply string_of_list_ascii_of_string. Qed.

Lemma chars_text l : chars (text l) = l.
Proof. apply list_ascii_of_string_of_list_ascii. Qed.

Lemma text_app a b : text (a ++ b) = text a +:+ text b.
Proof.
  rewrite <- (text_chars (text a +:+ text b)), chars_append, !chars_text.
  reflexivity.
Qed.

Lemma chars_length s : length (chars s) = String.length s.
Proof. induction s as [| c s IH]; simpl; [reflexivity | now rewrite IH]. Qed.

Lemma text_length l : String.length (text l) = length l.
Proof. now rewrite <- chars_length, chars_text. Qed.

Lemma chars_inj a b : chars a = chars b -> a = b.
Proof. intros E. rewrite <- (text_chars a), <- (text_chars b). now f_equal. Qed.

(** Under the flag [i] a character matches a letter of the word exactly
    when the two have the same lower-case form. *)
Lemma Canonicalize_letters :
  forallb (fun c =>
    forallb (fun p =>
      Bool.eqb (Requests.Canonicalize c =? Requests.Canonicalize p)
        (Ascii.eqb (toLowerCase_char c) (toLowerCase_char p)))
      (chars "Bearer")) all_chars = true.
Proof. vm_compute. reflexivity. Qed.

Lemma Canonicalize_letter c p :
  In p (chars "Bearer") ->
  (Requests.Canonicalize c =? Requests.Canonicalize p)
  = Ascii.eqb (toLowerCase_char c) (toLowerCase_char p).
Proof.
  intros Hp. pose proof Canonicalize_letters as Hall.
  rewrite forallb_forall in Hall. specialize (Hall c (in_all_chars c)).
  rewrite forallb_forall in Hall. specialize (Hall p Hp).
  now apply Bool.eqb_prop in Hall.
Qed.

Lemma toLowerCase_chars s :
  chars (toLowerCase s) = map toLowerCase_char (chars s).
Proof. induction s as [| c s IH]; simpl; [reflexivity | now rewrite IH]. Qed.

Lemma match_literal_spec pattern input rest :
  incl pattern (chars "Bearer") ->
  Requests.match_literal pattern input = Some rest <->
  exists word,
    input = word ++ rest
    /\ map toLowerCase_char word = map toLowerCase_char pattern.
Proof.
  revert input. induction pattern as [| p pattern IH]; intros input Hincl.
  - simpl. split.
    + intros [= ->]. exists []. auto.
    + intros (word & -> & Hw). destruct word; [reflexivity | discriminate].
  - assert (Hp : In p (chars "Bearer")) by (apply Hincl; now left).
    assert (Hincl' : incl pattern (chars "Bearer")).
    { intros x Hx. apply Hincl. now right. }
    destruct input as [| c input]; simpl.
    + split; [discriminate |].
      intros (word & Hin & Hw). destruct word; discriminate.
    + rewrite (Canonicalize_letter c p Hp).
      destruct (Ascii.eqb (toLowerCase_char c) (toLowerCase_char p)) eqn:E.
      * apply Ascii.eqb_eq in E. rewrite (IH input Hincl'). split.
        -- intros (word & -> & Hw). exists (c :: word). simpl.
           now rewrite E, Hw.
        -- intros (word & Hin & Hw). destruct word as [| c' word];
             [discriminate |].
           simpl in Hin, Hw. injection Hin as -> ->. injection Hw as _ Hw.
           eauto.
      * apply Ascii.eqb_neq in E. split; [discriminate |].
        intros (word & Hin & Hw). destruct word as [| c' word];
          [discriminate |].
        simpl in Hin, Hw. injection Hin as -> ->. injection Hw as Hc _.
        contradiction.
Qed.

Lemma match_capture_Some input capture :
  Requests.match_capture input = Some capture <->
  capture = input /\ input <> []
  /\ forallb not_line_terminator input = true.
Proof.
  unfold Requests.match_capture. destruct input as [| c input].
  - split; [discriminate | intros (_ & Hne & _); contradiction].
  - fold not_line_terminator.
    change (fun c0 => negb (Requests.is_line_terminator c0))
      with not_line_terminator.
    destruct (forallb not_line_terminator (c :: input)); split.
    + intros [= <-]. repeat split. discriminate.
    + now intros (-> & _).
    + discriminate.
    + intros (_ & _ & [=]).
Qed.

(** What the greedy search returns. *)
Lemma match_spaces_sound input capture :
  Requests.match_spaces input = Some capture ->
  exists spaces,
    input = spaces ++ capture
    /\ spaces <> [] /\ forallb Requests.is_regex_space spaces = true
    /\ capture <> [] /\ forallb not_line_terminator capture = true
    /\ (starts_with_space (text capture) = false
        \/ length capture = 1%nat).
Proof.
  revert capture. induction input as [| c input IH]; intros capture;
    simpl; [discriminate |].
  destruct (Requests.is_regex_space c) eqn:Hc; [| discriminate].
  destruct (Requests.match_spaces input) as [found |] eqn:Hrec.
  - intros [= ->]. destruct (IH capture eq_refl)
      as (spaces & -> & _ & Hsp & Hne & Hlt & Hshape).
    exists (c :: spaces). simpl. rewrite Hc, Hsp.
    repeat split; auto; discriminate.
  - intros Hcap. apply match_capture_Some in Hcap as (-> & Hne & Hlt).
    exists [c]. simpl. rewrite Hc. repeat split; auto; try discriminate.
    destruct input as [| c' input]; [contradiction |].
    simpl in Hrec |- *.
    destruct (Requests.is_regex_space c') eqn:Hc'; [| now left].
    right. destruct input as [| c'' input]; [reflexivity |].
    exfalso.
    destruct (Requests.match_spaces (c'' :: input)); [discriminate |].
    assert (Hsome : Requests.match_capture (c'' :: input)
                    = Some (c'' :: input)).
    { apply match_capture_Some. repeat split; [discriminate |].
      simpl in Hlt. apply andb_prop in Hlt as [_ Hlt]. exact Hlt. }
    rewrite Hsome in Hrec. discriminate.
Qed.

(** The greedy search finds the capture that follows the run of spaces. *)
Lemma match_spaces_complete spaces capture :
  spaces <> [] -> forallb Requests.is_regex_space spaces = true ->
  capture <> [] -> forallb not_line_terminator capture = true ->
  starts_with_space (text capture) = false \/ length capture = 1%nat ->
  Requests.match_spaces (spaces ++ capture) = Some capture.
Proof.
  intros Hne Hsp Hcne Hlt Hshape.
  assert (Hcap : Requests.match_capture capture = Some capture).
  { apply match_capture_Some. auto. }
  assert (Hnone : Requests.match_spaces capture = None).
  { destruct capture as [| c capture]; [reflexivity |]. simpl.
    destruct Hshape as [Hns | Hone].
    - simpl in Hns. now rewrite Hns.
    - destruct capture; [| discriminate]. simpl.
      now destruct (Requests.is_regex_space c). }
  induction spaces as [| c spaces IH]; [contradiction |].
  simpl in Hsp |- *. apply andb_prop in Hsp as [Hc Hsp]. rewrite Hc.
  destruct spaces as [| c' spaces].
  - simpl. now rewrite Hnone.
  - rewrite IH; [reflexivity | discriminate | exact Hsp].
Qed.

(** The credential of a header [Bearer], one space, [token]. *)
Lemma extractBearerToken_bearer token :
  token <> EmptyString -> all_of not_line_terminator token = true ->
  starts_with_space token = false ->
  Requests.extractBearerToken ("Bearer " +:+ token) = Some token.
Proof.
  intros Hne Hlt Hns. unfold Requests.extractBearerToken.
  change (chars ("Bearer " +:+ token))
    with (chars "Bearer" ++ " "%char :: chars token).
  assert (Hlit : Requests.match_literal (chars "Bearer")
                   (chars "Bearer" ++ " "%char :: chars token)
                 = Some (" "%char :: chars token)).
  { apply match_literal_spec; [apply incl_refl |]. eauto. }
  rewrite Hlit.
  change (" "%char :: chars token) with ([" "%char] ++ chars token).
  assert (Hsp : Requests.match_spaces ([" "%char] ++ chars token)
                = Some (chars token)).
  { apply match_spaces_complete.
    - discriminate.
    - reflexivity.
    - destruct token; [contradiction | discriminate].
    - exact Hlt.
    - left. now rewrite text_chars. }
  now rewrite Hsp, text_chars.
Qed.

(** [extractBearerToken] returns [token] exactly when the header is the
    word Bearer in any letter case, a non-empty run of characters of the
    class [\s], and [token], where [token] is not empty, holds no line
    terminator, and either does not begin with a character of the class
    [\s] or is a single character (the last of a header that ends in the
    run).  On any other header it returns [null]. *)
Theorem extractBearerToken_spec (authHeader token : string) :
  Requests.extractBearerToken authHeader = Some token <->
  exists scheme spaces,
    authHeader = scheme +:+ spaces +:+ token
    /\ toLowerCase scheme = "bearer"
    /\ spaces <> EmptyString
    /\ all_of Requests.is_regex_space spaces = true
    /\ token <> EmptyString
    /\ all_of not_line_terminator token = true
    /\ (starts_with_space token = false \/ String.length token = 1%nat).
Proof.
  unfold Requests.extractBearerToken, all_of. split.
  - destruct (Requests.match_literal (chars "Bearer") (chars authHeader))
      as [rest |] eqn:Hlit; [| discriminate].
    apply match_literal_spec in Hlit as (word & Hin & Hw);
      [| apply incl_refl].
    destruct (Requests.match_spaces rest) as [capture |] eqn:Hsp;
      [| discriminate].
    intros [= <-].
    apply match_spaces_sound in Hsp
      as (spaces & -> & Hne & Hall & Hcne & Hlt & Hshape).
    exists (text word), (text spaces). rewrite !chars_text.
    repeat split; auto.
    + apply chars_inj. now rewrite !chars_append, !chars_text.
    + apply chars_inj. now rewrite toLowerCase_chars, chars_text, Hw.
    + intros E. apply Hne. now rewrite <- (chars_text spaces), E.
    + intros E. apply Hcne. now rewrite <- (chars_text capture), E.
    + destruct Hshape as [Hs | Hl]; [now left | right].
      now rewrite text_length.
  - intros (scheme & spaces & -> & Hscheme & Hne & Hall & Hcne & Hlt
            & Hshape).
    rewrite !chars_append.
    assert (Hlit : Requests.match_literal (chars "Bearer")
                     (chars scheme ++ chars spaces ++ chars token)
                   = Some (chars spaces ++ chars token)).
    { apply match_literal_spec; [apply incl_refl |].
      exists (chars scheme). split; [reflexivity |].
      now rewrite <- toLowerCase_chars, Hscheme. }
    rewrite Hlit.
    assert (Hsp : Requests.match_spaces (chars spaces ++ chars token)
                  = Some (chars token)).
    { apply match_spaces_complete.
      - intros E. apply Hne. apply chars_inj. now rewrite E.
      - exact Hall.
      - intros E. apply Hcne. apply chars_inj. now rewrite E.
      - exact Hlt.
      - destruct Hshape as [Hs | Hl]; [left; now rewrite text_chars | right].
        now rewrite chars_length. }
    now rewrite Hsp, text_chars.
Qed.

(** ** The path shown for a request *)

Lemma substring_all s : substring 0 (String.length s) s = s.
Proof. induction s as [| c s IH]; simpl; [reflexivity | now rewrite IH]. Qed.

Lemma endsWith_slash s :
  endsWith s "/" = true <-> exists q, s = q +:+ "/".
Proof.
  unfold endsWith. rewrite prefix_correct. split.
  - intros Hp. destruct (rev (chars s)) as [| c r] eqn:E; [discriminate |].
    simpl in Hp. injection Hp as -> _.
    exists (text (rev r)). apply chars_inj.
    rewrite chars_append, chars_text. simpl.
    now rewrite <- (rev_involutive (chars s)), E.
  - intros (q & ->). rewrite chars_append, rev_app_distr. simpl.
    now destruct (text (rev (chars q))).
Qed.

Lemma substring_drop_last q :
  substring 0 (String.length (q +:+ "/") - 1) (q +:+ "/") = q.
Proof.
  apply chars_inj. rewrite substring_prefix_chars, chars_append, length_append.
  simpl. replace (String.length q + 1 - 1)%nat with (length (chars q))
    by (rewrite chars_length; lia).
  now rewrite take_app_length.
Qed.

(** [getAbbreviatedPath] returns the text itself when it is no URL.  Of a
    URL whose pathname is a slash followed by [p] it returns [p] without
    its last character when that is a slash, and the host name when
    nothing is left. *)
Theorem getAbbreviatedPath_spec `{UrlHost} (url : string) :
  match URL_parse url with
  | None => Requests.getAbbreviatedPath url = url
  | Some urlObj =>
      forall p, pathname urlObj = String "/" p ->
      exists q,
        (p = q +:+ "/" \/ (p = q /\ forall q', p <> q' +:+ "/"))
        /\ Requests.getAbbreviatedPath url
           = if String.eqb q EmptyString then hostname urlObj else q
  end.
Proof.
  unfold Requests.getAbbreviatedPath.
  destruct (URL_parse url) as [urlObj |]; [| reflexivity].
  intros p Hp. rewrite Hp. cbv zeta.
  assert (Hstart : startsWith (String "/" p) "/" = true).
  { unfold startsWith. apply prefix_correct. simpl. now destruct p. }
  rewrite Hstart.
  assert (Hsub : substring_from 1 (String "/" p) = p).
  { unfold substring_from. simpl. rewrite Nat.sub_0_r. apply substring_all. }
  rewrite Hsub.
  destruct (endsWith p "/") eqn:Hend.
  - apply endsWith_slash in Hend as (q & ->). exists q.
    split; [now left |]. rewrite substring_drop_last.
    now destruct (String.eqb q EmptyString).
  - exists p. split.
    + right. split; [reflexivity |]. intros q' Hq'.
      assert (Htrue : endsWith p "/" = true) by (apply endsWith_slash; eauto).
      congruence.
    + now destruct (String.eqb p EmptyString).
Qed.

(** ** The listener *)

Lemma extractBearerToken_nonempty value token :
  Requests.extractBearerToken value = Some token ->
  value <> EmptyString /\ token <> EmptyString.
Proof.
  unfold Requests.extractBearerToken. destruct value as [| c value].
  - discriminate.
  - destruct (Requests.match_literal _ _) as [rest |]; [| discriminate].
    destruct (Requests.match_spaces rest) as [capture |] eqn:Hsp;
      [| discriminate].
    intros [= <-]. split; [discriminate |].
    apply match_spaces_sound in Hsp as (_ & _ & _ & _ & Hne & _).
    intros E. apply Hne. now rewrite <- (chars_text capture), E.
Qed.

Lemma find_app_first {A} (p : A -> bool) pre x post :
  Forall (fun y => p y = false) pre -> p x = true ->
  List.find p (pre ++ x :: post) = Some x.
Proof.
  intros Hpre Hx. induction Hpre as [| y pre Hy _ IH]; simpl.
  - now rewrite Hx.
  - now rewrite Hy.
Qed.

Section ListenerProperties.
Context `{Host} `{UrlHost}.

Lemma handleRequest_found now random36 details st h value token :
  Listener.authorizationHeader details = Some h ->
  header_value h = Some value ->
  Requests.extractBearerToken value = Some token ->
  Listener.handleRequest now random36 details st
  = Background.storeTokenData now token
      (requestInfoOf now random36 details) st.
Proof.
  intros Hh Hv Ht. unfold Listener.handleRequest. rewrite Hh, Hv, Ht.
  destruct (extractBearerToken_nonempty _ _ Ht) as [Hvne Htne].
  apply String.eqb_neq in Hvne, Htne. now rewrite Hvne, Htne.
Qed.

(** Each request either leaves the index as it is or is one upsert. *)
Lemma handleRequest_cases now random36 details st :
  Listener.handleRequest now random36 details st = st
  \/ exists token,
       Listener.handleRequest now random36 details st
       = Background.storeTokenData now token
           (requestInfoOf now random36 details) st.
Proof.
  unfold Listener.handleRequest.
  destruct (Listener.authorizationHeader details) as [h |]; [| now left].
  destruct (header_value h) as [value |]; [| now left].
  destruct (String.eqb value EmptyString); [now left |].
  destruct (Requests.extractBearerToken value) as [token |]; [| now left].
  destruct (String.eqb token EmptyString); [now left |].
  right. exists token. reflexivity.
Qed.

Lemma find_none_Forall {A} (p : A -> bool) l :
  Forall (fun y => p y = false) l -> List.find p l = None.
Proof.
  induction 1 as [| y l Hy _ IH]; simpl; [reflexivity | now rewrite Hy].
Qed.

(** Requests that leave the index as it is: a request that comes without
    its headers; a request none of whose headers is named Authorization
    (in any letter case); and a request whose first header of that name
    has no value or a value from which no Bearer credential is extracted,
    whatever headers follow it, a further Authorization header with a
    Bearer credential included. *)
Theorem handleRequest_without_bearer now random36 details st :
  requestHeaders details = None
  \/ (exists headers,
        requestHeaders details = Some headers
        /\ Forall (fun h => is_authorization h = false) headers)
  \/ (exists pre h post,
        requestHeaders details = Some (pre ++ h :: post)
        /\ Forall (fun h => is_authorization h = false) pre
        /\ is_authorization h = true
        /\ forall value, header_value h = Some value ->
                         Requests.extractBearerToken value = None) ->
  Listener.handleRequest now random36 details st = st.
Proof.
  unfold Listener.handleRequest, Listener.authorizationHeader.
  intros [-> | [(headers & -> & Hnone) | (pre & h & post & -> & Hpre & Hh
                                          & Hvalue)]].
  - reflexivity.
  - now rewrite (find_none_Forall is_authorization).
  - rewrite (find_app_first is_authorization) by assumption.
    destruct (header_value h) as [value |]; [| reflexivity].
    rewrite (Hvalue value eq_refl).
    now destruct (String.eqb value EmptyString).
Qed.

(** A request whose first header named Authorization (in any letter case)
    holds the word Bearer, a space and a credential is one upsert of that
    credential, verbatim, with the URL and the method of the request and
    the current instant.  When the credential decodes and its identity is
    new to an index below its cap, the outcome is one more group at the
    head of the index, made of the credential and this one request; the
    groups that were there follow it unchanged. *)
Theorem handleRequest_bearer_credential now random36 details st
  pre name token post :
  requestHeaders details
  = Some (pre ++ mkHeader name (Some ("Bearer " +:+ token)) :: post) ->
  Forall (fun h => is_authorization h = false) pre ->
  toLowerCase name = "authorization" ->
  token <> EmptyString -> all_of not_line_terminator token = true ->
  starts_with_space token = false ->
  Listener.handleRequest now random36 details st
  = Background.storeTokenData now token
      (requestInfoOf now random36 details) st
  /\ url (requestInfoOf now random36 details) = details_url details
  /\ method (requestInfoOf now random36 details) = details_method details
  /\ timestamp (requestInfoOf now random36 details) = Date_of_number now
  /\ forall parsed,
       JWTUtils.parseJWT token = Some parsed ->
       groupIndex token st < 0 ->
       (length (tokenGroups st) < 100)%nat ->
       exists g,
         tokenGroups (Listener.handleRequest now random36 details st)
         = g :: tokenGroups st
         /\ raw g = token
         /\ tokenId g = JWTUtils.generateTokenId token
         /\ payload g = JWTUtils.p_payload parsed
         /\ requests g = [requestInfoOf now random36 details]
         /\ firstSeen g = Date_of_number now
         /\ lastSeen g = Date_of_number now
         /\ expiryDate g = JWTUtils.getExpiryDate (JWTUtils.p_payload parsed)
         /\ isExpired g
            = JWTUtils.isTokenExpired now (JWTUtils.p_payload parsed).
Proof.
  intros Hheaders Hpre Hname Hne Hlt Hns.
  assert (Hstore :
    Listener.handleRequest now random36 details st
    = Background.storeTokenData now token
        (requestInfoOf now random36 details) st).
  { apply handleRequest_found
      with (h := mkHeader name (Some ("Bearer " +:+ token)))
           (value := "Bearer " +:+ token).
    - unfold Listener.authorizationHeader. rewrite Hheaders.
      apply (find_app_first is_authorization); [exact Hpre |].
      unfold is_authorization. simpl. rewrite Hname. reflexivity.
    - reflexivity.
    - now apply extractBearerToken_bearer. }
  split; [exact Hstore |]. repeat split.
  intros parsed Hparsed Habsent Hlen. rewrite Hstore.
  rewrite storeTokenData_absent by exact Habsent.
  destruct (JWTUtils.createTokenGroup now token
              (requestInfoOf now random36 details)) as [g |] eqn:Hg.
  - exists g. split.
    + apply take_ge. simpl. lia.
    + apply createTokenGroup_fields in Hg
        as (Hid & Hraw & Hreq & Hfirst & Hlast & parsed' & Hp' & Hpay & Hexp
            & Hisexp).
      rewrite Hparsed in Hp'. injection Hp' as <-.
      repeat split; assumption.
  - apply createTokenGroup_None in Hg. congruence.
Qed.

End ListenerProperties.

(** The request whose second Authorization header carries a Bearer
    credential leaves the index that holds one group as it is. *)
Lemma handleRequest_without_bearer_witness :
  Listener.handleRequest (H:=ReferenceHost) (H0:=ReferenceUrlHost) 3000
    "0.4fzyo82mvyr" sample_details_second_bearer sample_index_1
  = sample_index_1.
Proof.
  apply (handleRequest_without_bearer (H:=ReferenceHost)
           (H0:=ReferenceUrlHost)).
  right. right.
  exists [], (mkHeader "Authorization" (Some "Basic dTE6cHc=")),
    [mkHeader "Authorization" (Some ("Bearer " +:+ scenario_token))].
  split; [reflexivity |]. split; [constructor |].
  split; [reflexivity |]. intros value [= <-]. reflexivity.
Defined.

(** The request with the credential of the scenarios, at the empty
    index. *)
Lemma handleRequest_bearer_credential_witness :
  exists g,
    tokenGroups
      (Listener.handleRequest (H:=ReferenceHost) (H0:=ReferenceUrlHost)
         1793668860123 "0.4fzyo82mvyr" sample_details emptyIndex) = [g]
    /\ raw g = scenario_token
    /\ map abbreviatedPath (requests g) = ["v1/users/1"]
    /\ isExpired g = false.
Proof.
  destruct (handleRequest_bearer_credential (H:=ReferenceHost)
              (H0:=ReferenceUrlHost) 1793668860123 "0.4fzyo82mvyr"
              sample_details emptyIndex
              [mkHeader "Accept" (Some "application/json")] "AUTHORIZATION"
              scenario_token [])
    as (_ & _ & _ & _ & Hnew).
  - reflexivity.
  - repeat constructor.
  - reflexivity.
  - discriminate.
  - reflexivity.
  - reflexivity.
  - destruct (JWTUtils.parseJWT (H:=ReferenceHost) scenario_token)
      as [parsed |] eqn:Hparsed; [| vm_compute in Hparsed; discriminate].
    destruct (Hnew parsed eq_refl) as (g & Hg & Hraw & _ & _ & Hreq & _ & _
                                        & _ & Hexp).
    + vm_compute. reflexivity.
    + simpl. lia.
    + exists g. split; [exact Hg |]. split; [exact Hraw |].
      rewrite Hreq, Hexp. split; [vm_compute; reflexivity |].
      vm_compute in Hparsed. injection Hparsed as <-. vm_compute. reflexivity.
Defined.

(** ** The codec: decoding what an encoder produced *)

Lemma code_range c : 0 <= code c < 256.
Proof.
  unfold code. pose proof (N_ascii_bounded c). lia.
Qed.

Lemma char_of_code c : char_of (code c) = c.
Proof.
  unfold char_of, code. rewrite N2Z.id. apply ascii_N_embedding.
Qed.

Lemma char_of_eq z c : z = code c -> char_of z = c.
Proof. intros ->. apply char_of_code. Qed.

Lemma list_ind3 {A} (P : list A -> Prop) :
  P [] -> (forall a, P [a]) -> (forall a b, P [a; b]) ->
  (forall a b c l, P l -> P (a :: b :: c :: l)) ->
  forall l, P l.
Proof.
  intros H0 H1 H2 H3 l.
  enough (Hall : P l /\ (forall a, P (a :: l)) /\ forall a b, P (a :: b :: l))
    by apply Hall.
  induction l as [| x l (IH0 & IH1 & IH2)]; [auto |].
  split; [apply IH1 |]. split; [intros a; apply IH2 |].
  intros a b. apply H3, IH0.
Qed.

Lemma translated_all :
  forallb (fun v =>
    negb (is_ascii_whitespace (translated v))
    && negb (Ascii.eqb (translated v) "=")
    && match b64_value (translated v) with
       | Some v' => v' =? v
       | None => false
       end) (map Z.of_nat (seq 0 64)) = true.
Proof. vm_compute. reflexivity. Qed.

Lemma translated_spec v :
  0 <= v < 64 ->
  is_ascii_whitespace (translated v) = false
  /\ translated v <> "="%char
  /\ b64_value (translated v) = Some v.
Proof.
  intros Hv. pose proof translated_all as Hall.
  rewrite forallb_forall in Hall.
  assert (Hin : In v (map Z.of_nat (seq 0 64))).
  { apply in_map_iff. exists (Z.to_nat v). split; [lia |].
    apply in_seq. lia. }
  specialize (Hall v Hin).
  apply andb_prop in Hall as [Hall Hval].
  apply andb_prop in Hall as [Hws Hpad].
  apply negb_true_iff in Hws, Hpad. split; [exact Hws |]. split.
  - intros E. rewrite E in Hpad. discriminate.
  - destruct (b64_value (translated v)) as [v' |]; [| discriminate].
    apply Z.eqb_eq in Hval. now subst.
Qed.

Lemma sextets_spec cs :
  let sx := sextets (map code cs) in
  Forall (fun v => 0 <= v < 64) sx
  /\ b64_bytes sx = cs
  /\ (len sx mod 4 = 0 \/ len sx mod 4 = 2 \/ len sx mod 4 = 3).
Proof.
  induction cs as [| a | a b | a b c cs IH] using list_ind3; cbv zeta.
  - simpl. repeat split; auto.
  - pose proof (code_range a). simpl. repeat split.
    + repeat constructor; Z.div_mod_to_equations; lia.
    + f_equal. apply char_of_eq. Z.div_mod_to_equations. lia.
    + auto.
  - pose proof (code_range a). pose proof (code_range b). simpl.
    repeat split.
    + repeat constructor; Z.div_mod_to_equations; lia.
    + f_equal; [| f_equal]; apply char_of_eq; Z.div_mod_to_equations; lia.
    + auto.
  - pose proof (code_range a). pose proof (code_range b).
    pose proof (code_range c).
    destruct IH as (Hrange & Hbytes & Hlen).
    cbn [map sextets].
    repeat split.
    + repeat constructor; try exact Hrange; Z.div_mod_to_equations; lia.
    + cbn [b64_bytes]. cbv zeta. rewrite Hbytes.
      f_equal; [| f_equal; [| f_equal]]; apply char_of_eq;
        Z.div_mod_to_equations; lia.
    + unfold len in *. cbn [length]. rewrite !Nat2Z.inj_succ.
      revert Hlen. generalize (Z.of_nat (length (sextets (map code cs)))).
      intros n Hn. Z.div_mod_to_equations. lia.
Qed.

Lemma chars_repeat_char c n : chars (repeat_char c n) = repeat c n.
Proof. induction n as [| n IH]; simpl; [reflexivity | now rewrite IH]. Qed.

Lemma strip_pad_snoc l : strip_pad (l ++ ["="%char]) = Some l.
Proof.
  unfold strip_pad. rewrite rev_app_distr. simpl. now rewrite rev_involutive.
Qed.

Lemma strip_pad_None l :
  Forall (fun c => c <> "="%char) l -> strip_pad l = None.
Proof.
  intros Hl. unfold strip_pad. apply Forall_rev in Hl.
  destruct (rev l) as [| c r]; [reflexivity |].
  inversion Hl as [| ? ? Hc _]; subst.
  destruct (Ascii.eqb_spec c "="%char); [contradiction | reflexivity].
Qed.

(** Up to two padding signs after text that holds none are removed. *)
Lemma strip_padding_pads l k :
  Forall (fun c => c <> "="%char) l -> (k <= 2)%nat ->
  strip_padding (l ++ repeat "="%char k) = l.
Proof.
  intros Hl Hk. unfold strip_padding.
  destruct k as [| [| [| k]]]; [| | | lia]; simpl.
  - rewrite app_nil_r. now rewrite strip_pad_None.
  - now rewrite strip_pad_snoc, strip_pad_None.
  - change (l ++ ["="%char; "="%char])
      with (l ++ ["="%char] ++ ["="%char]).
    rewrite app_assoc, strip_pad_snoc. now rewrite strip_pad_snoc.
Qed.

Lemma b64_values_translated sx :
  Forall (fun v => 0 <= v < 64) sx ->
  b64_values (map translated sx) = Some sx.
Proof.
  induction 1 as [| v sx Hv _ IH]; simpl; [reflexivity |].
  destruct (translated_spec v Hv) as (_ & _ & ->). now rewrite IH.
Qed.

Lemma append_empty s : s +:+ EmptyString = s.
Proof.
  apply chars_inj. rewrite chars_append. simpl. apply app_nil_r.
Qed.

Lemma map_translate_pads k :
  map (fun c : ascii => if Ascii.eqb c "_" then "/"%char else c)
    (map (fun c : ascii => if Ascii.eqb c "-" then "+"%char else c)
       (repeat "="%char k))
  = repeat "="%char k.
Proof. induction k as [| k IH]; simpl; [reflexivity | now rewrite IH]. Qed.

(** The encoding decodes to the text encoded, without padding signs
    ([j] is 0) or with them. *)
Lemma base64UrlDecode_pads s j :
  j = 0%nat
  \/ j = Z.to_nat ((4 - strlen (base64url_encode s) mod 4) mod 4) ->
  JWTUtils.base64UrlDecode (base64url_encode s +:+ repeat_char "=" j) = Ok s.
Proof.
  intros Hj.
  destruct (sextets_spec (chars s)) as (Hrange & Hbytes & Hlen).
  set (sx := sextets (map code (chars s))) in *.
  assert (Hstrlen : strlen (base64url_encode s) = len sx).
  { unfold strlen, base64url_encode, len. fold sx.
    now rewrite text_length, length_map. }
  rewrite Hstrlen in Hj.
  unfold JWTUtils.base64UrlDecode, atob. cbv zeta.
  assert (Hstrlen' :
    strlen (base64url_encode s +:+ repeat_char "=" j)
    = len sx + Z.of_nat j).
  { unfold strlen in *. rewrite length_append, repeat_char_length. lia. }
  rewrite Hstrlen'.
  set (k := Z.to_nat ((4 - (len sx + Z.of_nat j) mod 4) mod 4)).
  assert (Hk : (j + k <= 2)%nat /\ (len sx + Z.of_nat (j + k)) mod 4 = 0).
  { subst k. revert Hj Hlen. generalize (len sx). intros n Hj Hn.
    destruct Hj as [-> | ->].
    - change (Z.of_nat 0) with 0. rewrite Z.add_0_r, Nat.add_0_l.
      split; [| rewrite Z2Nat.id]; Z.div_mod_to_equations; lia.
    - rewrite Nat2Z.inj_add, !Z2Nat.id by (Z.div_mod_to_equations; lia).
      split; [| Z.div_mod_to_equations; lia].
      apply Nat2Z.inj_le. rewrite Nat2Z.inj_add, !Z2Nat.id
        by (Z.div_mod_to_equations; lia).
      Z.div_mod_to_equations. lia. }
  destruct Hk as [Hk2 Hk0].
  assert (Hchars :
    chars (replace_all "_" "/"
             (replace_all "-" "+"
                ((base64url_encode s +:+ repeat_char "=" j)
                 +:+ repeat_char "=" k)))
    = map translated sx ++ repeat "="%char (j + k)).
  { rewrite !chars_replace_all, !chars_append, !chars_repeat_char.
    unfold base64url_encode. fold sx. rewrite chars_text.
    rewrite !map_app, !map_translate_pads, !map_map, repeat_app.
    rewrite <- app_assoc. f_equal. }
  rewrite Hchars.
  assert (Hne : Forall (fun c => c <> "="%char) (map translated sx)).
  { apply List.Forall_forall. intros c Hc.
    apply in_map_iff in Hc as (v & <- & Hv).
    rewrite List.Forall_forall in Hrange.
    now destruct (translated_spec v (Hrange v Hv)) as (_ & Hpad & _). }
  assert (Hfilter :
    List.filter (fun c => negb (is_ascii_whitespace c))
      (map translated sx ++ repeat "="%char (j + k))
    = map translated sx ++ repeat "="%char (j + k)).
  { apply forallb_filter_id. rewrite forallb_app. apply andb_true_intro.
    split.
    - apply forallb_forall. intros c Hc. apply in_map_iff in Hc
        as (v & <- & Hv).
      rewrite List.Forall_forall in Hrange.
      now destruct (translated_spec v (Hrange v Hv)) as (-> & _).
    - apply forallb_forall. intros c Hc. apply repeat_spec in Hc.
      now subst. }
  rewrite Hfilter.
  assert (Hlength :
    Z.of_nat (length (map translated sx ++ repeat "="%char (j + k)))
    = len sx + Z.of_nat (j + k)).
  { rewrite length_app, length_map, repeat_length. unfold len. lia. }
  rewrite Hlength, Hk0. simpl (0 =? 0). cbv iota.
  rewrite strip_padding_pads by assumption.
  rewrite length_map. fold (len sx).
  assert (Hnot1 : (len sx mod 4 =? 1) = false).
  { apply Z.eqb_neq. lia. }
  rewrite Hnot1, b64_values_translated by exact Hrange.
  now rewrite Hbytes, text_chars.
Qed.

Lemma base64UrlDecode_base64url s :
  JWTUtils.base64UrlDecode (base64url_encode s) = Ok s.
Proof.
  rewrite <- (append_empty (base64url_encode s)).
  apply (base64UrlDecode_pads s 0). now left.
Qed.

(** Decoding inverts the base64url encoding: the encoding of any text of
    bytes decodes to that text, whether it comes without its padding
    signs, as in a credential, or with them. *)
Theorem base64UrlDecode_encode (s : string) :
  JWTUtils.base64UrlDecode (base64url_encode s) = Ok s
  /\ JWTUtils.base64UrlDecode (base64url_encode_padded s) = Ok s.
Proof.
  split; [apply base64UrlDecode_base64url |].
  unfold base64url_encode_padded. cbv zeta.
  apply base64UrlDecode_pads. now right.
Qed.

Lemma base64url_char_no_dot :
  forallb (fun v => negb (Ascii.eqb (base64url_char v) "."))
    (map Z.of_nat (seq 0 64)) = true.
Proof. vm_compute. reflexivity. Qed.

Lemma base64url_encode_no_dot s : no_dot (base64url_encode s).
Proof.
  unfold no_dot, base64url_encode. rewrite chars_text. intros Hin.
  apply in_map_iff in Hin as (v & Hv & Hin).
  destruct (sextets_spec (chars s)) as (Hrange & _).
  rewrite List.Forall_forall in Hrange. specialize (Hrange v Hin).
  pose proof base64url_char_no_dot as Hall. rewrite forallb_forall in Hall.
  assert (Hseq : In v (map Z.of_nat (seq 0 64))).
  { apply in_map_iff. exists (Z.to_nat v). split; [lia |].
    apply in_seq. lia. }
  specialize (Hall v Hseq). rewrite Hv in Hall. discriminate.
Qed.

(** [parseJWT] on a credential made by an encoder: the base64url
    encodings of a header text and a payload text, and a signature
    segment.  The credential decodes exactly when [JSON.parse] accepts both
    texts, and then to the two values parsed and the signature segment as
    it is: the signature is neither decoded nor checked. *)
Theorem parseJWT_encoded `{Host} (headerText payloadText sig : string) :
  no_dot sig ->
  JWTUtils.parseJWT
    (credential (base64url_encode headerText)
       (base64url_encode payloadText) sig)
  = match JSON_parse headerText, JSON_parse payloadText with
    | Ok h, Ok p => Some (JWTUtils.mkParsed h p sig)
    | _, _ => None
    end.
Proof.
  intros Hsig. unfold JWTUtils.parseJWT, JWTUtils.parseJWT_try.
  rewrite split_dot_credential
    by (try apply base64url_encode_no_dot; exact Hsig).
  cbv zeta. simpl (negb _). cbv iota. cbn [nth].
  rewrite !base64UrlDecode_base64url.
  change (Ok headerText ≫= JSON_parse) with (JSON_parse headerText).
  change (Ok payloadText ≫= JSON_parse) with (JSON_parse payloadText).
  destruct (JSON_parse headerText) as [h | e]; [| reflexivity].
  destruct (JSON_parse payloadText) as [p | e]; reflexivity.
Qed.

(** The credential of the scenarios is such an encoding. *)
Lemma parseJWT_encoded_witness :
  credential (base64url_encode scenario_header_text)
    (base64url_encode scenario_payload_text) "sig" = scenario_token
  /\ JWTUtils.parseJWT (H:=ReferenceHost) scenario_token
     = Some (JWTUtils.mkParsed
               (JObj [("alg", JStr "HS256"); ("typ", JStr "JWT")])
               (JObj [("sub", JStr "u1"); ("exp", JNum 9999999999)]) "sig").
Proof.
  assert (Htoken : credential (base64url_encode scenario_header_text)
                     (base64url_encode scenario_payload_text) "sig"
                   = scenario_token) by (vm_compute; reflexivity).
  split; [exact Htoken |]. rewrite <- Htoken.
  rewrite (parseJWT_encoded (H:=ReferenceHost)).
  - vm_compute. reflexivity.
  - vm_compute. intros [[=] | [[=] | [[=] | []]]].
Defined.

(** ** The retention sweep: what it keeps and what it never does *)

Lemma isTokenExpired_later now1 now2 payload :
  now1 <= now2 ->
  JWTUtils.isTokenExpired now1 payload = true ->
  JWTUtils.isTokenExpired now2 payload = true.
Proof.
  unfold JWTUtils.isTokenExpired. intros Hle.
  destruct (JWTUtils.getExpiryDate payload) as [d |]; [| discriminate].
  destruct (getTime d) as [t |]; simpl; [| discriminate].
  rewrite !Z.ltb_lt. lia.
Qed.

Lemma expiredMoreThanAnHour_later now1 now2 g :
  now1 <= now2 ->
  BackgroundAggressive.expiredMoreThanAnHour now1 g = true ->
  BackgroundAggressive.expiredMoreThanAnHour now2 g = true.
Proof.
  unfold BackgroundAggressive.expiredMoreThanAnHour. cbv zeta. intros Hle.
  destruct (BackgroundAggressive.time_truthy
              (BackgroundAggressive.expiryTimeOf g)); [| discriminate].
  rewrite !Z.ltb_lt. lia.
Qed.

Lemma filter_after_later c1 c2 (rs : list RequestInfo) :
  c1 <= c2 ->
  List.filter (fun req : RequestInfo =>
                 num_gt (getTime (timestamp req)) (Some c2))
    (List.filter (fun req : RequestInfo =>
                    num_gt (getTime (timestamp req)) (Some c1)) rs)
  = List.filter (fun req : RequestInfo =>
                   num_gt (getTime (timestamp req)) (Some c2)) rs.
Proof.
  intros Hle. induction rs as [| r rs IH]; simpl; [reflexivity |].
  unfold num_gt, num_lt in *.
  destruct (getTime (timestamp r)) as [t |] eqn:Et; simpl.
  - destruct (c1 <? t) eqn:E1; simpl.
    + rewrite Et. destruct (c2 <? t); now rewrite IH.
    + apply Z.ltb_ge in E1.
      destruct (c2 <? t) eqn:E2; [apply Z.ltb_lt in E2; lia | exact IH].
  - exact IH.
Qed.

Lemma refreshGroup_later now1 now2 c1 c2 g :
  c1 <= c2 ->
  Background.refreshGroup now2 c2 (Background.refreshGroup now1 c1 g)
  = Background.refreshGroup now2 c2 g.
Proof.
  intros Hle. unfold Background.refreshGroup, with_requests, with_isExpired.
  cbn [tokenId raw header payload signature expiryDate isExpired requests
       firstSeen lastSeen isValid].
  now rewrite filter_after_later.
Qed.

Lemma filter_after_nil c1 c2 (rs : list RequestInfo) :
  c1 <= c2 ->
  List.filter (fun req : RequestInfo =>
                 num_gt (getTime (timestamp req)) (Some c1)) rs = [] ->
  List.filter (fun req : RequestInfo =>
                 num_gt (getTime (timestamp req)) (Some c2)) rs = [].
Proof.
  intros Hle Hnil. rewrite <- (filter_after_later c1 c2 rs Hle), Hnil.
  reflexivity.
Qed.

(** A group that the first sweep drops at its cut-off is dropped at any
    later cut-off. *)
Lemma keepGroup_later now1 now2 c1 c2 g :
  c1 <= c2 ->
  Background.keepGroup c1 (Background.refreshGroup now1 c1 g) = false ->
  Background.keepGroup c2 (Background.refreshGroup now2 c2 g) = false.
Proof.
  intros Hle Hdrop.
  destruct (Background.keepGroup c2 (Background.refreshGroup now2 c2 g))
    eqn:Hkeep; [| reflexivity].
  exfalso. apply keepGroup_spec in Hkeep. apply Hkeep.
  assert (Hnot : ~ Background.keepGroup c1
                     (Background.refreshGroup now1 c1 g) = true)
    by congruence.
  rewrite keepGroup_spec in Hnot.
  destruct (requests (Background.refreshGroup now1 c1 g)) as [| r rs] eqn:Ereq;
    [pose proof Ereq as Hnil | assert (Hne : r :: rs <> []) by discriminate].
  - split.
    + revert Hnil. apply filter_after_nil, Hle.
    + destruct (getTime (lastSeen g)) as [t |] eqn:Et.
      * destruct (Z.lt_ge_cases t c1) as [Hlt | Hge].
        -- exists t. split; [exact Et | lia].
        -- exfalso. apply Hnot. intros (_ & t' & Ht' & Hlt).
           change (lastSeen (Background.refreshGroup now1 c1 g))
             with (lastSeen g) in Ht'.
           rewrite Et in Ht'. injection Ht' as <-. lia.
      * exfalso. apply Hnot. intros (_ & t' & Ht' & _).
        change (lastSeen (Background.refreshGroup now1 c1 g))
          with (lastSeen g) in Ht'. congruence.
  - exfalso. apply Hnot. intros (Hnil & _). contradiction.
Qed.

Lemma shouldKeep_later now1 now2 g :
  now1 <= now2 ->
  BackgroundAggressive.shouldKeep now1 g = false ->
  BackgroundAggressive.shouldKeep now2 g = false.
Proof.
  unfold BackgroundAggressive.shouldKeep. cbv zeta. intros Hle Hdrop.
  apply orb_false_iff in Hdrop as [Hexp Hhour].
  apply negb_false_iff in Hexp, Hhour.
  rewrite (isTokenExpired_later now1 now2 _ Hle Hexp).
  now rewrite (expiredMoreThanAnHour_later now1 now2 _ Hle Hhour).
Qed.

(** A sweep after a sweep is the later sweep alone: what the earlier one
    removed the later one removes as well, and what the earlier one kept it
    left as the later one needs it.  In particular a sweep repeated at the
    same instant changes nothing more. *)
Theorem sweep_after_sweep (script : Script) (now1 now2 : Z)
  (st : ExtensionStorage) :
  now1 <= now2 ->
  sweep script now2 (sweep script now1 st) = sweep script now2 st.
Proof.
  intros Hle. destruct st as [gs m h]. destruct script; simpl;
    unfold Background.cleanupOldData, BackgroundAggressive.cleanupOldData,
      with_tokenGroups; cbv zeta;
    cbn [tokenGroups maxTokenGroups retentionHours]; f_equal.
  - set (c1 := now1 - Background.RETENTION_HOURS * 60 * 60 * 1000).
    set (c2 := now2 - Background.RETENTION_HOURS * 60 * 60 * 1000).
    assert (Hc : c1 <= c2) by (subst c1 c2; lia).
    induction gs as [| g gs IH]; simpl; [reflexivity |].
    destruct (Background.keepGroup c1 (Background.refreshGroup now1 c1 g))
      eqn:Hkeep; simpl.
    + now rewrite (refreshGroup_later now1 now2 c1 c2 g Hc), IH.
    + now rewrite (keepGroup_later now1 now2 c1 c2 g Hc Hkeep).
  - set (c1 := now1 - BackgroundAggressive.RETENTION_HOURS * 60 * 60 * 1000).
    set (c2 := now2 - BackgroundAggressive.RETENTION_HOURS * 60 * 60 * 1000).
    assert (Hc : c1 <= c2) by (subst c1 c2; lia).
    induction gs as [| g gs IH]; simpl; [reflexivity |].
    destruct (BackgroundAggressive.shouldKeep now1
                (Background.refreshGroup now1 c1 g)) eqn:Hkeep; simpl.
    + now rewrite (refreshGroup_later now1 now2 c1 c2 g Hc), IH.
    + change (BackgroundAggressive.shouldKeep now1
                (Background.refreshGroup now1 c1 g))
        with (BackgroundAggressive.shouldKeep now1 g) in Hkeep.
      change (BackgroundAggressive.shouldKeep now2
                (Background.refreshGroup now2 c2 g))
        with (BackgroundAggressive.shouldKeep now2 g).
      now rewrite (shouldKeep_later now1 now2 g Hle Hkeep).
Qed.

(** Two sweeps of the groups of the scenario of the sweep, an hour
    apart. *)
Lemma sweep_after_sweep_witness :
  sweep FirstScript 1000003600000
    (sweep FirstScript 1000000000000
       (mkStorage [sample_expired_group; sample_idle_group] None None))
  = sweep FirstScript 1000003600000
      (mkStorage [sample_expired_group; sample_idle_group] None None).
Proof. apply sweep_after_sweep. lia. Defined.

Lemma filter_sublist {A} (p : A -> bool) l : sublist (List.filter p l) l.
Proof.
  induction l as [| x l IH]; simpl; [constructor |].
  destruct (p x); now constructor.
Qed.

Lemma sweep_groups script now st :
  exists keep,
    tokenGroups (sweep script now st)
    = List.filter keep
        (map (Background.refreshGroup now (cutoff script now))
           (tokenGroups st)).
Proof.
  destruct script.
  - exists (Background.keepGroup (cutoff24 now)). reflexivity.
  - exists (BackgroundAggressive.shouldKeep now). reflexivity.
Qed.

Lemma refreshGroup_same_credential now c g :
  same_credential g (Background.refreshGroup now c g).
Proof. unfold same_credential. simpl. auto 10. Qed.

Lemma sweep_identities script now st :
  sublist (map tokenId (tokenGroups (sweep script now st)))
    (map tokenId (tokenGroups st)).
Proof.
  destruct (sweep_groups script now st) as (keep & ->).
  replace (map tokenId (tokenGroups st))
    with (map tokenId
            (map (Background.refreshGroup now (cutoff script now))
               (tokenGroups st)))
    by (rewrite map_map; reflexivity).
  change (map tokenId ?l) with (tokenId <$> l).
  apply fmap_sublist, filter_sublist.
Qed.

(** A sweep only removes.  The groups it leaves are groups that were
    there, in the order they had; each still has its identity, its
    credential with the parts decoded from it, its expiry, its [firstSeen]
    and its [lastSeen]; its requests are those of its requests that were
    observed after the cut-off, in the order they had; its expiry flag is
    the one of the current instant.  The settings of the index stay. *)
Theorem sweep_only_removes (script : Script) (now : Z)
  (st : ExtensionStorage) :
  sublist (map tokenId (tokenGroups (sweep script now st)))
    (map tokenId (tokenGroups st))
  /\ maxTokenGroups (sweep script now st) = maxTokenGroups st
  /\ retentionHours (sweep script now st) = retentionHours st
  /\ forall g',
       In g' (tokenGroups (sweep script now st)) ->
       exists g,
         In g (tokenGroups st)
         /\ same_credential g g'
         /\ lastSeen g' = lastSeen g
         /\ isExpired g' = JWTUtils.isTokenExpired now (payload g)
         /\ sublist (requests g') (requests g)
         /\ forall r,
              In r (requests g')
              <-> In r (requests g) /\ observed_after (cutoff script now) r.
Proof.
  destruct (sweep_groups script now st) as (keep & Hgroups).
  split; [| split; [| split]].
  - apply sweep_identities.
  - now destruct script.
  - now destruct script.
  - intros g' Hg'. rewrite Hgroups in Hg'.
    apply filter_In in Hg' as [Hg' _].
    apply in_map_iff in Hg' as (g & <- & Hg).
    exists g. split; [exact Hg |].
    split; [apply refreshGroup_same_credential |].
    split; [reflexivity |]. split; [reflexivity |].
    split; [apply filter_sublist |]. intros r. apply refreshGroup_request.
Qed.

(** ** The index: what an upsert leaves alone *)

Lemma In_alter {A} (f : A -> A) i l x :
  In x (alter f i l) -> In x l \/ exists y, l !! i = Some y /\ x = f y.
Proof.
  revert i. induction l as [| a l IH]; intros [| i]; simpl; auto.
  - change (alter f 0%nat (a :: l)) with (f a :: l).
    intros [<- | Hin]; [right; eauto | left; now right].
  - change (alter f (S i) (a :: l)) with (a :: alter f i l).
    intros [<- | Hin]; [left; now left |].
    destruct (IH i Hin) as [Hl | (y & Hy & ->)]; [left; now right |].
    right. eauto.
Qed.

Lemma In_take {A} n (l : list A) x : In x (take n l) -> In x l.
Proof.
  revert n. induction l as [| a l IH]; intros [| n]; simpl; auto.
  - intros [].
  - intros [<- | Hin]; [now left | right; eauto].
Qed.

Lemma In_lookup {A} (l : list A) i x : l !! i = Some x -> In x l.
Proof.
  revert i. induction l as [| a l IH]; intros [| i]; simpl;
    try discriminate.
  - intros [= <-]. now left.
  - intros Hi. right. eauto.
Qed.

Lemma lookup_In_take {A} n (l : list A) i x :
  l !! i = Some x -> (i < n)%nat -> In x (take n l).
Proof.
  intros Hi Hlt. apply In_lookup with (i := i).
  now rewrite lookup_take_lt.
Qed.

Section Frame.
Context `{Host}.

Lemma updateExistingGroup_same_credential now token r g :
  same_credential g (Background.updateExistingGroup now token r g).
Proof.
  unfold same_credential, Background.updateExistingGroup. cbv zeta.
  destruct (JWTUtils.parseJWT token); simpl;
    destruct (50 <? len (requests g ++ [r])); simpl; auto 10.
Qed.

(** The groups after an upsert: each was there, or is the rewriting of
    the group found, or is the group created. *)
Lemma storeTokenData_In now token r st g' :
  In g' (tokenGroups (Background.storeTokenData now token r st)) ->
  In g' (tokenGroups st)
  \/ (exists g, In g (tokenGroups st)
                /\ tokenId g = JWTUtils.generateTokenId token
                /\ g' = Background.updateExistingGroup now token r g)
  \/ (groupIndex token st < 0
      /\ JWTUtils.createTokenGroup now token r = Some g').
Proof.
  destruct (Z.lt_ge_cases (groupIndex token st) 0) as [Habsent | Hpresent].
  - rewrite storeTokenData_absent by exact Habsent. intros Hin.
    apply In_take in Hin.
    destruct (JWTUtils.createTokenGroup now token r) as [g |];
      [| now left].
    destruct Hin as [<- | Hin]; [right; right; auto | now left].
  - rewrite storeTokenData_present by exact Hpresent. intros Hin.
    apply In_take, In_alter in Hin as [Hin | (g & Hg & ->)]; [now left |].
    right. left. exists g.
    destruct (findIndex_present _ _ Hpresent) as (x & Hx & Hid).
    fold (groupIndex token st) in Hx. rewrite Hg in Hx.
    injection Hx as <-. apply String.eqb_eq in Hid.
    split; [now apply In_lookup in Hg |]. split; [exact Hid | reflexivity].
Qed.

(** What an upsert leaves alone.  A group that is in the index after the
    upsert either is the group just created or continues a group that was
    there, with the same identity, credential, decoded parts, expiry and
    [firstSeen]: what is stored of a credential never changes.  A group of
    another identity than the credential's is there exactly as it was; and
    every such group stays, unless it held the last place of a full
    index.  The settings of the index stay. *)
Theorem storeTokenData_frame now token r st :
  (forall g',
     In g' (tokenGroups (Background.storeTokenData now token r st)) ->
     (exists g, In g (tokenGroups st) /\ same_credential g g')
     \/ JWTUtils.createTokenGroup now token r = Some g')
  /\ (forall g',
        In g' (tokenGroups (Background.storeTokenData now token r st)) ->
        tokenId g' <> JWTUtils.generateTokenId token ->
        In g' (tokenGroups st))
  /\ (forall j g,
        tokenGroups st !! j = Some g ->
        tokenId g <> JWTUtils.generateTokenId token -> (j < 99)%nat ->
        In g (tokenGroups (Background.storeTokenData now token r st)))
  /\ maxTokenGroups (Background.storeTokenData now token r st)
     = maxTokenGroups st
  /\ retentionHours (Background.storeTokenData now token r st)
     = retentionHours st.
Proof.
  split; [| split; [| split; [| split; reflexivity]]].
  - intros g' Hin.
    apply storeTokenData_In in Hin as [Hin | [(g & Hg & _ & ->) | [_ Hnew]]].
    + left. exists g'. split; [exact Hin |]. unfold same_credential. auto 10.
    + left. exists g. split; [exact Hg |].
      apply updateExistingGroup_same_credential.
    + now right.
  - intros g' Hin Hid.
    apply storeTokenData_In in Hin as [Hin | [(g & Hg & Hgid & ->) | [_ Hnew]]].
    + exact Hin.
    + exfalso. apply Hid.
      destruct (updateExistingGroup_same_credential now token r g)
        as (-> & _).
      exact Hgid.
    + exfalso. apply Hid. now apply createTokenGroup_fields in Hnew as (-> & _).
  - intros j g Hj Hid Hlt.
    destruct (Z.lt_ge_cases (groupIndex token st) 0) as [Habsent | Hpresent].
    + rewrite storeTokenData_absent by exact Habsent.
      destruct (JWTUtils.createTokenGroup now token r) as [new |].
      * apply lookup_In_take with (i := S j); [exact Hj | lia].
      * apply lookup_In_take with (i := j); [exact Hj | lia].
    + rewrite storeTokenData_present by exact Hpresent.
      apply lookup_In_take with (i := j); [| lia].
      destruct (findIndex_present _ _ Hpresent) as (x & Hx & Hxid).
      fold (groupIndex token st) in Hx. apply String.eqb_eq in Hxid.
      rewrite list_lookup_alter_ne; [exact Hj |].
      intros <-. rewrite Hj in Hx. injection Hx as <-. contradiction.
Qed.

End Frame.

(** ** Loading a snapshot: what comes back *)

Section LoadProperties.
Context `{Host}.

Lemma JsDate_eta d : mkDate (getTime d) = d.
Proof. now destruct d. Qed.

(** [getStorage] of the background script restores an index from its
    snapshot whenever [new Date] inverts the serialization on the instants
    that the index holds and the serialized expiries are truthy. *)
Theorem getStorage_savedWith (ser : JsDate -> RawTime)
  (st : ExtensionStorage) :
  (forall g d, In g (tokenGroups st) -> In d (group_instants g) ->
               new_Date (ser d) = d) ->
  (forall g d, In g (tokenGroups st) -> expiryDate g = Some d ->
               raw_truthy (ser d) = true) ->
  Background.getStorage (Some (savedWith ser st)) = st.
Proof.
  intros Hinv Htruthy. destruct st as [gs m h].
  unfold Background.getStorage, savedWith, with_tokenGroups.
  cbn [tokenGroups maxTokenGroups retentionHours] in *. f_equal.
  rewrite map_map. rewrite <- (map_id gs) at 2.
  apply map_ext_in. intros g Hg.
  cbn [tokenId raw header payload signature expiryDate isExpired requests
       firstSeen lastSeen isValid].
  assert (Hexp :
    (if raw_truthy (match expiryDate g with
                    | Some d => ser d | None => RawNull end)
     then Some (new_Date (match expiryDate g with
                          | Some d => ser d | None => RawNull end))
     else None) = expiryDate g).
  { destruct (expiryDate g) as [d |] eqn:Ed; [| reflexivity].
    rewrite (Htruthy g d Hg Ed). f_equal. apply (Hinv g d Hg).
    unfold group_instants. rewrite Ed. right. right. now left. }
  assert (Hreq :
    map (fun req : RawRequest => with_timestamp (new_Date (timestamp req)) req)
      (map (fun r : RequestInfo => with_timestamp (ser (timestamp r)) r)
         (requests g)) = requests g).
  { rewrite map_map. rewrite <- (map_id (requests g)) at 2.
    apply map_ext_in. intros r Hr. destruct r as [i u mt ap ts].
    unfold with_timestamp. cbn [reqId url method abbreviatedPath timestamp].
    f_equal. apply (Hinv g ts Hg). unfold group_instants.
    right. right. apply in_or_app. right.
    apply in_map_iff. exists (mkRequestInfo i u mt ap ts). auto. }
  rewrite Hexp, Hreq.
  rewrite (Hinv g (firstSeen g) Hg) by (now left).
  rewrite (Hinv g (lastSeen g) Hg) by (right; now left).
  now destruct g.
Qed.

Lemma parseDate_parses v :
  parses v -> Popup.parseDate v = Some (new_Date v).
Proof.
  intros [Htruthy (t & Ht)]. unfold Popup.parseDate. rewrite Htruthy.
  simpl negb. cbv iota.
  destruct v as [| | n | s | d]; simpl in *; try discriminate;
    try (rewrite Ht; reflexivity).
Qed.

(** On a snapshot whose instants are all present and parse (an expiry may
    be absent) the loader of the popup and the loader of the background
    script return the same groups, but for the expiry flag, which the
    popup computes anew; they return the same settings. *)
Theorem loaders_agree (now : Z) (data : RawStorage) :
  Forall well_stored (tokenGroups data) ->
  Forall2 (fun p b : JWTTokenGroup => p = with_isExpired (isExpired p) b)
    (tokenGroups (Popup.getStorage now (Some data)))
    (tokenGroups (Background.getStorage (Some data)))
  /\ maxTokenGroups (Popup.getStorage now (Some data))
     = maxTokenGroups (Background.getStorage (Some data))
  /\ retentionHours (Popup.getStorage now (Some data))
     = retentionHours (Background.getStorage (Some data)).
Proof.
  intros Hdata. split; [| split; reflexivity].
  unfold Popup.getStorage, Background.getStorage.
  cbn [tokenGroups with_tokenGroups].
  induction Hdata as [| group groups Hgroup _ IH]; simpl; [constructor |].
  constructor; [| exact IH].
  destruct Hgroup as (Hfirst & Hlast & Hreqs & Hexp).
  unfold Popup.loadGroup, with_isExpired. cbv zeta.
  cbn [tokenId raw header payload signature expiryDate isExpired requests
       firstSeen lastSeen isValid].
  rewrite (parseDate_parses _ Hfirst), (parseDate_parses _ Hlast).
  cbn [Popup.or_now].
  assert (Hexpiry :
    Popup.parseDate (expiryDate group)
    = if raw_truthy (expiryDate group)
      then Some (new_Date (expiryDate group)) else None).
  { destruct (raw_truthy (expiryDate group)) eqn:Ht.
    - apply parseDate_parses. split; [exact Ht | now apply Hexp].
    - unfold Popup.parseDate. now rewrite Ht. }
  assert (Hrequests :
    map (fun req : RawRequest =>
           with_timestamp (Popup.or_now now (Popup.parseDate (timestamp req)))
             req) (requests group)
    = map (fun req : RawRequest => with_timestamp (new_Date (timestamp req)) req)
        (requests group)).
  { apply map_ext_in. intros req Hreq.
    rewrite List.Forall_forall in Hreqs.
    now rewrite (parseDate_parses _ (Hreqs req Hreq)). }
  rewrite Hexpiry, Hrequests. reflexivity.
Qed.

End LoadProperties.

(** The index after fifty requests comes back from its snapshot with the
    instants saved as numbers of milliseconds. *)
Lemma getStorage_savedWith_witness :
  Background.getStorage (H:=ReferenceHost)
    (Some (savedWith milliseconds sample_index_50)) = sample_index_50.
Proof.
  apply (getStorage_savedWith (H:=ReferenceHost)).
  - intros g d Hg Hd. vm_compute in Hg. destruct Hg as [<- | []].
    vm_compute in Hd.
    repeat (destruct Hd as [<- | Hd]; [reflexivity |]). destruct Hd.
  - intros g d Hg Hd. vm_compute in Hg. destruct Hg as [<- | []].
    discriminate.
Defined.

(** The two loaders on a stored group whose instants are a number, a text
    and a [Date]. *)
Lemma loaders_agree_witness :
  Forall2 (fun p b : JWTTokenGroup => p = with_isExpired (isExpired p) b)
    (tokenGroups (Popup.getStorage (H:=ReferenceHost) 1793668869000
                    (Some (mkStorage [sample_stored_group] None None))))
    (tokenGroups (Background.getStorage (H:=ReferenceHost)
                    (Some (mkStorage [sample_stored_group] None None)))).
Proof.
  apply (loaders_agree (H:=ReferenceHost) 1793668869000
           (mkStorage [sample_stored_group] None None)).
  repeat constructor; try (vm_compute; eauto; fail).
Defined.

(** ** The index: what holds of every index the extension can reach *)

Lemma appended_length r rs : (length (appended r rs) <= 50)%nat.
Proof.
  unfold appended, slice0, len. cbv zeta.
  destruct (50 <? Z.of_nat (length (rs ++ [r]))) eqn:E.
  - rewrite length_take. lia.
  - apply Z.ltb_ge in E. lia.
Qed.

Section Reachable.
Context `{Host} `{UrlHost}.
Variable ser : JsDate -> RawTime.

Lemma handleRequest_bearerOf now random36 details st :
  Listener.handleRequest now random36 details st
  = match bearerOf details with
    | Some token =>
        Background.storeTokenData now token
          (requestInfoOf now random36 details) st
    | None => st
    end.
Proof.
  unfold Listener.handleRequest, bearerOf.
  destruct (Listener.authorizationHeader details) as [h |]; [| reflexivity].
  destruct (header_value h) as [value |]; [| reflexivity].
  destruct (String.eqb value EmptyString); [reflexivity |].
  destruct (Requests.extractBearerToken value) as [token |]; [| reflexivity].
  now destruct (String.eqb token EmptyString).
Qed.

(** Loading what was saved: group by group. *)
Lemma getStorage_saved st :
  tokenGroups (Background.getStorage (Some (savedWith ser st)))
  = map (reloaded ser) (tokenGroups st).
Proof.
  unfold Background.getStorage, savedWith.
  cbn [tokenGroups with_tokenGroups]. rewrite map_map.
  apply map_ext. intros g. unfold reloaded.
  cbn [tokenId raw header payload signature expiryDate isExpired requests
       firstSeen lastSeen isValid].
  rewrite map_map. f_equal.
  now destruct (expiryDate g).
Qed.

Lemma well_formed_same_credential g g' :
  same_credential g g' -> (length (requests g') <= 50)%nat ->
  well_formed_group g -> well_formed_group g'.
Proof.
  unfold same_credential, well_formed_group.
  intros (-> & -> & -> & -> & -> & _ & _ & ->) Hlen (? & ? & ? & _).
  auto.
Qed.

Lemma createTokenGroup_well_formed now token r g :
  JWTUtils.createTokenGroup now token r = Some g ->
  well_formed_group g
  /\ expiryDate g = JWTUtils.getExpiryDate (payload g).
Proof.
  unfold JWTUtils.createTokenGroup, well_formed_group.
  destruct (JWTUtils.parseJWT token) as [[h p s] |] eqn:Hparsed;
    [| discriminate].
  intros [= <-]. simpl. rewrite Hparsed. repeat split. lia.
Qed.

Lemma storeTokenData_invariant now token r st :
  index_invariant st ->
  index_invariant (Background.storeTokenData now token r st).
Proof.
  intros (Hnd & Hcap & Hwf).
  destruct (upsert_keeps_index_invariants now token r st Hnd)
    as [Hnd' Hcap'].
  split; [exact Hnd' |]. split; [exact Hcap' |].
  apply List.Forall_forall. intros g' Hin.
  rewrite List.Forall_forall in Hwf.
  apply storeTokenData_In in Hin as [Hin | [(g & Hg & _ & ->) | [_ Hnew]]].
  - now apply Hwf.
  - apply (well_formed_same_credential g).
    + apply updateExistingGroup_same_credential.
    + rewrite updateExistingGroup_requests. apply appended_length.
    + now apply Hwf.
  - now apply createTokenGroup_well_formed in Hnew as [Hnew _].
Qed.

Lemma sweep_invariant script now st :
  index_invariant st -> index_invariant (sweep script now st).
Proof.
  intros (Hnd & Hcap & Hwf).
  pose proof (sweep_identities script now st) as Hsub.
  split; [eapply sublist_NoDup; [exact Hnd | exact Hsub] |]. split.
  - apply sublist_length in Hsub. rewrite !length_map in Hsub. lia.
  - destruct (sweep_groups script now st) as (keep & ->).
    apply List.Forall_forall. intros g' Hin.
    rewrite List.Forall_forall in Hwf.
    apply filter_In in Hin as [Hin _].
    apply in_map_iff in Hin as (g & <- & Hg).
    apply (well_formed_same_credential g).
    + apply refreshGroup_same_credential.
    + pose proof (sublist_length _ _
        (filter_sublist
           (fun req : RequestInfo =>
              num_gt (getTime (timestamp req))
                (Some (cutoff script now))) (requests g))) as Hle.
      destruct (Hwf g Hg) as (_ & _ & _ & Hlen).
      change (requests (Background.refreshGroup now (cutoff script now) g))
        with (List.filter
                (fun req : RequestInfo =>
                   num_gt (getTime (timestamp req))
                     (Some (cutoff script now))) (requests g)).
      lia.
    + now apply Hwf.
Qed.

(** Saving and loading keeps the invariant, whatever the storage area
    makes of the instants. *)
Lemma reload_invariant st :
  index_invariant st ->
  index_invariant (Background.getStorage (Some (savedWith ser st))).
Proof.
  intros (Hnd & Hcap & Hwf). unfold index_invariant.
  rewrite getStorage_saved, map_map, length_map.
  split; [exact Hnd |]. split; [exact Hcap |].
  apply Forall_map. eapply List.Forall_impl; [| exact Hwf].
  intros g (Hid & Hparsed & Hvalid & Hlen).
  unfold well_formed_group, reloaded.
  cbn [tokenId raw header payload signature isValid requests].
  now rewrite length_map.
Qed.

Lemma step_invariant data op :
  index_invariant (Background.getStorage data) ->
  index_invariant (Background.getStorage (step ser data op)).
Proof.
  intros Hinv. destruct op as [now random36 details | script now]; simpl.
  - destruct (bearerOf details) as [token |] eqn:Htoken; [| exact Hinv].
    apply reload_invariant. rewrite handleRequest_bearerOf, Htoken.
    now apply storeTokenData_invariant.
  - now apply reload_invariant, sweep_invariant.
Qed.

(** The same for the expiry of the groups, when [new Date] inverts what
    the storage area makes of an instant. *)
Lemma storeTokenData_expiry now token r st :
  Forall (expiry_kept ser) (tokenGroups st) ->
  Forall (expiry_kept ser)
    (tokenGroups (Background.storeTokenData now token r st)).
Proof.
  intros Hexp. apply List.Forall_forall. intros g' Hin.
  rewrite List.Forall_forall in Hexp.
  apply storeTokenData_In in Hin as [Hin | [(g & Hg & _ & ->) | [_ Hnew]]].
  - now apply Hexp.
  - destruct (updateExistingGroup_same_credential now token r g)
      as (_ & _ & _ & Hpay & _ & Hdate & _).
    unfold expiry_kept. rewrite Hpay, Hdate. now apply Hexp.
  - left. now apply createTokenGroup_well_formed in Hnew as [_ Hnew].
Qed.

Lemma sweep_expiry script now st :
  Forall (expiry_kept ser) (tokenGroups st) ->
  Forall (expiry_kept ser) (tokenGroups (sweep script now st)).
Proof.
  intros Hexp. destruct (sweep_groups script now st) as (keep & ->).
  apply List.Forall_forall. intros g' Hin.
  rewrite List.Forall_forall in Hexp.
  apply filter_In in Hin as [Hin _].
  apply in_map_iff in Hin as (g & <- & Hg).
  exact (Hexp g Hg).
Qed.

Lemma reload_expiry st :
  (forall t, Z.abs t <= MAX_TIME ->
             new_Date (ser (mkDate (Some t))) = mkDate (Some t)) ->
  Forall (expiry_kept ser) (tokenGroups st) ->
  Forall (expiry_kept ser)
    (tokenGroups (Background.getStorage (Some (savedWith ser st)))).
Proof.
  intros Hser Hexp. rewrite getStorage_saved. apply Forall_map.
  eapply List.Forall_impl; [| exact Hexp].
  intros g Hg. unfold expiry_kept, reloaded in *.
  cbn [expiryDate payload].
  destruct Hg as [Hsame | (Hnone & d & Hd & Hfalsy)].
  - rewrite Hsame.
    destruct (JWTUtils.getExpiryDate (payload g)) as [d |] eqn:Hd;
      [| now left].
    apply getExpiryDate_Some in Hd as Hrange.
    destruct Hrange as (_ & _ & Hrange & ->).
    destruct (raw_truthy (ser _)) eqn:Htruthy.
    + left. now rewrite Hser.
    + right. split; [reflexivity |]. eauto.
  - rewrite Hnone. right. split; [reflexivity |]. eauto.
Qed.

Lemma step_expiry data op :
  (forall t, Z.abs t <= MAX_TIME ->
             new_Date (ser (mkDate (Some t))) = mkDate (Some t)) ->
  Forall (expiry_kept ser) (tokenGroups (Background.getStorage data)) ->
  Forall (expiry_kept ser)
    (tokenGroups (Background.getStorage (step ser data op))).
Proof.
  intros Hser Hexp.
  destruct op as [now random36 details | script now]; simpl.
  - destruct (bearerOf details) as [token |] eqn:Htoken; [| exact Hexp].
    apply reload_expiry; [exact Hser |].
    rewrite handleRequest_bearerOf, Htoken.
    now apply storeTokenData_expiry.
  - apply reload_expiry; [exact Hser |]. now apply sweep_expiry.
Qed.

Lemma run_invariant ops data :
  index_invariant (Background.getStorage data) ->
  index_invariant (Background.getStorage (run ser ops data)).
Proof.
  revert data. induction ops as [| op ops IH]; intros data Hinv;
    [exact Hinv |].
  apply IH, step_invariant, Hinv.
Qed.

Lemma run_expiry ops data :
  (forall t, Z.abs t <= MAX_TIME ->
             new_Date (ser (mkDate (Some t))) = mkDate (Some t)) ->
  Forall (expiry_kept ser) (tokenGroups (Background.getStorage data)) ->
  Forall (expiry_kept ser)
    (tokenGroups (Background.getStorage (run ser ops data))).
Proof.
  intros Hser. revert data.
  induction ops as [| op ops IH]; intros data Hdata; [exact Hdata |].
  apply IH, step_expiry; assumption.
Qed.

(** Whatever requests the extension intercepts and whenever it sweeps,
    from the installation on, and whatever the storage area makes of the
    instants it is given: in the index that the next operation loads, the
    identities of the groups are pairwise distinct; there are at most 100
    groups; and every group has the identity of its credential, holds the
    header, the payload and the signature that the credential decodes to,
    is marked valid and holds at most 50 requests.  When moreover
    [new Date] inverts what the storage area makes of an instant, the
    expiry of every group is the one of its payload, or it is absent
    because the storage area saved that expiry as a falsy value. *)
Theorem reachable_index_invariant (ops : list Operation) :
  NoDup (map tokenId
           (tokenGroups (Background.getStorage (run ser ops None))))
  /\ (length (tokenGroups (Background.getStorage (run ser ops None)))
      <= 100)%nat
  /\ Forall well_formed_group
       (tokenGroups (Background.getStorage (run ser ops None)))
  /\ ((forall t, Z.abs t <= MAX_TIME ->
                 new_Date (ser (mkDate (Some t))) = mkDate (Some t)) ->
      Forall (expiry_kept ser)
        (tokenGroups (Background.getStorage (run ser ops None)))).
Proof.
  destruct (run_invariant ops None) as (Hnd & Hcap & Hwf).
  { split; [constructor |]. split; [simpl; lia | constructor]. }
  split; [exact Hnd |]. split; [exact Hcap |]. split; [exact Hwf |].
  intros Hser. apply (run_expiry ops None Hser). constructor.
Qed.

End Reachable.

(** An expiry at the epoch, saved as the number 0, is absent from the
    index that the next operation loads. *)
Example epoch_expiry_is_lost :
  map (fun g => (expiryDate g, JWTUtils.getExpiryDate (payload g)))
    (tokenGroups
       (Background.getStorage (H:=ReferenceHost)
          (run (H:=ReferenceHost) (H0:=ReferenceUrlHost) milliseconds
             [Intercept 1793668860123 "0.4fzyo82mvyr" epoch_details] None)))
  = [(None, Some (mkDate (Some 0)))].
Proof. vm_compute. reflexivity. Qed.

(** ** The popup: what it shows *)

Lemma sort_insert_sorted_by {A} (cmp : A -> A -> option Z) (key : A -> Z)
  x l :
  (forall y, In y l -> cmp x y = Some (key y - key x)) ->
  StronglySorted (fun a b => key b <= key a) l ->
  StronglySorted (fun a b => key b <= key a) (sort_insert cmp x l).
Proof.
  intros Hcmp Hs. induction Hs as [| y l Hs IH Hy]; simpl.
  - repeat constructor.
  - unfold SortCompare at 1. rewrite (Hcmp y) by now left.
    destruct (key y - key x <=? 0) eqn:E.
    + apply Z.leb_le in E. constructor; [now constructor |].
      constructor; [lia |].
      rewrite List.Forall_forall in Hy |- *. intros z Hz.
      specialize (Hy z Hz). simpl in Hy. lia.
    + apply Z.leb_gt in E. constructor.
      * apply IH. intros z Hz. apply Hcmp. now right.
      * rewrite sort_insert_Permutation. constructor; [lia | exact Hy].
Qed.

Lemma Array_sort_sorted_by {A} (cmp : A -> A -> option Z) (key : A -> Z) l :
  (forall x y, In x l -> In y l -> cmp x y = Some (key y - key x)) ->
  StronglySorted (fun a b => key b <= key a) (Array_sort cmp l).
Proof.
  induction l as [| x l IH]; intros Hcmp; simpl; [constructor |].
  apply sort_insert_sorted_by.
  - intros y Hy. apply Hcmp; [now left | right].
    eapply Permutation_in; [apply Array_sort_Permutation | exact Hy].
  - apply IH. intros a b Ha Hb. apply Hcmp; now right.
Qed.

Section PopupProperties.
Context `{Host}.

Lemma or_now_valid now v :
  Z.abs now <= MAX_TIME ->
  valid_date (Popup.or_now now (Popup.parseDate v)).
Proof.
  intros Hnow. destruct (Popup.parseDate v) as [d |] eqn:E; simpl.
  - now apply parseDate_valid in E.
  - exists now. unfold Date_of_number, TimeClip. simpl.
    destruct (Z.abs now <=? MAX_TIME) eqn:E'; [reflexivity |].
    apply Z.leb_gt in E'. lia.
Qed.

Lemma loadGroup_requests_valid now group :
  Z.abs now <= MAX_TIME ->
  Forall valid_request (requests (Popup.loadGroup now group)).
Proof.
  intros Hnow. unfold Popup.loadGroup. cbn [requests].
  apply List.Forall_forall. intros r Hr.
  apply in_map_iff in Hr as (req & <- & _).
  destruct (or_now_valid now (timestamp req) Hnow) as (t & Ht).
  unfold valid_request, observedAt. simpl. now rewrite Ht.
Qed.

(** The popup lists the groups of any snapshot, whatever its instants,
    most recently seen first: it shows the empty state exactly when the
    snapshot yields no group, and otherwise one element for each group
    loaded, in an order in which [lastSeen], valid for every one of them,
    never increases. *)
Theorem popup_lists_most_recent_first (now : Z)
  (data : option RawStorage) :
  Z.abs now <= MAX_TIME ->
  exists sorted,
    Permutation sorted (tokenGroups (Popup.getStorage now data))
    /\ Forall (fun g => valid_date (lastSeen g)) sorted
    /\ StronglySorted (fun a b => seenAt b <= seenAt a) sorted
    /\ PopupView.loadTokens now data
       = match sorted with
         | [] => PopupView.EmptyState
         | _ :: _ =>
             PopupView.TokenElements
               (map PopupView.createTokenElement sorted)
         end.
Proof.
  intros Hnow. unfold PopupView.loadTokens, PopupView.renderTokens.
  cbv zeta.
  assert (Hvalid : Forall (fun g : JWTTokenGroup => valid_date (lastSeen g))
                     (tokenGroups (Popup.getStorage now data))).
  { destruct data as [data |]; [| constructor].
    unfold Popup.getStorage. cbn [tokenGroups with_tokenGroups].
    apply List.Forall_forall. intros g Hg.
    apply in_map_iff in Hg as (group & <- & _).
    apply or_now_valid, Hnow. }
  set (groups := tokenGroups (Popup.getStorage now data)) in *.
  exists (Array_sort PopupView.by_lastSeen groups).
  split; [apply Array_sort_Permutation |]. split.
  { rewrite Array_sort_Permutation. exact Hvalid. }
  split.
  { apply Array_sort_sorted_by. intros a b Ha Hb.
    rewrite List.Forall_forall in Hvalid.
    destruct (Hvalid a Ha) as (ta & Hta).
    destruct (Hvalid b Hb) as (tb & Htb).
    unfold PopupView.by_lastSeen, seenAt. simpl.
    now rewrite Hta, Htb. }
  pose proof (Array_sort_length PopupView.by_lastSeen groups) as Hlength.
  unfold len. destruct groups as [| g groups'] eqn:Egroups.
  - reflexivity.
  - destruct (Array_sort PopupView.by_lastSeen (g :: groups'));
      [discriminate |].
    reflexivity.
Qed.

(** Under each group the popup lists the requests of the group newest
    first, whatever the order in which the snapshot holds them: it says
    that there are no requests exactly when the group has none, and
    otherwise it shows one row for each request, with its method and its
    abbreviated path (its URL when that is empty), in an order in which
    the instant of observation never increases. *)
Theorem popup_lists_requests_newest_first (now : Z) (group : RawGroup) :
  Z.abs now <= MAX_TIME ->
  exists sorted,
    Permutation sorted (requests (Popup.loadGroup now group))
    /\ length sorted = length (requests group)
    /\ Forall valid_request sorted
    /\ StronglySorted newer_or_equal sorted
    /\ PopupView.requestsView
         (PopupView.createTokenElement (Popup.loadGroup now group))
       = match sorted with
         | [] => PopupView.NoRequests
         | _ :: _ => PopupView.RequestRows (map requestRow sorted)
         end.
Proof.
  intros Hnow. pose proof (loadGroup_requests_valid now group Hnow) as Hvalid.
  unfold PopupView.createTokenElement. cbv zeta.
  cbn [PopupView.requestsView]. unfold PopupView.renderRequests. cbv zeta.
  assert (Hlen : length (requests (Popup.loadGroup now group))
                 = length (requests group)).
  { unfold Popup.loadGroup. cbn [requests]. apply length_map. }
  set (loaded := requests (Popup.loadGroup now group)) in *.
  exists (Array_sort newest_first loaded).
  split; [apply Array_sort_Permutation |].
  split; [now rewrite Array_sort_length |]. split.
  { rewrite Array_sort_Permutation. exact Hvalid. }
  split; [apply Array_sort_sorted, Hvalid |].
  pose proof (Array_sort_length newest_first loaded) as Hlength.
  change (Array_sort PopupView.by_timestamp loaded)
    with (Array_sort newest_first loaded).
  unfold len. destruct loaded as [| r loaded'] eqn:Eloaded.
  - reflexivity.
  - destruct (Array_sort newest_first (r :: loaded')); [discriminate |].
    reflexivity.
Qed.

(** The badge of a group agrees with the expiry the popup shows for it:
    when the popup shows an expiry date for a group it loaded, the date is
    valid, and the badge says Expired exactly when that date is before the
    current instant, and Valid otherwise. *)
Theorem popup_badge_agrees_with_expiry (now : Z) (group : RawGroup)
  (d : JsDate) :
  PopupView.expiryText
    (PopupView.createTokenElement (Popup.loadGroup now group))
  = PopupView.FormattedDate d ->
  exists t,
    getTime d = Some t
    /\ PopupView.statusText
         (PopupView.createTokenElement (Popup.loadGroup now group))
       = if t <? now then "Expired" else "Valid".
Proof.
  unfold PopupView.createTokenElement, Popup.loadGroup. cbv zeta.
  cbn [PopupView.expiryText PopupView.statusText expiryDate isExpired
       payload].
  destruct (Popup.parseDate (expiryDate group)) as [d' |] eqn:Hparsed.
  - destruct (parseDate_valid _ _ Hparsed) as (t & Ht). rewrite Ht.
    simpl. intros [= <-]. exists t. split; [exact Ht |].
    now destruct (t <? now).
  - destruct (truthy (payload group)
              && is_number (prop (payload group) "exp")); [| discriminate].
    set (ms := to_number (prop (payload group) "exp") * 1000).
    unfold Date_of_number.
    destruct (TimeClip ms) as [t |] eqn:Hclip; simpl; [| discriminate].
    intros [= <-]. exists t. split; [reflexivity |].
    unfold TimeClip in Hclip.
    destruct (Z.abs ms <=? MAX_TIME); [| discriminate].
    injection Hclip as <-. now destruct (ms <? now).
Qed.

End PopupProperties.

(** The popup on the sample snapshot, which holds the group seen last in
    the second place. *)
Lemma popup_lists_most_recent_first_witness :
  exists sorted,
    Permutation sorted
      (tokenGroups (Popup.getStorage (H:=ReferenceHost) 1793668869000
                      (Some sample_snapshot)))
    /\ Forall (fun g => valid_date (lastSeen g)) sorted
    /\ StronglySorted (fun a b => seenAt b <= seenAt a) sorted
    /\ PopupView.loadTokens (H:=ReferenceHost) 1793668869000
         (Some sample_snapshot)
       = match sorted with
         | [] => PopupView.EmptyState
         | _ :: _ =>
             PopupView.TokenElements
               (map (PopupView.createTokenElement (H:=ReferenceHost)) sorted)
         end.
Proof.
  apply (popup_lists_most_recent_first (H:=ReferenceHost)).
  vm_compute. discriminate.
Defined.

(** The rows of the expired group of the sample snapshot, whose requests
    are stored oldest first. *)
Lemma popup_lists_requests_newest_first_witness :
  exists sorted,
    Permutation sorted
      (requests (Popup.loadGroup (H:=ReferenceHost) 1793668869000
                   sample_stored_expired))
    /\ length sorted = length (requests sample_stored_expired)
    /\ Forall valid_request sorted
    /\ StronglySorted newer_or_equal sorted
    /\ PopupView.requestsView
         (PopupView.createTokenElement (H:=ReferenceHost)
            (Popup.loadGroup (H:=ReferenceHost) 1793668869000
               sample_stored_expired))
       = match sorted with
         | [] => PopupView.NoRequests
         | _ :: _ => PopupView.RequestRows (map requestRow sorted)
         end.
Proof.
  apply (popup_lists_requests_newest_first (H:=ReferenceHost)).
  vm_compute. discriminate.
Defined.

(** The badge of the expired group of the sample snapshot. *)
Lemma popup_badge_agrees_with_expiry_witness :
  PopupView.statusText
    (PopupView.createTokenElement (H:=ReferenceHost)
       (Popup.loadGroup (H:=ReferenceHost) 1793668869000
          sample_stored_expired))
  = "Expired".
Proof.
  destruct (popup_badge_agrees_with_expiry (H:=ReferenceHost) 1793668869000
              sample_stored_expired (mkDate (Some 1000000)))
    as (t & [= <-] & ->); reflexivity.
Defined.

(** ** Request ids *)

Lemma code_char_of z : 0 <= z < 256 -> code (char_of z) = z.
Proof.
  intros Hz. unfold code, char_of.
  rewrite N_ascii_embedding by lia. lia.
Qed.

Lemma decimal_value_snoc ds c :
  decimal_value (ds ++ [c]) = 10 * decimal_value ds + (code c - 48).
Proof. unfold decimal_value. now rewrite fold_left_app. Qed.

(** The digits that [decimal_digits] writes denote the number. *)
Lemma decimal_digits_spec fuel n acc :
  0 <= n < 2 ^ Z.of_nat (S fuel) ->
  exists ds,
    chars (decimal_digits (S fuel) n acc) = ds ++ chars acc
    /\ forallb is_decimal_digit ds = true
    /\ decimal_value ds = n.
Proof.
  revert n acc. induction fuel as [| fuel IH]; intros n acc Hn.
  - assert (Hlt : n < 10) by (change (2 ^ Z.of_nat 1) with 2 in Hn; lia).
    exists [char_of (48 + n mod 10)]. cbn [decimal_digits].
    apply Z.ltb_lt in Hlt as Hb. rewrite Hb.
    rewrite Z.mod_small by lia. unfold is_decimal_digit, decimal_value.
    simpl. rewrite code_char_of by lia.
    repeat split; [| lia]. apply andb_true_intro.
    split; [| reflexivity]. apply andb_true_intro. split; lia.
  - change (decimal_digits (S (S fuel)) n acc)
      with (let acc' := String (char_of (48 + n mod 10)) acc in
            if n <? 10 then acc' else decimal_digits (S fuel) (n / 10) acc').
    cbv zeta. pose proof (Z.mod_pos_bound n 10 ltac:(lia)) as Hmod.
    assert (Hdigit : is_decimal_digit (char_of (48 + n mod 10)) = true).
    { unfold is_decimal_digit. rewrite code_char_of by lia.
      apply andb_true_intro. split; lia. }
    destruct (n <? 10) eqn:Hb.
    + apply Z.ltb_lt in Hb. exists [char_of (48 + n mod 10)].
      simpl. rewrite Hdigit. unfold decimal_value. simpl.
      rewrite code_char_of by lia. rewrite Z.mod_small by lia.
      repeat split. lia.
    + apply Z.ltb_ge in Hb.
      destruct (IH (n / 10) (String (char_of (48 + n mod 10)) acc))
        as (ds & Hds & Hall & Hval).
      { split; [apply Z.div_pos; lia |].
        apply Z.div_lt_upper_bound; [lia |].
        rewrite (Nat2Z.inj_succ (S fuel)), Z.pow_succ_r in Hn by lia. lia. }
      exists (ds ++ [char_of (48 + n mod 10)]). rewrite Hds. simpl.
      rewrite <- app_assoc. split; [reflexivity |]. split.
      * rewrite forallb_app, Hall. simpl. now rewrite Hdigit.
      * rewrite decimal_value_snoc, Hval, code_char_of by lia.
        pose proof (Z.div_mod n 10 ltac:(lia)). lia.
Qed.

Lemma digits_prefix_unique ds1 ds2 c1 c2 r1 r2 :
  forallb is_decimal_digit ds1 = true -> forallb is_decimal_digit ds2 = true ->
  is_decimal_digit c1 = false -> is_decimal_digit c2 = false ->
  ds1 ++ c1 :: r1 = ds2 ++ c2 :: r2 -> ds1 = ds2.
Proof.
  revert ds2. induction ds1 as [| d ds1 IH]; intros [| d' ds2]; simpl;
    intros H1 H2 Hc1 Hc2 Heq.
  - reflexivity.
  - injection Heq as -> _. apply andb_prop in H2 as [H2 _]. congruence.
  - injection Heq as -> _. apply andb_prop in H1 as [H1 _]. congruence.
  - injection Heq as -> Heq. apply andb_prop in H1 as [_ H1].
    apply andb_prop in H2 as [_ H2]. f_equal. eauto.
Qed.

(** The text of a number: an optional minus sign, then digits that denote
    its magnitude. *)
Lemma Number_toString_spec n :
  exists ds,
    forallb is_decimal_digit ds = true /\ decimal_value ds = Z.abs n
    /\ chars (Number_toString n)
       = if n <? 0 then "-"%char :: ds else ds.
Proof.
  unfold Number_toString. cbv zeta.
  assert (Hfuel : forall m, 0 <= m ->
            0 <= m < 2 ^ Z.of_nat (S (Z.to_nat (Z.log2 m)))).
  { intros m Hm. split; [exact Hm |].
    rewrite Nat2Z.inj_succ, Z2Nat.id by apply Z.log2_nonneg.
    destruct (Z.eq_dec m 0) as [-> | Hne]; [reflexivity |].
    apply Z.log2_spec. lia. }
  destruct (n <? 0) eqn:Hneg.
  - apply Z.ltb_lt in Hneg.
    destruct (decimal_digits_spec (Z.to_nat (Z.log2 (- n))) (- n) EmptyString
                (Hfuel (- n) ltac:(lia))) as (ds & Hds & Hall & Hval).
    change (chars EmptyString) with (@nil ascii) in Hds.
    rewrite app_nil_r in Hds.
    exists ds. split; [exact Hall |]. split; [lia |].
    change (chars (String "-" ?s)) with ("-"%char :: chars s).
    now rewrite Hds.
  - apply Z.ltb_ge in Hneg.
    destruct (decimal_digits_spec (Z.to_nat (Z.log2 n)) n EmptyString
                (Hfuel n Hneg)) as (ds & Hds & Hall & Hval).
    change (chars EmptyString) with (@nil ascii) in Hds.
    rewrite app_nil_r in Hds.
    exists ds. split; [exact Hall |]. split; [lia |]. exact Hds.
Qed.

(** Request ids made at different instants differ, whatever the random
    parts: an id determines the instant at which it was made.  (Two ids made
    at the same instant differ only if their random parts do.) *)
Theorem generateRequestId_instant (now1 now2 : Z) (random1 random2 : string) :
  Requests.generateRequestId now1 random1
  = Requests.generateRequestId now2 random2 ->
  now1 = now2.
Proof.
  unfold Requests.generateRequestId. intros Heq.
  apply (f_equal chars) in Heq. rewrite !chars_append in Heq.
  apply app_inv_head in Heq.
  destruct (Number_toString_spec now1) as (ds1 & Hall1 & Hval1 & Hs1).
  destruct (Number_toString_spec now2) as (ds2 & Hall2 & Hval2 & Hs2).
  rewrite Hs1, Hs2 in Heq. simpl in Heq.
  assert (Hminus : forall ds r ds' r',
            forallb is_decimal_digit ds' = true ->
            ("-"%char :: ds) ++ r = ds' ++ "_"%char :: r' -> False).
  { intros ds r [| d ds'] r' Hd Hq; simpl in Hq; [discriminate |].
    injection Hq as <- _. simpl in Hd. discriminate. }
  destruct (now1 <? 0) eqn:H1; destruct (now2 <? 0) eqn:H2.
  - simpl in Heq. injection Heq as Heq.
    assert (Hds : ds1 = ds2)
      by (eapply digits_prefix_unique; [| | | | exact Heq]; auto).
    apply Z.ltb_lt in H1. apply Z.ltb_lt in H2.
    rewrite Hds, Hval2 in Hval1. lia.
  - exfalso. eapply Hminus; [exact Hall2 | exact Heq].
  - exfalso. symmetry in Heq. eapply Hminus; [exact Hall1 | exact Heq].
  - assert (Hds : ds1 = ds2)
      by (eapply digits_prefix_unique; [| | | | exact Heq]; auto).
    apply Z.ltb_ge in H1. apply Z.ltb_ge in H2.
    rewrite Hds, Hval2 in Hval1. lia.
Qed.

(** Two ids made at the same instant from random texts with the same
    seven characters after the second are one id. *)
Lemma generateRequestId_instant_witness :
  Requests.generateRequestId 1793668860123 "0.4fzyo82mvyr"
  = Requests.generateRequestId 1793668860123 "0.4fzyo82aaaa"
  /\ 1793668860123 = 1793668860123.
Proof.
  split; [reflexivity |].
  apply (generateRequestId_instant 1793668860123 1793668860123
           "0.4fzyo82mvyr" "0.4fzyo82aaaa").
  reflexivity.
Defined.

(** ** Credentials that do not decode, again *)

(** A credential that does not decode but whose identity is the one of a
    group of the index is recorded under that group: the request joins the
    requests of the group and [lastSeen] moves to it, while the credential
    stored, its decoded parts and the expiry flag stay.  (A text without
    dots is its own identity, so the identity of a group, sent as a Bearer
    credential, is such a credential.) *)
Theorem undecodable_credential_of_known_identity `{Host} now token r st
  i g :
  JWTUtils.parseJWT token = None ->
  groupIndex token st = Z.of_nat i -> (i < 100)%nat ->
  tokenGroups st !! i = Some g ->
  exists g',
    tokenGroups (Background.storeTokenData now token r st) !! i = Some g'
    /\ same_credential g g'
    /\ isExpired g' = isExpired g
    /\ requests g' = appended r (requests g)
    /\ lastSeen g' = timestamp r.
Proof.
  intros Hparse Hi Hlt Hg.
  exists (Background.updateExistingGroup now token r g).
  split; [now apply storeTokenData_group |].
  split; [apply updateExistingGroup_same_credential |].
  destruct (updateExistingGroup_fields now token r g)
    as (_ & _ & _ & _ & Hlast & Hexp).
  rewrite Hparse in Hexp.
  split; [exact Hexp |]. split; [apply updateExistingGroup_requests |].
  exact Hlast.
Qed.

(** The identity of the group of the index that holds one group, sent
    as a credential. *)
Lemma undecodable_credential_of_known_identity_witness :
  JWTUtils.generateTokenId sample_identity = sample_identity
  /\ exists g',
       tokenGroups (Background.storeTokenData (H:=ReferenceHost) 3000
                      sample_identity (sample_request 2500) sample_index_1)
         !! 0%nat = Some g'
       /\ requests g' = [sample_request 2000; sample_request 2500]
       /\ lastSeen g' = mkDate (Some 2500).
Proof.
  split; [vm_compute; reflexivity |].
  destruct (tokenGroups sample_index_1 !! 0%nat) as [g |] eqn:Hg;
    [| vm_compute in Hg; discriminate].
  destruct (undecodable_credential_of_known_identity (H:=ReferenceHost)
              3000 sample_identity (sample_request 2500) sample_index_1
              0%nat g) as (g' & Hg' & _ & _ & Hreq & Hlast).
  - vm_compute. reflexivity.
  - vm_compute. reflexivity.
  - lia.
  - exact Hg.
  - exists g'. split; [exact Hg' |]. rewrite Hreq, Hlast.
    vm_compute in Hg. injection Hg as <-. split; reflexivity.
Defined.
